(** * OpenPaw / NanoClaw message-processing core: a shallow embedding

    This development embeds the parts of the repository that the
    specification's claims talk about and proves (or refutes) each claim
    against the embedding.

    - [JS]        JavaScript strings as sequences of UTF-16 code units and the
                  string primitives the sources call ([trim], [split],
                  [indexOf], [slice], [parseInt], ...).
    - [Env]       [src/env.ts]: [readEnvFile] and [updateEnvFile].
    - [Telegram]  [channels/telegram.ts]: [TelegramChannel.sendMessage], the
                  handlers of inbound updates, and the bot pool
                  ([normalizeSenderName], [initBotPool], [sendPoolMessage]).
    - [Lock]      [src/index.ts]: [acquireSingletonLock] and
                  [releaseSingletonLock].
    - [Router]    [src/index.ts]: [saveState], [runAgent],
                  [processGroupMessages], one iteration of
                  [startMessageLoop] and [recoverPendingMessages].
    - [Commands]  [src/commands.ts]: [handleCommand], the model commands
                  and the session-state commands.

    Modelling conventions.  Mutable module-level variables become fields of an
    explicit state record that every operation threads through.  Every
    externally visible effect (a write to the store, a call into the queue, a
    channel send, a timer being armed) is appended to a chronological trace,
    so that ordering claims are statements about that trace.  A
    [Record<string,string>] is a finite map ([gmap]) over its own string
    keys; a read of a name it does not hold sees the members it inherits
    from [Object.prototype] ([JS.get], [Router.not_registered]).  A file
    holds what UTF-8 can hold ([JS.utf8_round_trip]).  An [async] function is modelled as it runs when no other task
    is scheduled at its [await]s; the one thing that does happen while
    [processGroupMessages] waits for the agent, the expiry of timers, is
    part of the agent's stream.  Collaborators whose sources are not part
    of the repository snapshot are either parameters of a [Section] or are
    modelled from the specification, and are marked as such. *)

From Stdlib Require Import NArith ZArith Bool Lia DecimalString.
From Stdlib Require DecimalPos DecimalN.
From stdpp Require Import base list strings gmap.

(* ===================================================================== *)
(** * JavaScript strings *)
(* ===================================================================== *)

Module JS.

(** A string is its sequence of UTF-16 code units; [s.length] is [length s]. *)
Abbreviation jsstring := (list N) (only parsing).

(** Literals are written through Rocq strings (code units below 256). *)
Definition str (s : string) : jsstring :=
  map Ascii.N_of_ascii (String.list_ascii_of_string s).

Definition LF : N := 10.        (* "\n" *)
Definition HASH : N := 35.      (* "#"  *)
Definition EQUALS : N := 61.    (* "="  *)
Definition DQUOTE : N := 34.    (* double quote *)
Definition SQUOTE : N := 39.    (* single quote *)
Definition PLUS : N := 43.
Definition MINUS : N := 45.

(** ECMAScript WhiteSpace and LineTerminator code points, i.e. what
    [String.prototype.trim] and [parseInt] strip. *)
Definition is_ws (c : N) : bool :=
  existsb (N.eqb c)
    [9; 10; 11; 12; 13; 32; 160; 5760; 8232; 8233; 8239; 8287; 12288; 65279]%N
  || ((8192 <=? c) && (c <=? 8202))%N.

Fixpoint trimStart (s : jsstring) : jsstring :=
  match s with
  | c :: s' => if is_ws c then trimStart s' else s
  | [] => []
  end.

Definition trimEnd (s : jsstring) : jsstring := rev (trimStart (rev s)).

Definition trim (s : jsstring) : jsstring := trimEnd (trimStart s).

(** [s.split("\n")]: never empty, [""] splits to [[""]]. *)
Fixpoint split_nl (s : jsstring) : list jsstring :=
  match s with
  | [] => [[]]
  | c :: s' =>
      if (c =? LF)%N then [] :: split_nl s'
      else match split_nl s' with
           | l :: ls => (c :: l) :: ls
           | [] => [[c]]
           end
  end.

(** [lines.join("\n")]. *)
Fixpoint join_nl (ls : list jsstring) : jsstring :=
  match ls with
  | [] => []
  | [l] => l
  | l :: ls' => l ++ LF :: join_nl ls'
  end.

(** [s.indexOf(c)] for a one-character needle; [None] is [-1]. *)
Fixpoint indexOf (c : N) (s : jsstring) : option nat :=
  match s with
  | [] => None
  | d :: s' => if (d =? c)%N then Some 0 else S <$> indexOf c s'
  end.

Fixpoint startsWith (p s : jsstring) : bool :=
  match p, s with
  | [], _ => true
  | c :: p', d :: s' => (c =? d)%N && startsWith p' s'
  | _ :: _, [] => false
  end.

Definition endsWith (p s : jsstring) : bool := startsWith (rev p) (rev s).

(** [s.slice(i, j)] for [0 <= i] and [0 <= j]. *)
Definition slice (i j : nat) (s : jsstring) : jsstring := take (j - i) (drop i s).

(** [s.slice(i)]. *)
Definition slice_from (i : nat) (s : jsstring) : jsstring := drop i s.

(** [s.slice(1, -1)]: the end index is [max (s.length - 1) 0]. *)
Definition slice_1_m1 (s : jsstring) : jsstring := slice 1 (length s - 1) s.

(** Truthiness of a string: non-empty. *)
Definition truthy (s : jsstring) : bool :=
  match s with [] => false | _ :: _ => true end.

(** [n.toString()] / template interpolation of a non-negative integer. *)
Definition toString (n : N) : jsstring :=
  str (NilEmpty.string_of_uint (N.to_uint n)).

(** ** parseInt(s, 10) *)

Definition digit (c : N) : option N :=
  if ((48 <=? c) && (c <=? 57))%N then Some (c - 48)%N else None.

Fixpoint parse_digits (acc : N) (s : jsstring) : N :=
  match s with
  | c :: s' =>
      match digit c with
      | Some d => parse_digits (10 * acc + d) s'
      | None => acc
      end
  | [] => acc
  end.

(** The mathematical value of the longest decimal prefix, with its sign;
    [None] is [NaN] (no digit after the optional sign). *)
Definition parseInt10 (s : jsstring) : option Z :=
  let s := trimStart s in
  let '(neg, s) :=
    match s with
    | c :: r => if (c =? MINUS)%N then (true, r)
                else if (c =? PLUS)%N then (false, r) else (false, s)
    | [] => (false, s)
    end in
  match s with
  | c :: _ =>
      match digit c with
      | Some _ =>
          let v := Z.of_N (parse_digits 0 s) in
          Some (if neg then (- v)%Z else v)
      | None => None
      end
  | [] => None
  end.

(** ** Facts about the primitives *)

Definition head_ok (s : jsstring) : bool :=
  match s with c :: _ => negb (is_ws c) | [] => true end.

(** No leading and no trailing white space. *)
Definition trimmed (s : jsstring) : bool := head_ok s && head_ok (rev s).

Lemma trimStart_id s : head_ok s = true → trimStart s = s.
Proof.
  destruct s as [|c s]; simpl; [done|].
  intros H. apply negb_true_iff in H. by rewrite H.
Qed.

Lemma trimEnd_id s : head_ok (rev s) = true → trimEnd s = s.
Proof.
  intros H. unfold trimEnd. rewrite trimStart_id by done.
  apply rev_involutive.
Qed.

Lemma trim_id s : trimmed s = true → trim s = s.
Proof.
  unfold trimmed, trim. intros [H1 H2]%andb_prop.
  rewrite trimStart_id by done. by apply trimEnd_id.
Qed.

Lemma indexOf_app_fresh c k v :
  c ∉ k → indexOf c (k ++ c :: v) = Some (length k).
Proof.
  induction k as [|d k IH]; simpl; intros Hk.
  - by rewrite N.eqb_refl.
  - apply not_elem_of_cons in Hk as [Hd Hk].
    destruct (N.eqb_spec d c) as [->|_]; [done|].
    by rewrite IH.
Qed.

Lemma split_nl_nonempty s : split_nl s ≠ [].
Proof.
  destruct s as [|c s]; simpl; [done|].
  destruct (c =? LF)%N; [done|]. by destruct (split_nl s).
Qed.

Lemma split_nl_no_lf s : Forall (λ l, LF ∉ l) (split_nl s).
Proof.
  induction s as [|c s IH]; simpl.
  - repeat constructor. apply not_elem_of_nil.
  - destruct (N.eqb_spec c LF) as [->|Hc].
    + constructor; [apply not_elem_of_nil | done].
    + destruct (split_nl s) as [|l ls]; inversion IH; subst.
      * repeat constructor. intros H%list_elem_of_singleton. congruence.
      * constructor; [|done]. by apply not_elem_of_cons.
Qed.

Lemma split_nl_line l s :
  LF ∉ l → split_nl (l ++ LF :: s) = l :: split_nl s.
Proof.
  induction l as [|c l IH]; simpl; intros Hl; [done|].
  apply not_elem_of_cons in Hl as [Hc Hl].
  destruct (N.eqb_spec c LF) as [->|_]; [done|].
  by rewrite IH.
Qed.

Lemma split_nl_single l : LF ∉ l → split_nl l = [l].
Proof.
  induction l as [|c l IH]; simpl; intros Hl; [done|].
  apply not_elem_of_cons in Hl as [Hc Hl].
  destruct (N.eqb_spec c LF) as [->|_]; [done|].
  by rewrite IH.
Qed.

Lemma split_join_nl ls :
  ls ≠ [] → Forall (λ l, LF ∉ l) ls → split_nl (join_nl ls) = ls.
Proof.
  induction ls as [|l ls IH]; [done|]. intros _ Hall.
  inversion Hall as [|? ? Hl Hls]; subst.
  destruct ls as [|l' ls]; simpl.
  - by apply split_nl_single.
  - rewrite split_nl_line by done. f_equal. by apply IH.
Qed.

Lemma split_nl_snoc_lf s : split_nl (s ++ [LF]) = split_nl s ++ [[]].
Proof.
  induction s as [|c s IH]; simpl; [done|].
  destruct (c =? LF)%N.
  - by rewrite IH.
  - rewrite IH. pose proof (split_nl_nonempty s).
    by destruct (split_nl s).
Qed.

(** ** More facts: what [trim] returns, and decimal numerals *)

Lemma head_ok_trimStart s : head_ok (trimStart s) = true.
Proof.
  induction s as [|c s IH]; [done|]. cbn [trimStart].
  destruct (is_ws c) eqn:E; [done|]. cbn. by rewrite E.
Qed.

(** [trimStart] drops a prefix, [trimEnd] a suffix. *)
Lemma trimStart_suffix s : ∃ w, s = w ++ trimStart s.
Proof.
  induction s as [|c s [w IH]]; [by exists []|]. cbn [trimStart].
  destruct (is_ws c); [|by exists []].
  exists (c :: w). cbn. by rewrite <- IH.
Qed.

Lemma trimEnd_prefix s : ∃ w, s = trimEnd s ++ w.
Proof.
  unfold trimEnd. destruct (trimStart_suffix (rev s)) as [w Hw].
  exists (rev w). rewrite <- rev_app_distr, <- Hw. by rewrite rev_involutive.
Qed.

Lemma head_ok_rev_trimEnd s : head_ok (rev (trimEnd s)) = true.
Proof. unfold trimEnd. rewrite rev_involutive. apply head_ok_trimStart. Qed.

(** The result of [trim] has no white space at either end, so trimming
    twice is trimming once. *)
Lemma trimmed_trim s : trimmed (trim s) = true.
Proof.
  unfold trimmed, trim. apply andb_true_intro. split.
  - destruct (trimEnd_prefix (trimStart s)) as [w Hw].
    pose proof (head_ok_trimStart s) as H. rewrite Hw in H.
    destruct (trimEnd (trimStart s)); [done|exact H].
  - apply head_ok_rev_trimEnd.
Qed.

Lemma trim_idempotent s : trim (trim s) = trim s.
Proof. apply trim_id, trimmed_trim. Qed.

Lemma length_trimStart s : length (trimStart s) ≤ length s.
Proof.
  destruct (trimStart_suffix s) as [w Hw]. rewrite Hw at 2.
  rewrite length_app. lia.
Qed.

Lemma length_trim s : length (trim s) ≤ length s.
Proof.
  unfold trim. destruct (trimEnd_prefix (trimStart s)) as [w Hw].
  pose proof (length_trimStart s) as H. rewrite Hw in H.
  rewrite length_app in H. lia.
Qed.

(** The code units of a decimal numeral. *)
Definition is_digit (c : N) : bool :=
  match digit c with Some _ => true | None => false end.

Lemma digits_string_of_uint (d : Decimal.uint) :
  Forall (λ c, is_digit c = true) (str (NilEmpty.string_of_uint d)).
Proof. induction d; cbn; by constructor. Qed.

Lemma str_cons c s : str (String c s) = Ascii.N_of_ascii c :: str s.
Proof. reflexivity. Qed.

Lemma parse_digits_string_of_uint (d d' : Decimal.uint) :
  parse_digits (DecimalPos.Unsigned.of_lu d') (str (NilEmpty.string_of_uint d))
  = DecimalPos.Unsigned.of_lu (Decimal.revapp d d').
Proof.
  revert d'. induction d as [|d IH|d IH|d IH|d IH|d IH|d IH|d IH|d IH|d IH|d IH];
    intros d'; [done|..];
    cbn [NilEmpty.string_of_uint Decimal.revapp]; rewrite str_cons;
    cbn [parse_digits];
    match goal with
    | |- context [digit ?c] =>
        let r := eval vm_compute in (digit c) in change (digit c) with r
    end;
    cbn iota beta; rewrite <- IH; f_equal;
    cbn [DecimalPos.Unsigned.of_lu]; lia.
Qed.

(** [parseInt(String(n), 10)] reads [n] back. *)
Lemma parse_digits_toString n : parse_digits 0 (toString n) = n.
Proof.
  unfold toString.
  pose proof (parse_digits_string_of_uint (N.to_uint n) Decimal.Nil) as H.
  cbn [DecimalPos.Unsigned.of_lu] in H. rewrite H.
  change (Decimal.revapp (N.to_uint n) Decimal.Nil) with (Decimal.rev (N.to_uint n)).
  rewrite <- DecimalPos.Unsigned.of_uint_alt.
  apply DecimalN.Unsigned.of_to.
Qed.

Lemma toString_digits n : Forall (λ c, is_digit c = true) (toString n).
Proof. apply digits_string_of_uint. Qed.

Lemma toString_nonempty n : toString n ≠ [].
Proof.
  unfold toString. destruct n as [|p]; [done|].
  pose proof (DecimalPos.Unsigned.to_uint_nonnil p) as H.
  cbn [N.to_uint]. by destruct (Pos.to_uint p).
Qed.

Lemma is_digit_not_ws c : is_digit c = true → is_ws c = false.
Proof.
  unfold is_digit, digit.
  destruct (N.leb_spec 48 c), (N.leb_spec c 57); cbn; try done. intros _.
  unfold is_ws. apply orb_false_intro.
  - cbn. repeat (apply orb_false_intro; [apply N.eqb_neq; lia|]). done.
  - apply andb_false_iff. left. apply N.leb_gt. lia.
Qed.

Lemma is_digit_not_sign c :
  is_digit c = true → (c =? MINUS)%N = false ∧ (c =? PLUS)%N = false.
Proof.
  unfold is_digit, digit, MINUS, PLUS.
  destruct (N.leb_spec 48 c), (N.leb_spec c 57); cbn; try done. intros _.
  split; apply N.eqb_neq; lia.
Qed.

Lemma parseInt10_toString n : parseInt10 (toString n) = Some (Z.of_N n).
Proof.
  pose proof (toString_digits n) as Hd. pose proof (toString_nonempty n) as Hne.
  pose proof (parse_digits_toString n) as Hp.
  unfold parseInt10. destruct (toString n) as [|c s]; [done|].
  apply Forall_cons in Hd as [Hc _].
  cbn [trimStart]. rewrite (is_digit_not_ws c Hc).
  destruct (is_digit_not_sign c Hc) as [-> ->].
  unfold is_digit in Hc. destruct (digit c) eqn:E; [|done].
  by rewrite Hp.
Qed.

(** A numeral followed by a line break trims to the numeral. *)
Lemma trim_toString_lf n : trim (toString n ++ [LF]) = toString n.
Proof.
  pose proof (toString_digits n) as Hd. pose proof (toString_nonempty n) as Hne.
  unfold trim. rewrite trimStart_id.
  2:{ destruct (toString n) as [|c s]; [done|]. apply Forall_cons in Hd as [Hc _].
      cbn. by rewrite is_digit_not_ws. }
  unfold trimEnd. rewrite rev_app_distr. cbn [rev app trimStart].
  change (is_ws LF) with true. cbn iota.
  rewrite trimStart_id; [apply rev_involutive|].
  apply Forall_rev in Hd. destruct (rev (toString n)) as [|c s] eqn:E.
  - done.
  - apply Forall_cons in Hd as [Hc _]. cbn. by rewrite is_digit_not_ws.
Qed.



Lemma elem_of_trim c s : c ∈ trim s → c ∈ s.
Proof.
  unfold trim. intros H.
  destruct (trimEnd_prefix (trimStart s)) as [w2 H2].
  destruct (trimStart_suffix s) as [w1 H1].
  rewrite H1. apply elem_of_app. right. rewrite H2. apply elem_of_app. by left.
Qed.

Lemma join_nl_snoc_empty ls : ls ≠ [] → join_nl (ls ++ [[]]) = join_nl ls ++ [LF].
Proof.
  induction ls as [|l ls IH]; [done|]. intros _.
  destruct ls as [|l' ls].
  - cbn. done.
  - change (join_nl ((l :: l' :: ls) ++ [[]]))
      with (l ++ LF :: join_nl ((l' :: ls) ++ [[]])).
    rewrite IH by done. cbn [join_nl]. by rewrite <- app_assoc.
Qed.

Lemma trimStart_app_nonws a c b :
  is_ws c = false → trimStart (a ++ c :: b) = trimStart a ++ c :: b.
Proof.
  intros Hc. induction a as [|d a IH]; cbn.
  - by rewrite Hc.
  - by destruct (is_ws d).
Qed.

Lemma trimEnd_app_nonws a c b :
  is_ws c = false → trimEnd (a ++ c :: b) = a ++ c :: trimEnd b.
Proof.
  intros Hc. unfold trimEnd.
  rewrite rev_app_distr. cbn [rev]. rewrite <- app_assoc. cbn [app].
  rewrite trimStart_app_nonws by done.
  rewrite rev_app_distr. cbn [rev]. rewrite rev_involutive, <- app_assoc. done.
Qed.

Lemma trimStart_snoc a c :
  trimStart (a ++ [c])
  = match trimStart a with
    | [] => if is_ws c then [] else [c]
    | _ => trimStart a ++ [c]
    end.
Proof.
  induction a as [|d a IH]; cbn.
  - by destruct (is_ws c).
  - by destruct (is_ws d).
Qed.

Lemma trimEnd_cons c s :
  trimEnd (c :: s)
  = match trimEnd s with
    | [] => if is_ws c then [] else [c]
    | _ => c :: trimEnd s
    end.
Proof.
  unfold trimEnd. cbn [rev]. rewrite trimStart_snoc.
  destruct (trimStart (rev s)) as [|d t]; [by destruct (is_ws c)|].
  rewrite rev_app_distr. cbn [rev app].
  by destruct (rev t ++ [d]) eqn:E; [destruct (rev t)|].
Qed.

(** Trimming the two ends commutes. *)
Lemma trimEnd_trimStart s : trimEnd (trimStart s) = trimStart (trimEnd s).
Proof.
  induction s as [|c s IH]; [done|].
  cbn [trimStart]. destruct (is_ws c) eqn:Hc.
  - rewrite trimEnd_cons, IH. destruct (trimEnd s) as [|d t]; [by rewrite Hc|].
    cbn [trimStart]. by rewrite Hc.
  - rewrite trimEnd_cons. destruct (trimEnd s); rewrite ?Hc; cbn; by rewrite Hc.
Qed.

Lemma trim_trimEnd s : trim (trimEnd s) = trim s.
Proof.
  unfold trim. rewrite <- trimEnd_trimStart.
  apply trimEnd_id, head_ok_rev_trimEnd.
Qed.

Lemma trim_no_ws s : Forall (λ c, is_ws c = false) s → trim s = s.
Proof.
  intros H. apply trim_id. unfold trimmed. apply andb_true_intro. split.
  - destruct H as [|c s Hc _]; [done|]. cbn. by rewrite Hc.
  - apply Forall_rev in H. destruct H as [|c r Hc _]; [done|]. cbn. by rewrite Hc.
Qed.

Lemma indexOf_absent c s : c ∉ s → indexOf c s = None.
Proof.
  induction s as [|d s IH]; [done|]. intros Hs. cbn.
  destruct (N.eqb_spec d c) as [->|_].
  - exfalso. apply Hs, list_elem_of_here.
  - rewrite IH; [done|]. intros ?. by apply Hs, list_elem_of_further.
Qed.

(** ** Plain objects used as maps

    [sessions], [registeredGroups] and [lastAgentTimestamp] are plain
    objects.  Reading [o[k]] finds an own property, or else a member that
    the object inherits from [Object.prototype], or else [undefined].  The
    inherited members are functions, and [__proto__] is
    [Object.prototype] itself: all of them are truthy. *)

(** The property names of [Object.prototype]. *)
Definition prototype_members : list jsstring :=
  [str "constructor"; str "__proto__"; str "hasOwnProperty";
   str "isPrototypeOf"; str "propertyIsEnumerable"; str "toLocaleString";
   str "toString"; str "valueOf"; str "__defineGetter__";
   str "__defineSetter__"; str "__lookupGetter__"; str "__lookupSetter__"].

Definition inherited (k : jsstring) : bool := bool_decide (k ∈ prototype_members).

(** What [o[k]] evaluates to.  The model keeps such an object as the map
    of all assignments [o[k] = v] made to it.  An assignment to
    [__proto__] creates no property: the map records it, and no read sees
    it. *)
Inductive Property (V : Type) :=
| Undefined
| Own (v : V)
| Member (name : list N).
Arguments Undefined {V}.
Arguments Own {V} v.
Arguments Member {V} name.

Definition get {V : Type} (o : gmap (list N) V) (k : jsstring) : Property V :=
  if bool_decide (k = str "__proto__") then Member k else
  match o !! k with
  | Some v => Own v
  | None => if inherited k then Member k else Undefined
  end.

(** ** Strings on disk

    [fs.writeFileSync(path, s, 'utf-8')] encodes the code units of [s] as
    UTF-8 and [fs.readFileSync(path, 'utf-8')] decodes them.  A surrogate
    that is not part of a pair has no UTF-8 encoding: the encoder writes
    U+FFFD in its place.  Everything else comes back as it was written (a
    byte order mark is kept). *)

(** The surrogate code units: [0xD800..0xDBFF] and [0xDC00..0xDFFF]. *)
Definition is_high (c : N) : bool := ((55296 <=? c) && (c <=? 56319))%N.
Definition is_low (c : N) : bool := ((56320 <=? c) && (c <=? 57343))%N.
Definition REPLACEMENT : N := 65533.

(** [Buffer.from(s, 'utf-8').toString('utf-8')] *)
Fixpoint utf8_round_trip (s : jsstring) : jsstring :=
  match s with
  | [] => []
  | c :: s' =>
      if is_high c then
        match s' with
        | d :: s'' =>
            if is_low d then c :: d :: utf8_round_trip s''
            else REPLACEMENT :: utf8_round_trip s'
        | [] => [REPLACEMENT]
        end
      else if is_low c then REPLACEMENT :: utf8_round_trip s'
      else c :: utf8_round_trip s'
  end.

(** A string without lone surrogates: one that UTF-8 can hold. *)
Definition well_formed (s : jsstring) : bool :=
  bool_decide (utf8_round_trip s = s).

Lemma list_ind_pairs (P : list N → Prop) :
  P [] → (∀ x, P [x]) → (∀ x y l, P l → P (y :: l) → P (x :: y :: l)) →
  ∀ l, P l.
Proof.
  intros H0 H1 H2 l.
  assert (H : P l ∧ ∀ x, P (x :: l)); [|by destruct H].
  induction l as [|y l [IH1 IH2]]; [by split|].
  split; [apply IH2|]. intros x. by apply H2.
Qed.

Lemma utf8_round_trip_sep a c b :
  is_high c = false → is_low c = false →
  utf8_round_trip (a ++ c :: b) = utf8_round_trip a ++ c :: utf8_round_trip b.
Proof.
  intros Hh Hl.
  assert (H0 : utf8_round_trip (c :: b) = c :: utf8_round_trip b).
  { cbn [utf8_round_trip]. by rewrite Hh, Hl. }
  induction a as [|x|x y a IH1 IH2] using list_ind_pairs.
  - exact H0.
  - cbn [app]. cbn [utf8_round_trip]. rewrite Hl, <- H0.
    cbn [utf8_round_trip]. rewrite Hh, Hl.
    by destruct (is_high x), (is_low x).
  - change ((x :: y :: a) ++ c :: b) with (x :: (y :: a) ++ c :: b).
    change ((y :: a) ++ c :: b) with (y :: a ++ c :: b) in *.
    change (utf8_round_trip (x :: y :: a ++ c :: b))
      with (if is_high x then
              if is_low y then x :: y :: utf8_round_trip (a ++ c :: b)
              else REPLACEMENT :: utf8_round_trip (y :: a ++ c :: b)
            else if is_low x then REPLACEMENT :: utf8_round_trip (y :: a ++ c :: b)
            else x :: utf8_round_trip (y :: a ++ c :: b)).
    change (utf8_round_trip (x :: y :: a))
      with (if is_high x then
              if is_low y then x :: y :: utf8_round_trip a
              else REPLACEMENT :: utf8_round_trip (y :: a)
            else if is_low x then REPLACEMENT :: utf8_round_trip (y :: a)
            else x :: utf8_round_trip (y :: a)).
    rewrite IH1, IH2.
    by destruct (is_high x), (is_low x), (is_low y).
Qed.

Lemma utf8_round_trip_no_lf s : LF ∉ s → LF ∉ utf8_round_trip s.
Proof.
  induction s as [|x|x y s IH1 IH2] using list_ind_pairs; [done| |].
  - intros Hx. cbn [utf8_round_trip].
    destruct (is_high x), (is_low x); intros [E|E]%elem_of_cons;
      try discriminate; try (by apply elem_of_nil in E).
    apply Hx. subst. apply list_elem_of_here.
  - intros Hs.
    assert (Hx : LF ≠ x) by (intros <-; apply Hs, list_elem_of_here).
    assert (Hy : LF ≠ y).
    { intros <-. apply Hs, list_elem_of_further, list_elem_of_here. }
    assert (H1 : LF ∉ utf8_round_trip s).
    { apply IH1. intros ?. by apply Hs, list_elem_of_further, list_elem_of_further. }
    assert (H2 : LF ∉ utf8_round_trip (y :: s)).
    { apply IH2. intros ?. by apply Hs, list_elem_of_further. }
    change (utf8_round_trip (x :: y :: s))
      with (if is_high x then
              if is_low y then x :: y :: utf8_round_trip s
              else REPLACEMENT :: utf8_round_trip (y :: s)
            else if is_low x then REPLACEMENT :: utf8_round_trip (y :: s)
            else x :: utf8_round_trip (y :: s)).
    destruct (is_high x), (is_low x), (is_low y);
      rewrite ?elem_of_cons; intros H; destruct_or!; try done.
Qed.

Lemma join_split_nl s : join_nl (split_nl s) = s.
Proof.
  induction s as [|c s IH]; [done|]. cbn [split_nl].
  pose proof (split_nl_nonempty s) as Hne.
  destruct (N.eqb_spec c LF) as [->|_].
  - destruct (split_nl s) as [|l ls]; [done|]. cbn [join_nl app] in *. by rewrite IH.
  - destruct (split_nl s) as [|l ls]; [done|]. rewrite <- IH.
    by destruct ls.
Qed.

Lemma utf8_round_trip_join ls :
  utf8_round_trip (join_nl ls) = join_nl (map utf8_round_trip ls).
Proof.
  induction ls as [|l ls IH]; [done|].
  destruct ls as [|l' ls]; [done|].
  change (join_nl (l :: l' :: ls)) with (l ++ LF :: join_nl (l' :: ls)).
  rewrite utf8_round_trip_sep, IH by done. done.
Qed.

(** A string is well formed exactly when its lines are. *)
Lemma well_formed_lines s :
  well_formed s = true ↔ Forall (λ l, well_formed l = true) (split_nl s).
Proof.
  unfold well_formed. rewrite bool_decide_eq_true.
  rewrite <- (join_split_nl s) at 1 2. rewrite utf8_round_trip_join.
  pose proof (split_nl_nonempty s) as Hne.
  pose proof (split_nl_no_lf s) as Hlf.
  split.
  - intros E. apply (f_equal split_nl) in E.
    rewrite !split_join_nl in E; try done.
    + revert E. generalize (split_nl s). intros ls.
      induction ls as [|l ls IH]; [done|]. intros [= E1 E2].
      constructor; [by apply bool_decide_eq_true|by apply IH].
    + by destruct (split_nl s).
    + apply Forall_map. eapply Forall_impl; [exact Hlf|].
      intros l. apply utf8_round_trip_no_lf.
  - intros H. f_equal. revert H. generalize (split_nl s). intros ls.
    induction 1 as [|l ls Hl _ IH]; [done|]. cbn [map].
    apply bool_decide_eq_true in Hl. by rewrite Hl, IH.
Qed.

Lemma well_formed_app_sep a c b :
  is_high c = false → is_low c = false →
  well_formed a = true → well_formed b = true →
  well_formed (a ++ c :: b) = true.
Proof.
  unfold well_formed. rewrite !bool_decide_eq_true. intros Hh Hl Ha Hb.
  by rewrite utf8_round_trip_sep, Ha, Hb.
Qed.

End JS.

(* ===================================================================== *)
(** * src/env.ts *)
(* ===================================================================== *)

Module Env.
Import JS.

(** The [.env] file: [None] when [fs.readFileSync] throws (no such file). *)
Abbreviation file := (option (list N)) (only parsing).

(** [result[key] = value] on an object literal.  The one string key that is
    not an ordinary own property is [__proto__]: assigning a string to it
    is ignored by the inherited setter and creates no own property. *)
Definition record_set (key value : jsstring) (r : gmap (list N) (list N))
  : gmap (list N) (list N) :=
  if bool_decide (key = str "__proto__") then r else <[key := value]> r.

(** [updates[key]] guarded by [updatedKeys.has(key)], for [updates] given by
    its [Object.entries] (own keys are pairwise distinct). *)
Fixpoint lookup_entry (key : jsstring) (updates : list (list N * list N))
  : option jsstring :=
  match updates with
  | [] => None
  | (k, v) :: rest => if bool_decide (k = key) then Some v else lookup_entry key rest
  end.

(** [(value.startsWith('"') && value.endsWith('"')) ||
     (value.startsWith("'") && value.endsWith("'"))] *)
Definition quoted (value : jsstring) : bool :=
  (startsWith [DQUOTE] value && endsWith [DQUOTE] value)
  || (startsWith [SQUOTE] value && endsWith [SQUOTE] value).

(** Body of the [for (const line of content.split('\n'))] loop of
    [readEnvFile]; [continue] returns the accumulator unchanged. *)
Definition read_line (keys : list (list N)) (result : gmap (list N) (list N))
    (line : jsstring) : gmap (list N) (list N) :=
  let trimmed := trim line in
  if negb (truthy trimmed) || startsWith [HASH] trimmed then result else
  match indexOf EQUALS trimmed with
  | None => result
  | Some eqIdx =>
      let key := trim (slice 0 eqIdx trimmed) in
      if negb (bool_decide (key ∈ keys)) then result else
      let value := trim (slice_from (eqIdx + 1) trimmed) in
      let value := if quoted value then slice_1_m1 value else value in
      if truthy value then record_set key value result else result
  end.

Definition readEnvFile (keys : list (list N)) (f : file)
  : gmap (list N) (list N) :=
  match f with
  | None => ∅
  | Some content => fold_left (read_line keys) (split_nl content) ∅
  end.

(** [`${key}=${value}`] *)
Definition entry_line (key value : jsstring) : jsstring := key ++ EQUALS :: value.

(** Body of the first loop of [updateEnvFile]; the accumulator is
    [(newLines, foundKeys)]. *)
Definition update_line (updates : list (list N * list N))
    (acc : list (list N) * list (list N)) (line : jsstring)
  : list (list N) * list (list N) :=
  let '(newLines, foundKeys) := acc in
  let trimmed := trim line in
  if negb (truthy trimmed) || startsWith [HASH] trimmed
  then (newLines ++ [line], foundKeys) else
  match indexOf EQUALS trimmed with
  | None => (newLines ++ [line], foundKeys)
  | Some eqIdx =>
      let key := trim (slice 0 eqIdx trimmed) in
      match lookup_entry key updates with
      | Some newValue => (newLines ++ [entry_line key newValue], foundKeys ++ [key])
      | None => (newLines ++ [line], foundKeys)
      end
  end.

(** Body of the second loop: append the keys that were not found. *)
Definition append_entry (foundKeys : list (list N)) (newLines : list (list N))
    (e : list N * list N) : list (list N) :=
  if bool_decide (e.1 ∈ foundKeys) then newLines
  else newLines ++ [entry_line e.1 e.2].

(** [updateEnvFile(updates)]: the string handed to
    [fs.writeFileSync(ENV_FILE, ..., 'utf-8')]; [f] is what
    [fs.readFileSync(ENV_FILE, 'utf-8')] returned. *)
Definition updateEnvFile (updates : list (list N * list N)) (f : file)
  : jsstring :=
  let content := match f with Some c => c | None => [] end in
  let lines := split_nl content in
  let '(newLines, foundKeys) := fold_left (update_line updates) lines ([], []) in
  let newLines := fold_left (append_entry foundKeys) updates newLines in
  join_nl newLines ++ [LF].

(** The file as a later [fs.readFileSync(ENV_FILE, 'utf-8')] returns it,
    once [fs.writeFileSync(ENV_FILE, s, 'utf-8')] has written [s]. *)
Definition written (s : jsstring) : file := Some (utf8_round_trip s).

(** ** Which key a line defines *)

(** The key both loops compute for a line; [None] for blank lines, comments
    and lines without [=]. *)
Definition line_key (line : jsstring) : option jsstring :=
  let trimmed := trim line in
  if negb (truthy trimmed) || startsWith [HASH] trimmed then None else
  match indexOf EQUALS trimmed with
  | None => None
  | Some eqIdx => Some (trim (slice 0 eqIdx trimmed))
  end.

(** Keys and values that survive a write followed by a read. *)
Definition key_ok (k : jsstring) : bool :=
  trimmed k
  && negb (bool_decide (EQUALS ∈ k)) && negb (bool_decide (LF ∈ k))
  && negb (startsWith [HASH] k)
  && negb (bool_decide (k = str "__proto__")).

Definition value_ok (v : jsstring) : bool :=
  truthy v && trimmed v && negb (bool_decide (LF ∈ v)) && negb (quoted v).

(** What the first loop does to one line when the update is [{k: v}]. *)
Definition rewrite_line (k v line : jsstring) : jsstring :=
  if bool_decide (line_key line = Some k) then entry_line k v else line.

Lemma update_line_single k v nl fk line :
  update_line [(k, v)] (nl, fk) line =
    (nl ++ [rewrite_line k v line],
     if bool_decide (line_key line = Some k) then fk ++ [k] else fk).
Proof.
  unfold update_line, rewrite_line, line_key.
  destruct (negb (truthy (trim line)) || startsWith [HASH] (trim line)).
  { by rewrite bool_decide_eq_false_2. }
  destruct (indexOf EQUALS (trim line)) as [i|].
  2:{ by rewrite bool_decide_eq_false_2. }
  simpl. case_bool_decide as Hk.
  - subst k. by rewrite bool_decide_eq_true_2.
  - rewrite bool_decide_eq_false_2; [done|]. congruence.
Qed.

Lemma update_fold_single k v lines nl fk :
  fold_left (update_line [(k, v)]) lines (nl, fk) =
    (nl ++ map (rewrite_line k v) lines,
     fk ++ map (λ _, k) (filter (λ l, line_key l = Some k) lines)).
Proof.
  revert nl fk. induction lines as [|l lines IH]; intros nl fk; cbn [fold_left map].
  - by rewrite filter_nil, !app_nil_r.
  - rewrite update_line_single, IH. rewrite <- !app_assoc. cbn [app].
    rewrite filter_cons. case_bool_decide as Hk.
    + rewrite decide_True by done. simpl. by rewrite <- app_assoc.
    + by rewrite decide_False.
Qed.

Lemma head_ok_app_entry k v :
  head_ok k = true → head_ok (entry_line k v) = true.
Proof. unfold entry_line. by destruct k. Qed.

Lemma rev_entry_head v k :
  v ≠ [] → head_ok (rev v) = true → head_ok (rev (entry_line k v)) = true.
Proof.
  unfold entry_line. intros Hv H.
  change (k ++ EQUALS :: v) with (k ++ [EQUALS] ++ v).
  rewrite !rev_app_distr.
  destruct (rev v) as [|c r] eqn:E; [|done].
  apply (f_equal (@rev N)) in E. rewrite rev_involutive in E. by subst.
Qed.

Lemma entry_line_trimmed k v :
  trimmed k = true → truthy v = true → trimmed v = true →
  trim (entry_line k v) = entry_line k v.
Proof.
  unfold trimmed. intros [Hk _]%andb_prop Hv [_ Hv']%andb_prop.
  apply trim_id. unfold trimmed. apply andb_true_intro. split.
  - by apply head_ok_app_entry.
  - apply rev_entry_head; [by destruct v | done].
Qed.

Lemma entry_line_no_lf k v : LF ∉ k → LF ∉ v → LF ∉ entry_line k v.
Proof.
  unfold entry_line. intros Hk Hv [H|H]%elem_of_app; [done|].
  apply elem_of_cons in H as [H|H]; [discriminate | done].
Qed.

Section RoundTrip.
Variables k v : list N.
Hypothesis Hk : key_ok k = true.
Hypothesis Hv : value_ok v = true.

Lemma key_ok_facts :
  trimmed k = true ∧ (EQUALS ∉ k) ∧ (LF ∉ k)
  ∧ startsWith [HASH] k = false ∧ k ≠ str "__proto__".
Proof.
  unfold key_ok in Hk.
  repeat (apply andb_prop in Hk as [Hk ?]).
  repeat match goal with
         | H : negb _ = true |- _ => apply negb_true_iff in H
         | H : bool_decide _ = false |- _ => apply bool_decide_eq_false in H
         end.
  split_and!; try done; by apply andb_true_intro.
Qed.

Lemma value_ok_facts :
  truthy v = true ∧ trimmed v = true ∧ (LF ∉ v) ∧ quoted v = false.
Proof.
  unfold value_ok in Hv.
  repeat (apply andb_prop in Hv as [Hv ?]).
  repeat match goal with
         | H : negb _ = true |- _ => apply negb_true_iff in H
         | H : bool_decide _ = false |- _ => apply bool_decide_eq_false in H
         end.
  split_and!; try done; by apply andb_true_intro.
Qed.

(** Reading back the line that [updateEnvFile] writes. *)
Lemma read_entry_line r :
  read_line [k] r (entry_line k v) = <[k := v]> r.
Proof.
  destruct key_ok_facts as (Hkt & Hke & Hkl & Hkh & Hkp).
  destruct value_ok_facts as (Hvt & Hvtr & Hvl & Hvq).
  unfold read_line. rewrite entry_line_trimmed by done.
  assert (truthy (entry_line k v) = true) as -> by (unfold entry_line; by destruct k).
  assert (startsWith [HASH] (entry_line k v) = false) as ->.
  { unfold entry_line. destruct k as [|c k']; [done|]. exact Hkh. }
  simpl. unfold entry_line at 1. rewrite indexOf_app_fresh by done.
  unfold slice, slice_from, entry_line. rewrite Nat.sub_0_r, drop_0.
  rewrite take_app_length.
  replace (length k + 1) with (S (length k)) by lia.
  change (k ++ EQUALS :: v) with (k ++ [EQUALS] ++ v).
  rewrite app_assoc, drop_app_length'
    by (rewrite length_app; simpl; lia).
  rewrite !trim_id by done.
  rewrite bool_decide_eq_true_2 by (apply list_elem_of_here).
  simpl. rewrite Hvq, Hvt. unfold record_set.
  by rewrite bool_decide_eq_false_2.
Qed.

(** A line that defines another key (or none) is invisible to a read of
    [k]. *)
Lemma read_other_line r line :
  line_key line ≠ Some k → read_line [k] r line = r.
Proof.
  unfold line_key, read_line. intros Hne.
  destruct (negb (truthy (trim line)) || startsWith [HASH] (trim line)); [done|].
  destruct (indexOf EQUALS (trim line)) as [i|]; [|done].
  rewrite bool_decide_eq_false_2; [done|].
  intros E%list_elem_of_singleton. congruence.
Qed.

Lemma read_rewritten_line r line :
  read_line [k] r (rewrite_line k v line) =
    if bool_decide (line_key line = Some k) then <[k := v]> r else r.
Proof.
  unfold rewrite_line. case_bool_decide.
  - apply read_entry_line.
  - by apply read_other_line.
Qed.

Lemma read_rewritten_fold lines r :
  fold_left (read_line [k]) (map (rewrite_line k v) lines) r =
    if bool_decide (filter (λ l, line_key l = Some k) lines = [])
    then r else <[k := v]> r.
Proof.
  revert r. induction lines as [|l lines IH]; intros r; simpl; [done|].
  rewrite read_rewritten_line, IH, filter_cons.
  destruct (decide (line_key l = Some k)) as [Hl|Hl].
  - rewrite (bool_decide_eq_true_2 _ Hl).
    rewrite (bool_decide_eq_false_2 (_ :: _ = [])) by done.
    rewrite insert_insert_eq. by case_bool_decide.
  - by rewrite (bool_decide_eq_false_2 _ Hl).
Qed.

Lemma rewritten_no_lf lines :
  Forall (λ l, LF ∉ l) lines →
  Forall (λ l, LF ∉ l) (map (rewrite_line k v) lines).
Proof.
  destruct key_ok_facts as (_ & _ & Hkl & _).
  destruct value_ok_facts as (_ & _ & Hvl & _).
  intros H. apply Forall_map. eapply Forall_impl; [exact H|].
  intros l Hl. simpl. unfold rewrite_line. case_bool_decide; [|done].
  by apply entry_line_no_lf.
Qed.

(** The lines of the file after [updateEnvFile({k: v})]. *)
Lemma update_single_lines f :
  let lines := split_nl (match f with Some c => c | None => [] end) in
  split_nl (updateEnvFile [(k, v)] f) =
    map (rewrite_line k v) lines
    ++ (if bool_decide (filter (λ l, line_key l = Some k) lines = [])
        then [entry_line k v] else [])
    ++ [[]].
Proof.
  destruct key_ok_facts as (_ & _ & Hkl & _).
  destruct value_ok_facts as (_ & _ & Hvl & _).
  intros lines. unfold updateEnvFile. fold lines.
  rewrite update_fold_single. simpl.
  set (found := filter (λ l, line_key l = Some k) lines).
  unfold append_entry. simpl.
  assert (Hlines : Forall (λ l, LF ∉ l) lines) by apply split_nl_no_lf.
  assert (Hne : lines ≠ []) by apply split_nl_nonempty.
  rewrite split_nl_snoc_lf, app_assoc. f_equal.
  destruct found as [|x found'] eqn:E; simpl.
  - rewrite split_join_nl; [done| |].
    + destruct lines; [done|]. done.
    + apply Forall_app. split; [by apply rewritten_no_lf|].
      repeat constructor. by apply entry_line_no_lf.
  - rewrite bool_decide_eq_true_2 by (apply list_elem_of_here).
    rewrite app_nil_r. rewrite split_join_nl; [done| |].
    + destruct lines; [done|]. done.
    + by apply rewritten_no_lf.
Qed.
End RoundTrip.




(** The file of the witness after the update: the old line is replaced in
    place, the comment is kept, and one more line break is appended. *)
Example update_in_place :
  updateEnvFile [(str "DEFAULT_MODEL", str "model-b")]
    (Some (str "# settings
DEFAULT_MODEL = 'model-a'
")) = str "# settings
DEFAULT_MODEL=model-b

".
Proof. reflexivity. Qed.


(** ** More of env.ts: what a read can return, what an update keeps *)

Lemma read_line_sound keys r line k v :
  read_line keys r line !! k = Some v →
  r !! k = Some v
  ∨ (k ∈ keys ∧ trimmed k = true ∧ k ≠ str "__proto__" ∧ v ≠ []).
Proof.
  unfold read_line.
  destruct (negb (truthy (trim line)) || startsWith [HASH] (trim line)); [by left|].
  destruct (indexOf EQUALS (trim line)) as [i|]; [|by left].
  case_bool_decide as Hin; cbn [negb]; [|by left].
  set (value := if quoted _ then _ else _).
  destruct (truthy value) eqn:Hv; [|by left].
  unfold record_set. case_bool_decide; [by left|].
  destruct (decide (trim (slice 0 i (trim line)) = k)) as [<-|Hne].
  - rewrite lookup_insert_eq. intros [= <-]. right.
    split_and!; [done|apply trimmed_trim|done|by destruct value].
  - rewrite lookup_insert_ne by done. by left.
Qed.

(** X6.  [readEnvFile] only ever returns keys that were asked for, and it
    never returns an empty value, a key with white space around it or the
    key [__proto__]; a missing file gives the empty record. *)
Theorem readEnvFile_sound (keys : list (list N)) (f : option (list N))
    (k v : list N) :
  readEnvFile keys f !! k = Some v →
  k ∈ keys ∧ trimmed k = true ∧ k ≠ str "__proto__" ∧ v ≠ [] ∧ f ≠ None.
Proof.
  destruct f as [content|]; [|cbn; by rewrite lookup_empty].
  unfold readEnvFile.
  assert (Hfold : ∀ lines r,
            fold_left (read_line keys) lines r !! k = Some v →
            r !! k = Some v
            ∨ (k ∈ keys ∧ trimmed k = true ∧ k ≠ str "__proto__" ∧ v ≠ [])).
  { induction lines as [|l lines IH]; intros r H; [by left|].
    cbn [fold_left] in H. apply IH in H as [H|H]; [|by right].
    by apply read_line_sound in H. }
  intros H. apply Hfold in H as [H|(H1 & H2 & H3 & H4)].
  - by rewrite lookup_empty in H.
  - done.
Qed.

Lemma readEnvFile_sound_witness :
  str "MODEL" ∈ [str "MODEL"; str "TOKEN"] ∧ trimmed (str "MODEL") = true
  ∧ str "MODEL" ≠ str "__proto__" ∧ str "opus" ≠ [] ∧ Some (str "TOKEN=
 MODEL = opus ") ≠ None.
Proof.
  apply (readEnvFile_sound [str "MODEL"; str "TOKEN"]
           (Some (str "TOKEN=
 MODEL = opus ")) (str "MODEL") (str "opus")).
  reflexivity.
Defined.

(** What the first loop of [updateEnvFile] does to a line, for any
    updates. *)
Definition rewrite_with (updates : list (list N * list N)) (line : jsstring)
  : jsstring :=
  match line_key line with
  | Some key =>
      match lookup_entry key updates with
      | Some value => entry_line key value
      | None => line
      end
  | None => line
  end.

(** The keys the first loop finds, in file order. *)
Definition found_in (updates : list (list N * list N)) (lines : list (list N))
  : list (list N) :=
  omap (λ line, key ← line_key line;
                if lookup_entry key updates is Some _ then Some key else None)
       lines.

Lemma update_line_any updates nl fk line :
  update_line updates (nl, fk) line
  = (nl ++ [rewrite_with updates line], fk ++ found_in updates [line]).
Proof.
  change (found_in updates [line])
    with (match line_key line ≫= (λ key, if lookup_entry key updates is Some _
                                           then Some key else None)
          with Some key => [key] | None => [] end).
  unfold update_line, rewrite_with, line_key.
  destruct (negb (truthy (trim line)) || startsWith [HASH] (trim line)).
  { cbn. by rewrite app_nil_r. }
  destruct (indexOf EQUALS (trim line)) as [i|]; cbn.
  - destruct (lookup_entry _ updates); cbn; by rewrite ?app_nil_r.
  - by rewrite app_nil_r.
Qed.

Lemma found_in_app updates l1 l2 :
  found_in updates (l1 ++ l2) = found_in updates l1 ++ found_in updates l2.
Proof. apply omap_app. Qed.

Lemma update_fold_any updates lines nl fk :
  fold_left (update_line updates) lines (nl, fk)
  = (nl ++ map (rewrite_with updates) lines, fk ++ found_in updates lines).
Proof.
  revert nl fk. induction lines as [|l lines IH]; intros nl fk; cbn [fold_left map].
  - by rewrite !app_nil_r.
  - rewrite update_line_any, IH, <- !app_assoc. cbn [app].
    by rewrite <- found_in_app.
Qed.

Lemma append_fold fk updates nl :
  fold_left (append_entry fk) updates nl
  = nl ++ map (λ e, entry_line e.1 e.2) (filter (λ e, e.1 ∉ fk) updates).
Proof.
  revert nl. induction updates as [|e updates IH]; intros nl; cbn [fold_left].
  - by rewrite filter_nil, app_nil_r.
  - rewrite IH, filter_cons. unfold append_entry. case_bool_decide as Hin.
    + by rewrite decide_False by (by intros ?).
    + rewrite decide_True by done. cbn. by rewrite <- app_assoc.
Qed.

(** The lines [updateEnvFile] joins, for any updates. *)
Definition updated_lines (updates : list (list N * list N)) (f : option (list N))
  : list (list N) :=
  let lines := split_nl (match f with Some c => c | None => [] end) in
  map (rewrite_with updates) lines
  ++ map (λ e, entry_line e.1 e.2)
       (filter (λ e, e.1 ∉ found_in updates lines) updates).

Lemma updateEnvFile_content updates f :
  updateEnvFile updates f = join_nl (updated_lines updates f) ++ [LF].
Proof.
  unfold updateEnvFile, updated_lines.
  rewrite update_fold_any. cbn [app]. by rewrite append_fold.
Qed.

Lemma lookup_entry_Some key value updates :
  lookup_entry key updates = Some value → (key, value) ∈ updates.
Proof.
  induction updates as [|[k v] updates IH]; [done|]. cbn.
  case_bool_decide as E.
  - intros [= <-]. subst. apply list_elem_of_here.
  - intros H. apply list_elem_of_further. by apply IH.
Qed.

Lemma line_key_no_lf line key :
  LF ∉ line → line_key line = Some key → LF ∉ key.
Proof.
  unfold line_key, slice. intros Hline.
  destruct (negb _ || _); [done|].
  destruct (indexOf EQUALS (trim line)) as [i|]; [|done].
  intros [= <-] Hin. apply Hline.
  apply elem_of_trim, elem_of_take in Hin as (j & Hin & _).
  rewrite drop_0 in Hin. apply list_elem_of_lookup_2 in Hin.
  by apply elem_of_trim.
Qed.

Lemma updated_lines_no_lf updates f :
  Forall (λ e, LF ∉ e.2) updates →
  Forall (λ e, LF ∉ e.1) updates →
  Forall (λ l, LF ∉ l) (updated_lines updates f).
Proof.
  intros Hvals Hkeys. unfold updated_lines. apply Forall_app. split.
  - apply Forall_map. eapply Forall_impl; [apply split_nl_no_lf|].
    intros line Hline. cbn beta. unfold rewrite_with.
    destruct (line_key line) as [key|] eqn:Hkey; [|done].
    destruct (lookup_entry key updates) as [value|] eqn:Hval; [|done].
    apply entry_line_no_lf.
    + exact (line_key_no_lf line key Hline Hkey).
    + apply lookup_entry_Some in Hval.
      rewrite Forall_forall in Hvals. by apply (Hvals (key, value)).
  - apply Forall_map. apply Forall_forall. intros [k v] [_ Hin]%list_elem_of_filter.
    rewrite Forall_forall in Hvals, Hkeys.
    apply entry_line_no_lf; [by apply (Hkeys (k, v))|by apply (Hvals (k, v))].
Qed.

Lemma updated_lines_nonempty updates f : updated_lines updates f ≠ [].
Proof.
  unfold updated_lines.
  pose proof (split_nl_nonempty (match f with Some c => c | None => [] end)).
  by destruct (split_nl _).
Qed.

Lemma updateEnvFile_split updates f :
  Forall (λ e, LF ∉ e.1) updates →
  Forall (λ e, LF ∉ e.2) updates →
  split_nl (updateEnvFile updates f) = updated_lines updates f ++ [[]].
Proof.
  intros Hkeys Hvals. rewrite updateEnvFile_content, split_nl_snoc_lf.
  rewrite split_join_nl; [done|apply updated_lines_nonempty|].
  by apply updated_lines_no_lf.
Qed.

(** For keys and values that UTF-8 can hold, and a file that was read as
    UTF-8, the file reads back as the string that [updateEnvFile] wrote. *)
Lemma written_updateEnvFile updates f :
  Forall (λ e, well_formed e.1 = true ∧ well_formed e.2 = true) updates →
  (∀ c, f = Some c → well_formed c = true) →
  written (updateEnvFile updates f) = Some (updateEnvFile updates f).
Proof.
  intros Hupd Hf. unfold written. f_equal.
  rewrite updateEnvFile_content.
  rewrite utf8_round_trip_sep, utf8_round_trip_join by done.
  cbn [utf8_round_trip]. do 2 f_equal.
  assert (Hall : Forall (λ l, well_formed l = true) (updated_lines updates f)).
  { assert (Hold : Forall (λ l, well_formed l = true)
                     (split_nl (match f with Some c => c | None => [] end))).
    { apply well_formed_lines. destruct f as [c|]; [by apply Hf|done]. }
    rewrite Forall_forall in Hupd.
    unfold updated_lines. apply Forall_app. split.
    - apply Forall_map. eapply Forall_impl; [exact Hold|].
      intros line Hline. cbn beta. unfold rewrite_with.
      destruct (line_key line) as [key|] eqn:Hkey; [|done].
      destruct (lookup_entry key updates) as [value|] eqn:Hval; [|done].
      apply lookup_entry_Some, Hupd in Hval as [Hk Hv].
      unfold entry_line. by apply well_formed_app_sep.
    - apply Forall_map. apply Forall_forall.
      intros [k v] [_ [Hk Hv]%Hupd]%list_elem_of_filter.
      unfold entry_line. by apply well_formed_app_sep. }
  induction Hall as [|l ls Hl _ IH]; [done|]. cbn [map].
  apply bool_decide_eq_true in Hl. by rewrite Hl, IH.
Qed.

(** X7.  For updates whose keys and values are single-line,
    [updateEnvFile] keeps every line that does not define an updated key
    (comments, blank lines, other keys) at its position, unchanged; the new
    file has the old lines, one line for each updated key that the old
    file did not define, and one empty last line more. *)
Theorem updateEnvFile_keeps_other_lines (updates : list (list N * list N))
    (f : option (list N)) :
  Forall (λ e, LF ∉ e.1) updates →
  Forall (λ e, LF ∉ e.2) updates →
  let lines := split_nl (match f with Some c => c | None => [] end) in
  let new_lines := split_nl (updateEnvFile updates f) in
  (∀ i line, lines !! i = Some line →
     (∀ key, line_key line = Some key → lookup_entry key updates = None) →
     new_lines !! i = Some line)
  ∧ length new_lines
    = length lines
      + length (filter (λ e, e.1 ∉ found_in updates lines) updates) + 1
  ∧ last new_lines = Some [].
Proof.
  intros Hkeys Hvals lines new_lines.
  assert (Hsplit : new_lines = updated_lines updates f ++ [[]])
    by by apply updateEnvFile_split.
  rewrite Hsplit. split_and!.
  - intros i line Hi Hother. unfold updated_lines. fold lines.
    rewrite <- app_assoc, lookup_app_l.
    2:{ rewrite length_map. by eapply lookup_lt_Some. }
    rewrite list_lookup_fmap, Hi. cbn. f_equal. unfold rewrite_with.
    destruct (line_key line) as [key|]; [|done]. by rewrite (Hother key).
  - unfold updated_lines. fold lines. rewrite !length_app, !length_map. cbn. lia.
  - by rewrite last_snoc.
Qed.

Lemma updateEnvFile_keeps_other_lines_witness :
  split_nl (updateEnvFile [(str "B", str "2")] (Some (str "# c
A=1"))) !! 0 = Some (str "# c")
  ∧ length (split_nl (updateEnvFile [(str "B", str "2")] (Some (str "# c
A=1")))) = 4.
Proof.
  destruct (updateEnvFile_keeps_other_lines [(str "B", str "2")]
              (Some (str "# c
A=1"))) as (H1 & H2 & _).
  - repeat constructor. cbn. apply (bool_decide_eq_false_1 (LF ∈ str "B")). reflexivity.
  - repeat constructor. cbn. apply (bool_decide_eq_false_1 (LF ∈ str "2")). reflexivity.
  - split.
    + apply (H1 0 (str "# c")); [reflexivity|]. intros key Hkey. discriminate Hkey.
    + rewrite H2. reflexivity.
Defined.

(** ** What a read returns after any update *)

(** The value [readEnvFile] stores for the text after [=]: trimmed, and
    without one pair of matching quotes. *)
Definition stored_value (w : jsstring) : jsstring :=
  let value := trim w in
  if quoted value then slice_1_m1 value else value.

(** [if (value) result[key] = value], for a key other than [__proto__]. *)
Definition store (k w : jsstring) (r : gmap (list N) (list N))
  : gmap (list N) (list N) :=
  if truthy (stored_value w) then <[k := stored_value w]> r else r.

Lemma store_store k w r : store k w (store k w r) = store k w r.
Proof. unfold store. destruct (truthy _); [apply insert_insert_eq|done]. Qed.

Lemma trim_entry k w :
  head_ok k = true → trim (entry_line k w) = k ++ EQUALS :: trimEnd w.
Proof.
  intros Hk. unfold trim. rewrite trimStart_id by (by apply head_ok_app_entry).
  unfold entry_line. by apply trimEnd_app_nonws.
Qed.

Lemma entry_line_parts k w :
  key_ok k = true →
  truthy (trim (entry_line k w)) = true
  ∧ startsWith [HASH] (trim (entry_line k w)) = false
  ∧ indexOf EQUALS (trim (entry_line k w)) = Some (length k)
  ∧ trim (slice 0 (length k) (trim (entry_line k w))) = k
  ∧ trim (slice_from (length k + 1) (trim (entry_line k w))) = trim w.
Proof.
  intros Hk. destruct (key_ok_facts k Hk) as (Hkt & Hke & Hkl & Hkh & Hkp).
  assert (Hh : head_ok k = true).
  { unfold trimmed in Hkt. by apply andb_prop in Hkt as [? _]. }
  rewrite trim_entry by done. split_and!.
  - by destruct k.
  - destruct k as [|c k']; [done|exact Hkh].
  - by apply indexOf_app_fresh.
  - unfold slice. rewrite Nat.sub_0_r, drop_0, take_app_length. by apply trim_id.
  - unfold slice_from. replace (length k + 1) with (S (length k)) by lia.
    change (k ++ EQUALS :: trimEnd w) with (k ++ [EQUALS] ++ trimEnd w).
    rewrite app_assoc, drop_app_length' by (rewrite length_app; simpl; lia).
    apply trim_trimEnd.
Qed.

(** The line written for a key defines that key, whatever the value. *)
Lemma line_key_entry k w : key_ok k = true → line_key (entry_line k w) = Some k.
Proof.
  intros Hk. destruct (entry_line_parts k w Hk) as (H1 & H2 & H3 & H4 & _).
  unfold line_key. cbv zeta. by rewrite H1, H2, H3, H4.
Qed.

Lemma read_entry_line_any k w r :
  key_ok k = true → read_line [k] r (entry_line k w) = store k w r.
Proof.
  intros Hk. destruct (entry_line_parts k w Hk) as (H1 & H2 & H3 & H4 & H5).
  destruct (key_ok_facts k Hk) as (_ & _ & _ & _ & Hkp).
  unfold read_line. cbv zeta. rewrite H1, H2, H3, H4, H5. cbn [negb orb].
  rewrite bool_decide_eq_true_2 by apply list_elem_of_here. cbn [negb].
  unfold store, stored_value. cbv zeta. destruct (truthy _); [|done].
  unfold record_set. by rewrite bool_decide_eq_false_2.
Qed.

Lemma lookup_entry_elem updates k w :
  NoDup updates.*1 → (k, w) ∈ updates → lookup_entry k updates = Some w.
Proof.
  induction updates as [|[k' v'] updates IH]; intros Hnd Hin.
  - by apply elem_of_nil in Hin.
  - cbn in Hnd. apply NoDup_cons in Hnd as [Hni Hnd].
    cbn. apply elem_of_cons in Hin as [Heq|Hin].
    + injection Heq as -> ->. by rewrite bool_decide_eq_true_2.
    + rewrite bool_decide_eq_false_2; [by apply IH|].
      intros ->. apply Hni. apply list_elem_of_fmap. by exists (k, w).
Qed.

Lemma lookup_entry_key_ok updates key value :
  Forall (λ e, key_ok e.1 = true) updates →
  lookup_entry key updates = Some value → key_ok key = true.
Proof.
  intros Hkeys Hl%lookup_entry_Some.
  rewrite Forall_forall in Hkeys. by apply (Hkeys (key, value)).
Qed.

Lemma found_in_single updates line :
  found_in updates [line]
  = match line_key line ≫= (λ key, if lookup_entry key updates is Some _
                                    then Some key else None)
    with Some key => [key] | None => [] end.
Proof. reflexivity. Qed.

Lemma found_in_cons updates line lines :
  found_in updates (line :: lines)
  = found_in updates [line] ++ found_in updates lines.
Proof. apply (found_in_app updates [line] lines). Qed.

Section Updates.
Variable updates : list (list N * list N).
Hypothesis Hkeys : Forall (λ e, key_ok e.1 = true) updates.
Hypothesis Hvals : Forall (λ e, LF ∉ e.2) updates.
Hypothesis Hnodup : NoDup updates.*1.

Lemma keys_no_lf : Forall (λ e, LF ∉ e.1) updates.
Proof.
  eapply Forall_impl; [exact Hkeys|]. intros e He.
  by destruct (key_ok_facts _ He) as (_ & _ & ? & _).
Qed.

Lemma rewrite_with_key line :
  line_key (rewrite_with updates line) = line_key line.
Proof.
  unfold rewrite_with.
  destruct (line_key line) as [key|] eqn:Hkey; [|done].
  destruct (lookup_entry key updates) as [value|] eqn:Hl; [|done].
  apply line_key_entry. by eapply lookup_entry_key_ok.
Qed.

Lemma rewrite_with_idem line :
  rewrite_with updates (rewrite_with updates line) = rewrite_with updates line.
Proof.
  unfold rewrite_with at 1. rewrite rewrite_with_key.
  destruct (line_key line) as [key|] eqn:Hkey; [|done].
  destruct (lookup_entry key updates) as [value|] eqn:Hl; [|done].
  unfold rewrite_with. by rewrite Hkey, Hl.
Qed.

Lemma rewrite_with_entry k w :
  (k, w) ∈ updates → rewrite_with updates (entry_line k w) = entry_line k w.
Proof.
  intros Hin. unfold rewrite_with.
  rewrite line_key_entry.
  - by rewrite (lookup_entry_elem updates k w).
  - rewrite Forall_forall in Hkeys. by apply (Hkeys (k, w)).
Qed.

Lemma found_in_rewritten lines :
  found_in updates (map (rewrite_with updates) lines) = found_in updates lines.
Proof.
  induction lines as [|l lines IH]; [done|]. cbn [map].
  rewrite (found_in_cons updates l), found_in_cons, IH. f_equal.
  by rewrite !found_in_single, rewrite_with_key.
Qed.

Lemma found_in_entries es :
  es ⊆ updates →
  found_in updates (map (λ e, entry_line e.1 e.2) es) = es.*1.
Proof.
  induction es as [|[k w] es IH]; [done|]. intros Hsub. cbn [map fmap list_fmap].
  assert (Hin : (k, w) ∈ updates) by apply Hsub, list_elem_of_here.
  rewrite found_in_cons, IH.
  2:{ intros e He. by apply Hsub, list_elem_of_further. }
  rewrite found_in_single. cbn [fst snd]. rewrite line_key_entry.
  - cbn. by rewrite (lookup_entry_elem updates k w).
  - rewrite Forall_forall in Hkeys. by apply (Hkeys (k, w)).
Qed.

(** A line of the new file as a read for [k] sees it. *)
Lemma read_rewritten k w line r :
  lookup_entry k updates = Some w →
  read_line [k] r (rewrite_with updates line)
  = if bool_decide (k ∈ found_in updates [line]) then store k w r else r.
Proof.
  intros Hw. rewrite found_in_single. unfold rewrite_with.
  destruct (line_key line) as [key|] eqn:Hkey; cbn.
  - destruct (lookup_entry key updates) as [value|] eqn:Hl.
    + destruct (decide (key = k)) as [->|Hne].
      * assert (value = w) as -> by congruence.
        rewrite bool_decide_eq_true_2 by apply list_elem_of_here.
        apply read_entry_line_any. by eapply lookup_entry_key_ok.
      * rewrite bool_decide_eq_false_2.
        2:{ intros H%list_elem_of_singleton. congruence. }
        apply read_other_line. rewrite line_key_entry; [congruence|].
        by eapply lookup_entry_key_ok.
    + rewrite bool_decide_eq_false_2 by apply not_elem_of_nil.
      apply read_other_line. rewrite Hkey. intros [= ->]. congruence.
  - rewrite bool_decide_eq_false_2 by apply not_elem_of_nil.
    apply read_other_line. by rewrite Hkey.
Qed.

Lemma read_rewritten_lines k w lines r :
  lookup_entry k updates = Some w →
  fold_left (read_line [k]) (map (rewrite_with updates) lines) r
  = if bool_decide (k ∈ found_in updates lines) then store k w r else r.
Proof.
  intros Hw. revert r. induction lines as [|l lines IH]; intros r.
  { cbn. by rewrite bool_decide_eq_false_2 by apply not_elem_of_nil. }
  cbn [map fold_left]. rewrite IH, (read_rewritten k w) by done.
  rewrite (found_in_cons updates l lines).
  destruct (decide (k ∈ found_in updates [l])) as [H1|H1];
    destruct (decide (k ∈ found_in updates lines)) as [H2|H2];
    rewrite ?(bool_decide_eq_true_2 _ H1), ?(bool_decide_eq_false_2 _ H1),
      ?(bool_decide_eq_true_2 _ H2), ?(bool_decide_eq_false_2 _ H2).
  - rewrite bool_decide_eq_true_2 by (apply elem_of_app; by left).
    apply store_store.
  - by rewrite bool_decide_eq_true_2 by (apply elem_of_app; by left).
  - by rewrite bool_decide_eq_true_2 by (apply elem_of_app; by right).
  - rewrite bool_decide_eq_false_2; [done|]. by intros [?|?]%elem_of_app.
Qed.

Lemma read_entries k w es r :
  es ⊆ updates → lookup_entry k updates = Some w →
  fold_left (read_line [k]) (map (λ e, entry_line e.1 e.2) es) r
  = if bool_decide (k ∈ es.*1) then store k w r else r.
Proof.
  intros Hsub Hw. revert r. induction es as [|[k' w'] es IH]; intros r.
  { cbn. by rewrite bool_decide_eq_false_2 by apply not_elem_of_nil. }
  assert (Hin : (k', w') ∈ updates) by apply Hsub, list_elem_of_here.
  assert (Hk' : key_ok k' = true).
  { rewrite Forall_forall in Hkeys. by apply (Hkeys (k', w')). }
  cbn [map fold_left fmap list_fmap fst snd]. rewrite IH.
  2:{ intros e He. by apply Hsub, list_elem_of_further. }
  destruct (decide (k' = k)) as [->|Hne].
  - assert (w' = w) as ->.
    { apply (lookup_entry_elem updates k w') in Hin; [congruence|done]. }
    rewrite read_entry_line_any by done.
    rewrite (bool_decide_eq_true_2 (k ∈ k :: _)) by apply list_elem_of_here.
    case_bool_decide; [apply store_store|done].
  - rewrite read_other_line by (rewrite line_key_entry by done; congruence).
    destruct (decide (k ∈ es.*1)) as [H|H].
    + rewrite (bool_decide_eq_true_2 _ H).
      by rewrite bool_decide_eq_true_2 by by apply list_elem_of_further.
    + rewrite (bool_decide_eq_false_2 _ H).
      rewrite bool_decide_eq_false_2; [done|].
      intros [?|?]%elem_of_cons; [congruence|done].
Qed.

Lemma filter_none {A} (P : A → Prop) `{∀ x, Decision (P x)} (l : list A) :
  (∀ x, x ∈ l → ¬ P x) → filter P l = [].
Proof.
  induction l as [|x l IH]; [done|]. intros Hall.
  rewrite filter_cons, decide_False by apply Hall, list_elem_of_here.
  apply IH. intros y Hy. by apply Hall, list_elem_of_further.
Qed.

(** The lines of the file after the same update has been applied again. *)
Lemma updated_lines_again f :
  updated_lines updates (Some (updateEnvFile updates f))
  = updated_lines updates f ++ [[]].
Proof.
  unfold updated_lines at 1. cbv zeta.
  rewrite updateEnvFile_split by (done || apply keys_no_lf).
  set (lines := split_nl (match f with Some c => c | None => [] end)).
  set (es := filter (λ e, e.1 ∉ found_in updates lines) updates).
  assert (Hes : es ⊆ updates) by (intros e [_ He]%list_elem_of_filter; done).
  assert (HUL : updated_lines updates f
                = map (rewrite_with updates) lines
                  ++ map (λ e, entry_line e.1 e.2) es) by done.
  assert (Hfound : found_in updates (updated_lines updates f ++ [[]])
                   = found_in updates lines ++ es.*1).
  { rewrite found_in_app, HUL, found_in_app, found_in_rewritten.
    rewrite found_in_entries by done. cbn. by rewrite app_nil_r. }
  rewrite Hfound, filter_none.
  2:{ intros e He Hnot. apply Hnot.
      destruct (decide (e.1 ∈ found_in updates lines)) as [Hf|Hf].
      - apply elem_of_app. by left.
      - apply elem_of_app. right. apply list_elem_of_fmap. exists e.
        split; [done|]. by apply list_elem_of_filter. }
  cbn [map]. rewrite app_nil_r, map_app. cbn [map]. f_equal.
  rewrite HUL, map_app, map_map. f_equal.
  - apply map_ext. intros line. apply rewrite_with_idem.
  - rewrite map_map. apply map_ext_in. intros [k w] Hin%list_elem_of_In.
    apply rewrite_with_entry. by apply Hes.
Qed.
End Updates.

(** Reading the string of an update, for any keys the parser can find
    again. *)
Lemma read_updated_string (updates : list (list N * list N))
    (f : option (list N)) (k w : list N) :
  Forall (λ e, key_ok e.1 = true) updates →
  Forall (λ e, LF ∉ e.2) updates →
  NoDup updates.*1 →
  (k, w) ∈ updates →
  readEnvFile [k] (Some (updateEnvFile updates f))
  = (if truthy (stored_value w) then {[ k := stored_value w ]} else ∅)
  ∧ ∀ q v, q = DQUOTE ∨ q = SQUOTE → w = q :: v ++ [q] → stored_value w = v.
Proof.
  intros Hkeys Hvals Hnodup Hin. split.
  - assert (Hw : lookup_entry k updates = Some w) by by apply lookup_entry_elem.
    unfold readEnvFile.
    rewrite updateEnvFile_split by (done || by apply keys_no_lf).
    unfold updated_lines. cbv zeta.
    set (lines := split_nl (match f with Some c => c | None => [] end)).
    set (es := filter (λ e, e.1 ∉ found_in updates lines) updates).
    assert (Hes : es ⊆ updates) by (intros e [_ He]%list_elem_of_filter; done).
    rewrite !fold_left_app.
    rewrite (read_rewritten_lines updates Hkeys k w) by done.
    rewrite (read_entries updates Hkeys Hnodup k w) by done.
    cbn [fold_left].
    assert (Hlast : ∀ r, read_line [k] r [] = r) by done.
    rewrite Hlast.
    assert (Hstore : store k w ∅
                     = if truthy (stored_value w)
                       then {[ k := stored_value w ]} else ∅).
    { unfold store. destruct (truthy _); [apply insert_empty|done]. }
    rewrite <- Hstore.
    destruct (decide (k ∈ found_in updates lines)) as [Hf|Hf].
    + rewrite (bool_decide_eq_true_2 _ Hf).
      rewrite bool_decide_eq_false_2; [done|].
      intros ([k' w'] & -> & [Hnot _]%list_elem_of_filter)%list_elem_of_fmap.
      by apply Hnot.
    + rewrite (bool_decide_eq_false_2 _ Hf).
      rewrite bool_decide_eq_true_2; [done|].
      apply list_elem_of_fmap. exists (k, w). split; [done|].
      by apply list_elem_of_filter.
  - intros q v Hq ->. unfold stored_value. cbv zeta.
    assert (Hws : is_ws q = false) by (by destruct Hq as [-> | ->]).
    assert (Htrim : trim (q :: v ++ [q]) = q :: v ++ [q]).
    { apply trim_id. unfold trimmed. cbn [head_ok rev]. rewrite Hws.
      rewrite rev_app_distr. cbn. by rewrite Hws. }
    rewrite Htrim.
    assert (Hquoted : quoted (q :: v ++ [q]) = true).
    { unfold quoted, endsWith. cbn [rev]. rewrite rev_app_distr. cbn [rev app].
      destruct Hq as [-> | ->]; reflexivity. }
    rewrite Hquoted. unfold slice_1_m1, slice. cbn [length drop].
    rewrite length_app. cbn [length].
    replace (S (length v + 1) - 1 - 1) with (length v) by lia.
    by rewrite drop_0, take_app_length.
Qed.

(** X8.  What a read returns after any update.  When the keys of the update
    are keys the parser can find again, its values are single-line, and
    keys and values are strings that the UTF-8 file can hold (no surrogate
    outside a pair), the file reads back as the string that was written,
    and reading a key of the update from it gives the text that was
    written for it, trimmed and without one pair of matching quotes, or no
    entry at all when nothing is left of it; this holds whether or not the
    file existed or mentioned the key before, and whatever the other keys
    are.  In particular a single-line value wrapped in two double or two
    single quotes is stored exactly, blanks included.  The old content is
    what a UTF-8 read returned, which never holds a lone surrogate. *)
Theorem read_after_update (updates : list (list N * list N))
    (f : option (list N)) (k w : list N) :
  Forall (λ e, key_ok e.1 = true) updates →
  Forall (λ e, LF ∉ e.2) updates →
  NoDup updates.*1 →
  Forall (λ e, well_formed e.1 = true ∧ well_formed e.2 = true) updates →
  (∀ c, f = Some c → well_formed c = true) →
  (k, w) ∈ updates →
  readEnvFile [k] (written (updateEnvFile updates f))
  = (if truthy (stored_value w) then {[ k := stored_value w ]} else ∅)
  ∧ written (updateEnvFile updates f) = Some (updateEnvFile updates f)
  ∧ ∀ q v, q = DQUOTE ∨ q = SQUOTE → w = q :: v ++ [q] → stored_value w = v.
Proof.
  intros Hkeys Hvals Hnodup Hwf Hf Hin.
  rewrite written_updateEnvFile by done.
  destruct (read_updated_string updates f k w Hkeys Hvals Hnodup Hin) as [H1 H2].
  done.
Qed.

Lemma read_after_update_witness :
  readEnvFile [str "B"]
    (written (updateEnvFile [(str "A", str "1"); (str "B", str " 'x y ' ")]
                (Some (str "B=old
# c"))))
  = {[ str "B" := str "x y " ]}.
Proof.
  destruct (read_after_update
              [(str "A", str "1"); (str "B", str " 'x y ' ")]
              (Some (str "B=old
# c")) (str "B") (str " 'x y ' ")) as [H _].
  - repeat constructor.
  - repeat constructor; cbn.
    + apply (bool_decide_eq_false_1 (LF ∈ str "1")). reflexivity.
    + apply (bool_decide_eq_false_1 (LF ∈ str " 'x y ' ")). reflexivity.
  - apply (bool_decide_eq_true_1 (NoDup [str "A"; str "B"])). reflexivity.
  - repeat constructor.
  - by intros c [= <-].
  - apply list_elem_of_further, list_elem_of_here.
  - exact H.
Defined.

(** X9.  Applying the same update a second time changes nothing but the
    end of the file: every run of [updateEnvFile] appends one more line
    break, so the file grows by one empty line per update. *)
Theorem repeated_update_appends_line_break (updates : list (list N * list N))
    (f : option (list N)) :
  Forall (λ e, key_ok e.1 = true) updates →
  Forall (λ e, LF ∉ e.2) updates →
  NoDup updates.*1 →
  updateEnvFile updates (Some (updateEnvFile updates f))
  = updateEnvFile updates f ++ [LF].
Proof.
  intros Hkeys Hvals Hnodup.
  rewrite (updateEnvFile_content updates (Some _)).
  rewrite updated_lines_again by done.
  rewrite join_nl_snoc_empty by apply updated_lines_nonempty.
  by rewrite <- updateEnvFile_content.
Qed.

Lemma repeated_update_appends_line_break_witness :
  updateEnvFile [(str "A", str "1")]
    (Some (updateEnvFile [(str "A", str "1")] (Some (str "A=0"))))
  = str "A=1

".
Proof.
  rewrite (repeated_update_appends_line_break [(str "A", str "1")]
             (Some (str "A=0"))).
  - reflexivity.
  - repeat constructor.
  - repeat constructor. cbn.
    apply (bool_decide_eq_false_1 (LF ∈ str "1")). reflexivity.
  - apply (bool_decide_eq_true_1 (NoDup [str "A"])). reflexivity.
Defined.

(** ** One key at a time *)

Lemma read_line_by_key keys k r r' line :
  k ∈ keys → r !! k = r' !! k →
  read_line keys r line !! k = read_line [k] r' line !! k.
Proof.
  intros Hin Hr. unfold read_line. cbv zeta.
  destruct (negb (truthy (trim line)) || startsWith [HASH] (trim line)); [done|].
  destruct (indexOf EQUALS (trim line)) as [i|]; [|done].
  set (key := trim (slice 0 i (trim line))).
  set (value := if quoted _ then _ else _).
  destruct (decide (key = k)) as [->|Hne].
  - rewrite !bool_decide_eq_true_2 by (done || apply list_elem_of_here).
    cbn [negb]. destruct (truthy value); [|done].
    unfold record_set. case_bool_decide; [done|].
    by rewrite !lookup_insert_eq.
  - rewrite (bool_decide_eq_false_2 (key ∈ [k])).
    2:{ by intros ?%list_elem_of_singleton. }
    cbn [negb]. destruct (negb (bool_decide (key ∈ keys))); [done|].
    destruct (truthy value); [|done].
    unfold record_set. case_bool_decide; [done|].
    by rewrite lookup_insert_ne.
Qed.

Lemma read_fold_by_key keys k lines r r' :
  k ∈ keys → r !! k = r' !! k →
  fold_left (read_line keys) lines r !! k
  = fold_left (read_line [k]) lines r' !! k.
Proof.
  intros Hin. revert r r'. induction lines as [|l lines IH]; intros r r' Hr; [done|].
  cbn [fold_left]. apply IH. by apply read_line_by_key.
Qed.

Lemma read_one_of keys f k :
  k ∈ keys → readEnvFile keys f !! k = readEnvFile [k] f !! k.
Proof.
  intros Hin. destruct f as [content|]; [|done]. unfold readEnvFile.
  by apply read_fold_by_key.
Qed.

(** X21.  What [readEnvFile] returns for a key does not depend on the
    other keys requested with it: the entry for a requested key is the
    entry a read of that key alone returns. *)
Theorem readEnvFile_by_key (keys : list (list N)) (f : option (list N))
    (k : list N) :
  k ∈ keys → readEnvFile keys f !! k = readEnvFile [k] f !! k.
Proof.
  intros Hin. destruct f as [content|]; [|done]. unfold readEnvFile.
  by apply read_fold_by_key.
Qed.

Lemma readEnvFile_by_key_witness :
  readEnvFile [str "A"; str "B"] (Some (str "A=1
B=2")) !! str "B"
  = readEnvFile [str "B"] (Some (str "A=1
B=2")) !! str "B".
Proof.
  apply (readEnvFile_by_key [str "A"; str "B"]).
  apply list_elem_of_further, list_elem_of_here.
Defined.

Lemma lookup_entry_None updates k :
  k ∉ updates.*1 → lookup_entry k updates = None.
Proof.
  induction updates as [|[k' v'] updates IH]; [done|]. intros Hk. cbn.
  rewrite bool_decide_eq_false_2.
  - apply IH. intros ?. by apply Hk, list_elem_of_further.
  - intros ->. apply Hk, list_elem_of_here.
Qed.

Lemma read_rewritten_other updates k line r :
  Forall (λ e, key_ok e.1 = true) updates →
  lookup_entry k updates = None →
  read_line [k] r (rewrite_with updates line) = read_line [k] r line.
Proof.
  intros Hkeys Hk. unfold rewrite_with.
  destruct (line_key line) as [key|] eqn:Hkey; [|done].
  destruct (lookup_entry key updates) as [value|] eqn:Hl; [|done].
  assert (Hne : key ≠ k) by congruence.
  rewrite !read_other_line; [done| |].
  - rewrite Hkey. congruence.
  - rewrite line_key_entry; [congruence|]. by eapply lookup_entry_key_ok.
Qed.

Lemma read_entries_other updates k es r :
  Forall (λ e, key_ok e.1 = true) updates → k ∉ updates.*1 → es ⊆ updates →
  fold_left (read_line [k]) (map (λ e, entry_line e.1 e.2) es) r = r.
Proof.
  intros Hkeys Hk. revert r. induction es as [|[k' w'] es IH]; intros r Hsub; [done|].
  cbn [map fold_left fst snd].
  assert (Hin : (k', w') ∈ updates) by apply Hsub, list_elem_of_here.
  rewrite read_other_line.
  - apply IH. intros e He. by apply Hsub, list_elem_of_further.
  - rewrite line_key_entry.
    + intros [= ->]. apply Hk. apply list_elem_of_fmap. by exists (k, w').
    + rewrite Forall_forall in Hkeys. by apply (Hkeys (k', w')).
Qed.

Lemma read_rewritten_others updates k lines r :
  Forall (λ e, key_ok e.1 = true) updates →
  lookup_entry k updates = None →
  fold_left (read_line [k]) (map (rewrite_with updates) lines) r
  = fold_left (read_line [k]) lines r.
Proof.
  intros Hkeys Hk. revert r. induction lines as [|l lines IH]; intros r; [done|].
  cbn [map fold_left]. by rewrite read_rewritten_other, IH.
Qed.

Lemma read_other_key updates f k :
  Forall (λ e, key_ok e.1 = true) updates →
  Forall (λ e, LF ∉ e.2) updates →
  k ∉ updates.*1 →
  readEnvFile [k] (Some (updateEnvFile updates f)) = readEnvFile [k] f.
Proof.
  intros Hkeys Hvals Hk.
  assert (Hnone : lookup_entry k updates = None) by by apply lookup_entry_None.
  unfold readEnvFile at 1.
  rewrite updateEnvFile_split by (done || by apply keys_no_lf).
  unfold updated_lines. cbv zeta.
  rewrite !fold_left_app. cbn [fold_left].
  assert (Hlast : ∀ r, read_line [k] r [] = r) by done.
  rewrite Hlast, (read_entries_other updates), read_rewritten_others; try done.
  - by destruct f.
  - by intros e [_ He]%list_elem_of_filter.
Qed.

(** X22.  An update leaves the other keys alone: for a key that is not
    among the updated ones, a read after [updateEnvFile] returns what a
    read before it returned, whether or not the file existed. *)
Theorem update_leaves_other_keys (updates : list (list N * list N))
    (f : option (list N)) (k : list N) :
  Forall (λ e, key_ok e.1 = true) updates →
  Forall (λ e, LF ∉ e.2) updates →
  k ∉ updates.*1 →
  readEnvFile [k] (Some (updateEnvFile updates f)) = readEnvFile [k] f.
Proof. apply read_other_key. Qed.

(** Reading back a single update, from the lines of the new file. *)
Lemma read_single_update k v f :
  key_ok k = true → value_ok v = true →
  readEnvFile [k] (Some (updateEnvFile [(k, v)] f)) = {[ k := v ]}.
Proof.
  intros Hk Hv. unfold readEnvFile. rewrite update_single_lines by done.
  rewrite !fold_left_app, read_rewritten_fold by done. simpl.
  case_bool_decide; simpl; [by rewrite read_entry_line|done].
Qed.

Lemma update_leaves_other_keys_witness :
  readEnvFile [str "B"] (Some (updateEnvFile [(str "A", str "1")]
                                 (Some (str "A=0
B = two"))))
  = {[ str "B" := str "two" ]}.
Proof.
  rewrite (update_leaves_other_keys [(str "A", str "1")]).
  - reflexivity.
  - repeat constructor.
  - repeat constructor. cbn.
    apply (bool_decide_eq_false_1 (LF ∈ str "1")). reflexivity.
  - apply (bool_decide_eq_false_1 (str "B" ∈ [str "A"])). reflexivity.
Defined.

End Env.

(* ===================================================================== *)
(** * Shared data types (types.ts, as used by the sources) *)
(* ===================================================================== *)

Module Types.

Record NewMessage := mkNewMessage {
  id : list N;
  chat_jid : list N;
  sender : list N;
  sender_name : list N;
  content : list N;
  timestamp : list N;
  is_from_me : option bool;
  is_bot_message : option bool
}.

Record RegisteredGroup := mkRegisteredGroup {
  name : list N;
  folder : list N;
  trigger : list N;
  added_at : list N
}.

#[export] Instance NewMessage_eq_dec : EqDecision NewMessage.
Proof. solve_decision. Defined.

#[export] Instance RegisteredGroup_eq_dec : EqDecision RegisteredGroup.
Proof. solve_decision. Defined.

(** What a function does when it stops: it returns or it throws. *)
Inductive completion := Normal | Throws.

End Types.

(* ===================================================================== *)
(** * channels/telegram.ts: TelegramChannel.sendMessage *)
(* ===================================================================== *)

Module Telegram.
Import JS Types.

(** [this.bot.botInfo] *)
Record BotInfo := mkBotInfo {
  bot_id : N;
  bot_username : option (list N)
}.

(** The fields of a [TelegramChannel] that [sendMessage] reads: [this.bot]
    ([null] before [connect] and after [disconnect]) and whether
    [this.onOutgoingMessage] is defined. *)
Record Channel := mkChannel {
  bot : option BotInfo;
  onOutgoingMessage : bool
}.

Inductive Event :=
| LogWarnNotInitialized
| ApiSendMessage (chat_id text : list N)
| OutgoingMessage (jid : list N) (msg : NewMessage)
| LogInfoSent (jid : list N) (len : nat)
| LogErrorSend (jid : list N).

Definition MAX_LENGTH : nat := 4096.

(** [jid.replace(/^tg:/, '')] *)
Definition numeric_id (jid : jsstring) : jsstring :=
  if startsWith (str "tg:") jid then drop 3 jid else jid.

(** [this.bot.botInfo.username || 'Bot'] *)
Definition display_name (info : BotInfo) : jsstring :=
  match bot_username info with
  | Some u => if truthy u then u else str "Bot"
  | None => str "Bot"
  end.

(** The texts handed to the Bot API, in call order. *)
Definition api_texts (tr : list Event) : list (list N) :=
  omap (λ e, match e with ApiSendMessage _ t => Some t | _ => None end) tr.

(** The messages handed to [onOutgoingMessage], in call order. *)
Definition outgoing (tr : list Event) : list (list N * NewMessage) :=
  omap (λ e, match e with OutgoingMessage j m => Some (j, m) | _ => None end) tr.

Section SendMessage.
(** [new Date().toISOString()] at the time of the call. *)
Variable now : list N.
(** The Bot API: the outcome of the [n]-th [sendMessage] request of this
    call, [Some message_id] when it resolves and [None] when it throws. *)
Variable api : nat → list N → list N → option N.

Definition outgoing_message (info : BotInfo) (jid : jsstring) (message_id : N)
    (text : jsstring) : NewMessage :=
  {| id := toString message_id;
     chat_jid := jid;
     sender := toString (bot_id info);
     sender_name := display_name info;
     content := text;
     timestamp := now;
     is_from_me := Some true;
     is_bot_message := Some true |}.

(** [this.onOutgoingMessage?.(jid, msg)] *)
Definition notify (ch : Channel) (jid : jsstring) (msg : NewMessage)
    (tr : list Event) : list Event :=
  if onOutgoingMessage ch then tr ++ [OutgoingMessage jid msg] else tr.

(** [for (let i = 0; i < text.length; i += MAX_LENGTH)], from index [i]
    with [calls] requests already made.  [None] only when the fuel runs
    out. *)
Fixpoint send_chunks (ch : Channel) (info : BotInfo) (jid text : jsstring)
    (fuel i calls : nat) (tr : list Event) : option (completion * list Event) :=
  match fuel with
  | 0 => None
  | S fuel' =>
      if i <? length text then
        let chunk := slice i (i + MAX_LENGTH) text in
        let tr := tr ++ [ApiSendMessage (numeric_id jid) chunk] in
        match api calls (numeric_id jid) chunk with
        | None => Some (Throws, tr)
        | Some message_id =>
            let tr :=
              if i =? 0
              then notify ch jid (outgoing_message info jid message_id text) tr
              else tr in
            send_chunks ch info jid text fuel' (i + MAX_LENGTH) (S calls) tr
        end
      else Some (Normal, tr)
  end.

(** [sendMessage(jid, text)]: the effects of the call, in order. *)
Definition sendMessage (ch : Channel) (jid text : jsstring)
  : option (list Event) :=
  match bot ch with
  | None => Some [LogWarnNotInitialized]
  | Some info =>
      let body :=
        if length text <=? MAX_LENGTH then
          let tr := [ApiSendMessage (numeric_id jid) text] in
          match api 0 (numeric_id jid) text with
          | None => Some (Throws, tr)
          | Some message_id =>
              Some (Normal,
                    notify ch jid (outgoing_message info jid message_id text) tr)
          end
        else send_chunks ch info jid text (S (length text)) 0 0 [] in
      match body with
      | None => None
      | Some (Normal, tr) => Some (tr ++ [LogInfoSent jid (length text)])
      | Some (Throws, tr) => Some (tr ++ [LogErrorSend jid])
      end
  end.

Lemma MAX_LENGTH_pos : 0 < MAX_LENGTH.
Proof. unfold MAX_LENGTH. lia. Qed.

Lemma slice_chunk (text : list N) i :
  slice i (i + MAX_LENGTH) text = take MAX_LENGTH (drop i text).
Proof. unfold slice. f_equal. lia. Qed.

Lemma api_texts_app tr1 tr2 : api_texts (tr1 ++ tr2) = api_texts tr1 ++ api_texts tr2.
Proof. apply omap_app. Qed.

Lemma outgoing_app tr1 tr2 : outgoing (tr1 ++ tr2) = outgoing tr1 ++ outgoing tr2.
Proof. apply omap_app. Qed.

Opaque MAX_LENGTH.

(** Whatever the Bot API does, the loop ends before the fuel does. *)
Lemma send_chunks_total ch info jid text fuel i calls tr :
  length text - i < fuel →
  is_Some (send_chunks ch info jid text fuel i calls tr).
Proof.
  pose proof MAX_LENGTH_pos as Hmax.
  revert i calls tr. induction fuel as [|fuel IH]; intros i calls tr Hfuel; [lia|].
  cbn [send_chunks]. destruct (Nat.ltb_spec i (length text)) as [Hi|Hi]; [|done].
  destruct (api calls (numeric_id jid) (slice i (i + MAX_LENGTH) text)); [|done].
  apply IH. lia.
Qed.

Lemma sendMessage_total ch jid text : is_Some (sendMessage ch jid text).
Proof.
  unfold sendMessage. destruct (bot ch) as [info|]; [|done].
  destruct (length text <=? MAX_LENGTH).
  - by destruct (api 0 (numeric_id jid) text).
  - destruct (send_chunks_total ch info jid text (S (length text)) 0 0 [])
      as [[[|] tr] ->]; [lia|done|done].
Qed.

Section AllRequestsResolve.
Variables (ch : Channel) (info : BotInfo) (jid text : list N).
Hypothesis Hhandler : onOutgoingMessage ch = true.
Hypothesis Hapi : ∀ n c t, is_Some (api n c t).

End AllRequestsResolve.
End SendMessage.


(** A connected bot whose requests all resolve, numbering its messages. *)
Definition example_api (n : nat) (_ _ : list N) : option N := Some (N.of_nat n + 700)%N.
Definition example_channel : Channel :=
  {| bot := Some {| bot_id := 42; bot_username := Some (str "andy_ai_bot") |};
     onOutgoingMessage := true |}.
Definition long_text : list N := repeat 97%N 4100.


(** The requests of the witness: 4100 code units go out as 4096 + 4, and
    the one recorded message carries the first request's id. *)
Example long_text_requests :
  (λ tr, (api_texts tr, map (λ jm, id jm.2) (outgoing tr)))
    <$> sendMessage (str "2026-02-25T10:00:00.000Z") example_api example_channel
          (str "tg:100") long_text
  = Some ([repeat 97%N 4096; repeat 97%N 4], [str "700"]).
Proof. vm_compute. reflexivity. Qed.

(** Before [connect] nothing is sent. *)
Example not_connected now api jid text :
  sendMessage now api {| bot := None; onOutgoingMessage := true |} jid text
  = Some [LogWarnNotInitialized].
Proof. reflexivity. Qed.

(** A request that throws ends the loop: the remaining pieces are not sent. *)
Example second_request_throws :
  api_texts <$> sendMessage [] (λ n _ _, if n =? 0 then Some 1%N else None)
                  example_channel (str "tg:100") (long_text ++ long_text)
  = Some [repeat 97%N 4096; repeat 97%N 4096].
Proof. vm_compute. reflexivity. Qed.

(** ** [sendMessage] under any behaviour of the Bot API *)

Section AnyApi.
Variable now : list N.
Variable api : nat → list N → list N → option N.

Lemma send_chunks_any ch info jid text fuel i calls tr :
  length text - i < fuel →
  ∃ c tr',
    send_chunks now api ch info jid text fuel i calls tr = Some (c, tr ++ tr')
    ∧ concat (api_texts tr') `prefix_of` drop i text
    ∧ (c = Normal → concat (api_texts tr') = drop i text)
    ∧ Forall (λ t, length t ≤ MAX_LENGTH) (api_texts tr')
    ∧ (outgoing tr' = []
       ∨ (i = 0 ∧ ∃ mid,
            outgoing tr' = [(jid, outgoing_message now info jid mid text)])).
Proof.
  pose proof MAX_LENGTH_pos as Hmax.
  revert i calls tr. induction fuel as [|fuel IH]; intros i calls tr Hfuel; [lia|].
  cbn [send_chunks]. destruct (Nat.ltb_spec i (length text)) as [Hi|Hi].
  - set (chunk := slice i (i + MAX_LENGTH) text).
    assert (Hchunk : chunk = take MAX_LENGTH (drop i text)) by apply slice_chunk.
    assert (Hsplit : drop i text = chunk ++ drop (i + MAX_LENGTH) text).
    { by rewrite Hchunk, <- drop_drop, take_drop. }
    assert (Hlen : length chunk ≤ MAX_LENGTH).
    { rewrite Hchunk, length_take. lia. }
    destruct (api calls (numeric_id jid) chunk) as [mid|].
    + set (note := if (i =? 0) && onOutgoingMessage ch
                   then [OutgoingMessage jid (outgoing_message now info jid mid text)]
                   else []).
      set (tr1 := if i =? 0 then _ else _).
      assert (Htr1 : tr1 = tr ++ ApiSendMessage (numeric_id jid) chunk :: note).
      { subst tr1 note. unfold notify.
        destruct (i =? 0), (onOutgoingMessage ch); cbn [andb];
          rewrite <- ?app_assoc; done. }
      rewrite Htr1. clear tr1 Htr1.
      destruct (IH (i + MAX_LENGTH) (S calls)
                   (tr ++ ApiSendMessage (numeric_id jid) chunk :: note))
        as (c & tr' & -> & Hpre & Hcat & Hall & Hout); [lia|].
      assert (Hout' : outgoing tr' = []) by (destruct Hout as [?|[? _]]; [done|lia]).
      exists c, (ApiSendMessage (numeric_id jid) chunk :: note ++ tr').
      assert (Hnote : api_texts (note ++ tr') = api_texts tr').
      { subst note. by destruct ((i =? 0) && onOutgoingMessage ch). }
      change (api_texts (ApiSendMessage (numeric_id jid) chunk :: note ++ tr'))
        with (chunk :: api_texts (note ++ tr')).
      change (outgoing (ApiSendMessage (numeric_id jid) chunk :: note ++ tr'))
        with (outgoing (note ++ tr')).
      rewrite Hnote, outgoing_app, Hout', app_nil_r. cbn [concat].
      split_and!.
      * by rewrite <- app_assoc.
      * rewrite Hsplit. by apply prefix_app.
      * intros Hc. by rewrite Hsplit, Hcat.
      * by constructor.
      * subst note. destruct (Nat.eqb_spec i 0) as [->|?]; [|by left].
        destruct (onOutgoingMessage ch); [|by left].
        right. split; [done|]. by exists mid.
    + exists Throws, [ApiSendMessage (numeric_id jid) chunk].
      split_and!; try done.
      * cbn. rewrite app_nil_r, Hsplit. by apply prefix_app_r.
      * cbn. constructor; [done|constructor].
      * by left.
  - exists Normal, []. rewrite app_nil_r. split_and!; try done.
    + apply prefix_nil.
    + by rewrite drop_ge.
    + by left.
Qed.

(** X10.  Whatever the Bot API does and however the channel is set up,
    [sendMessage] returns (a request that throws is caught and logged); no
    request carries more than 4096 code units; the requests made are, in
    order, a beginning of [text]; at most one outgoing message is
    recorded, under the chat's id and with the whole [text] as content;
    and the success line is the last thing logged only when the whole
    [text] has gone out. *)
Theorem sendMessage_any_api (ch : Channel) (jid text : list N) :
  ∃ tr,
    sendMessage now api ch jid text = Some tr
    ∧ concat (api_texts tr) `prefix_of` text
    ∧ Forall (λ t, length t ≤ MAX_LENGTH) (api_texts tr)
    ∧ (outgoing tr = []
       ∨ ∃ info mid, bot ch = Some info
           ∧ outgoing tr = [(jid, outgoing_message now info jid mid text)])
    ∧ (last tr = Some (LogInfoSent jid (length text)) →
       concat (api_texts tr) = text).
Proof.
  unfold sendMessage. destruct (bot ch) as [info|].
  2:{ exists [LogWarnNotInitialized]. split_and!; try done.
      - apply prefix_nil.
      - by left. }
  destruct (Nat.leb_spec (length text) MAX_LENGTH) as [Hle|Hgt].
  - destruct (api 0 (numeric_id jid) text) as [mid|].
    + eexists. split; [reflexivity|]. unfold notify.
      destruct (onOutgoingMessage ch); cbn; rewrite app_nil_r;
        (split_and!; [done|constructor; [done|constructor]| |done]).
      * right. by exists info, mid.
      * by left.
    + eexists. split; [reflexivity|]. cbn. rewrite app_nil_r.
      split_and!; [done|constructor; [done|constructor]|by left|done].
  - destruct (send_chunks_any ch info jid text (S (length text)) 0 0 [])
      as (c & tr' & -> & Hpre & Hcat & Hall & Hout); [lia|].
    rewrite drop_0 in Hpre, Hcat. cbn [app].
    assert (Hout' : outgoing tr' = []
                    ∨ ∃ info' mid, Some info = Some info'
                        ∧ outgoing tr'
                          = [(jid, outgoing_message now info' jid mid text)]).
    { destruct Hout as [?|[_ [mid ?]]]; [by left|]. right. by exists info, mid. }
    destruct c; eexists; (split; [reflexivity|]);
      rewrite api_texts_app, outgoing_app; cbn; rewrite !app_nil_r;
      split_and!; try done.
    + intros _. by apply Hcat.
    + rewrite last_snoc. done.
Qed.
End AnyApi.

(** ** The bot pool *)

(** [normalizeSenderName(sender)] *)
Definition normalizeSenderName (sender : jsstring) : jsstring :=
  let trimmed := trim sender in
  if negb (truthy trimmed) then str "Agent" else slice 0 64 trimmed.

(** X11.  The name [normalizeSenderName] hands to the Bot API is never
    empty, never longer than 64 code units and never starts with white
    space; a sender that fits after trimming is only trimmed. *)
Theorem normalizeSenderName_bounds (sender : list N) :
  0 < length (normalizeSenderName sender) ≤ 64
  ∧ head_ok (normalizeSenderName sender) = true
  ∧ (trim sender ≠ [] → length (trim sender) ≤ 64 →
     normalizeSenderName sender = trim sender).
Proof.
  unfold normalizeSenderName. cbv zeta.
  pose proof (trimmed_trim sender) as Ht.
  unfold trimmed in Ht. apply andb_prop in Ht as [Hh _].
  destruct (trim sender) as [|c t] eqn:E.
  - cbn. split_and!; [lia|lia|done|done].
  - cbn [truthy negb]. unfold slice. rewrite Nat.sub_0_r, drop_0.
    split_and!.
    + rewrite length_take. cbn. lia.
    + rewrite length_take. lia.
    + done.
    + intros _ Hlen. by apply take_ge.
Qed.

(** The module state of the pool: [poolApis] (one entry per bot, by its
    token), [senderBotMap], [nextPoolIndex], and whether [mainSender] is
    set. *)
Record Pool := mkPool {
  poolApis : list (list N);
  senderBotMap : gmap (list N) nat;
  nextPoolIndex : nat;
  mainSender : bool
}.

Inductive PoolEvent :=
| GetMe (token : list N)
| LogPoolBotInitialized (poolSize : nat)
| LogPoolBotFailed
| LogPoolReady (count : nat)
| MainSend (chatId text : list N)
| SetMyName (idx : nat) (name : list N)
| Wait2000
| LogAssigned (sender groupFolder : list N) (idx : nat)
| LogRenameFailed (sender : list N)
| PoolSendMessage (idx : nat) (numericId text : list N)
| LogPoolSent (chatId sender : list N) (idx len : nat)
| LogPoolFailed (chatId sender : list N).

(** [registerMainTelegramSender(sender)] *)
Definition registerMainTelegramSender (p : Pool) : Pool :=
  {| poolApis := poolApis p; senderBotMap := senderBotMap p;
     nextPoolIndex := nextPoolIndex p; mainSender := true |}.

(** Body of the loop of [initBotPool]; [getMe_ok token] tells whether
    [api.getMe()] resolves for the bot of that token. *)
Definition init_token (getMe_ok : list N → bool)
    (acc : list (list N) * list PoolEvent) (token : list N)
  : list (list N) * list PoolEvent :=
  let '(apis, tr) := acc in
  if getMe_ok token
  then (apis ++ [token], tr ++ [GetMe token; LogPoolBotInitialized (S (length apis))])
  else (apis, tr ++ [GetMe token; LogPoolBotFailed]).

(** [initBotPool(tokens)] *)
Definition initBotPool (getMe_ok : list N → bool) (tokens : list (list N))
    (p : Pool) : Pool * list PoolEvent :=
  let '(apis, tr) := fold_left (init_token getMe_ok) tokens ([], []) in
  ({| poolApis := apis; senderBotMap := ∅; nextPoolIndex := 0;
      mainSender := mainSender p |},
   if 0 <? length apis then tr ++ [LogPoolReady (length apis)] else tr).

(** [if (mainSender) await mainSender(chatId, text)] *)
Definition fallback (p : Pool) (chatId text : jsstring) : list PoolEvent :=
  if mainSender p then [MainSend chatId text] else [].

(** The texts sent through pool bots, in call order. *)
Definition pool_texts (tr : list PoolEvent) : list (list N) :=
  omap (λ e, match e with PoolSendMessage _ _ t => Some t | _ => None end) tr.

(** The calls of the main sender, in order. *)
Definition main_sends (tr : list PoolEvent) : list (list N * list N) :=
  omap (λ e, match e with MainSend c t => Some (c, t) | _ => None end) tr.

Section PoolSend.
(** Whether [setMyName] resolves for the bot at an index. *)
Variable rename_ok : nat → list N → bool.
(** Whether the [n]-th [sendMessage] request of a call resolves, for the
    bot at an index. *)
Variable send_ok : nat → nat → list N → list N → bool.

(** [for (let i = 0; i < text.length; i += MAX_LENGTH)] of
    [sendPoolMessage]. *)
Fixpoint pool_chunks (idx : nat) (numericId text : jsstring)
    (fuel i calls : nat) (tr : list PoolEvent)
  : option (completion * list PoolEvent) :=
  match fuel with
  | 0 => None
  | S fuel' =>
      if i <? length text then
        let chunk := slice i (i + MAX_LENGTH) text in
        let tr := tr ++ [PoolSendMessage idx numericId chunk] in
        if send_ok idx calls numericId chunk
        then pool_chunks idx numericId text fuel' (i + MAX_LENGTH) (S calls) tr
        else Some (Throws, tr)
      else Some (Normal, tr)
  end.

(** The [try] block of [sendPoolMessage] for [api = poolApis[idx]]; an
    index outside the pool gives [undefined], and the first request then
    throws a [TypeError] inside the block. *)
Definition pool_try (idx : nat) (api : option (list N))
    (numericId text : jsstring) (tr : list PoolEvent)
  : option (completion * list PoolEvent) :=
  match api with
  | None => Some (Throws, tr)
  | Some _ =>
      if length text <=? MAX_LENGTH then
        Some (if send_ok idx 0 numericId text then Normal else Throws,
              tr ++ [PoolSendMessage idx numericId text])
      else pool_chunks idx numericId text (S (length text)) 0 0 tr
  end.

(** The end of the [try] block and its [catch]. *)
Definition pool_end (p : Pool) (idx : nat) (chatId text sender : jsstring)
    (c : completion) : list PoolEvent :=
  match c with
  | Normal => [LogPoolSent chatId sender idx (length text)]
  | Throws => LogPoolFailed chatId sender :: fallback p chatId text
  end.

(** [sendPoolMessage(chatId, text, sender, groupFolder)]: the new module
    state and the effects of the call, in order.  [None] only when the
    fuel of the loop runs out. *)
Definition sendPoolMessage (p : Pool) (chatId text sender groupFolder : jsstring)
  : option (Pool * list PoolEvent) :=
  if length (poolApis p) =? 0 then Some (p, fallback p chatId text) else
  let normalizedSender := normalizeSenderName sender in
  let key := groupFolder ++ str ":" ++ normalizedSender in
  let '(idx, p, tr) :=
    match senderBotMap p !! key with
    | Some idx => (idx, p, [])
    | None =>
        let idx := nextPoolIndex p mod length (poolApis p) in
        (idx,
         {| poolApis := poolApis p;
            senderBotMap := <[key := idx]> (senderBotMap p);
            nextPoolIndex := S (nextPoolIndex p);
            mainSender := mainSender p |},
         SetMyName idx normalizedSender ::
           (if rename_ok idx normalizedSender
            then [Wait2000; LogAssigned normalizedSender groupFolder idx]
            else [LogRenameFailed normalizedSender]))
    end in
  match pool_try idx (poolApis p !! idx) (numeric_id chatId) text tr with
  | None => None
  | Some (c, tr) => Some (p, tr ++ pool_end p idx chatId text normalizedSender c)
  end.

(** A call after another, threading the module state. *)
Record Call := mkCall {
  call_chatId : list N;
  call_text : list N;
  call_sender : list N;
  call_groupFolder : list N
}.

Fixpoint run (p : Pool) (calls : list Call) : option (Pool * list PoolEvent) :=
  match calls with
  | [] => Some (p, [])
  | c :: calls' =>
      match sendPoolMessage p (call_chatId c) (call_text c) (call_sender c)
              (call_groupFolder c) with
      | None => None
      | Some (p1, tr1) =>
          match run p1 calls' with
          | None => None
          | Some (p2, tr2) => Some (p2, tr1 ++ tr2)
          end
      end
  end.
End PoolSend.

(** The key of [senderBotMap] for a sender of a group. *)
Definition pool_key (groupFolder sender : jsstring) : jsstring :=
  groupFolder ++ str ":" ++ normalizeSenderName sender.

(** Every index in [senderBotMap] is an index of [poolApis]. *)
Definition pool_ok (p : Pool) : Prop :=
  ∀ key idx, senderBotMap p !! key = Some idx → idx < length (poolApis p).

(** The module state after a call for [key], with a pool that is not
    empty. *)
Definition assigned (p : Pool) (key : jsstring) : Pool :=
  match senderBotMap p !! key with
  | Some _ => p
  | None =>
      {| poolApis := poolApis p;
         senderBotMap :=
           <[key := nextPoolIndex p mod length (poolApis p)]> (senderBotMap p);
         nextPoolIndex := S (nextPoolIndex p);
         mainSender := mainSender p |}
  end.

(** The bot a call for [key] sends through. *)
Definition bot_of (p : Pool) (key : jsstring) : nat :=
  match senderBotMap p !! key with
  | Some idx => idx
  | None => nextPoolIndex p mod length (poolApis p)
  end.

(** The renaming a call for a new key starts with. *)
Definition renaming (rename_ok : nat → list N → bool) (p : Pool)
    (groupFolder sender : jsstring) : list PoolEvent :=
  match senderBotMap p !! pool_key groupFolder sender with
  | Some _ => []
  | None =>
      let idx := nextPoolIndex p mod length (poolApis p) in
      SetMyName idx (normalizeSenderName sender) ::
        (if rename_ok idx (normalizeSenderName sender)
         then [Wait2000; LogAssigned (normalizeSenderName sender) groupFolder idx]
         else [LogRenameFailed (normalizeSenderName sender)])
  end.

(** An event of a call that goes through bot [idx] to chat [numericId]:
    every request carries at most 4096 code units. *)
Definition through (idx : nat) (numericId : jsstring) (e : PoolEvent) : Prop :=
  match e with
  | PoolSendMessage i n t => i = idx ∧ n = numericId ∧ length t ≤ MAX_LENGTH
  | SetMyName i _ => i = idx
  | _ => True
  end.

Definition is_request (idx : nat) (numericId : jsstring) (e : PoolEvent) : Prop :=
  ∃ t, e = PoolSendMessage idx numericId t ∧ length t ≤ MAX_LENGTH.

Lemma pool_texts_app tr1 tr2 :
  pool_texts (tr1 ++ tr2) = pool_texts tr1 ++ pool_texts tr2.
Proof. apply omap_app. Qed.

Lemma main_sends_app tr1 tr2 :
  main_sends (tr1 ++ tr2) = main_sends tr1 ++ main_sends tr2.
Proof. apply omap_app. Qed.

Lemma main_sends_requests idx nid tr :
  Forall (is_request idx nid) tr → main_sends tr = [].
Proof.
  induction 1 as [|e tr [t [-> _]] _ IH]; [done|]. exact IH.
Qed.

Lemma through_requests idx nid tr :
  Forall (is_request idx nid) tr → Forall (through idx nid) tr.
Proof.
  intros H. eapply Forall_impl; [exact H|]. intros e [t [-> Ht]]. by cbn.
Qed.

Section PoolFacts.
Variable rename_ok : nat → list N → bool.
Variable send_ok : nat → nat → list N → list N → bool.

Lemma pool_chunks_spec idx nid text fuel i calls tr :
  length text - i < fuel →
  ∃ c tr',
    pool_chunks send_ok idx nid text fuel i calls tr = Some (c, tr ++ tr')
    ∧ Forall (is_request idx nid) tr'
    ∧ concat (pool_texts tr') `prefix_of` drop i text
    ∧ (c = Normal → concat (pool_texts tr') = drop i text)
    ∧ (c = Throws → ∃ n t, send_ok idx n nid t = false).
Proof.
  pose proof MAX_LENGTH_pos as Hmax.
  revert i calls tr. induction fuel as [|fuel IH]; intros i calls tr Hfuel; [lia|].
  cbn [pool_chunks]. destruct (Nat.ltb_spec i (length text)) as [Hi|Hi].
  - set (chunk := slice i (i + MAX_LENGTH) text).
    assert (Hchunk : chunk = take MAX_LENGTH (drop i text)) by apply slice_chunk.
    assert (Hsplit : drop i text = chunk ++ drop (i + MAX_LENGTH) text).
    { by rewrite Hchunk, <- drop_drop, take_drop. }
    assert (Hreq : is_request idx nid (PoolSendMessage idx nid chunk)).
    { exists chunk. split; [done|]. rewrite Hchunk, length_take. lia. }
    destruct (send_ok idx calls nid chunk) eqn:Hok.
    + destruct (IH (i + MAX_LENGTH) (S calls) (tr ++ [PoolSendMessage idx nid chunk]))
        as (c & tr' & -> & Hall & Hpre & Hcat & Hthrow); [lia|].
      exists c, (PoolSendMessage idx nid chunk :: tr').
      change (pool_texts (PoolSendMessage idx nid chunk :: tr'))
        with (chunk :: pool_texts tr').
      cbn [concat]. split_and!.
      * by rewrite <- app_assoc.
      * by constructor.
      * rewrite Hsplit. by apply prefix_app.
      * intros Hc. by rewrite Hsplit, Hcat.
      * done.
    + exists Throws, [PoolSendMessage idx nid chunk]. split_and!.
      * done.
      * by constructor.
      * cbn. rewrite app_nil_r, Hsplit. by apply prefix_app_r.
      * done.
      * intros _. by exists calls, chunk.
  - exists Normal, []. rewrite app_nil_r. split_and!; try done.
    + apply prefix_nil.
    + by rewrite drop_ge.
Qed.

Lemma pool_try_spec idx tok nid text tr :
  ∃ c tr',
    pool_try send_ok idx (Some tok) nid text tr = Some (c, tr ++ tr')
    ∧ Forall (is_request idx nid) tr'
    ∧ concat (pool_texts tr') `prefix_of` text
    ∧ (c = Normal → concat (pool_texts tr') = text)
    ∧ (c = Throws → ∃ n t, send_ok idx n nid t = false).
Proof.
  unfold pool_try. destruct (Nat.leb_spec (length text) MAX_LENGTH) as [Hle|Hgt].
  - exists (if send_ok idx 0 nid text then Normal else Throws),
           [PoolSendMessage idx nid text].
    split_and!.
    + done.
    + constructor; [|constructor]. by exists text.
    + cbn. by rewrite app_nil_r.
    + intros _. cbn. by rewrite app_nil_r.
    + destruct (send_ok idx 0 nid text) eqn:Hok; [done|]. intros _. by exists 0, text.
  - destruct (pool_chunks_spec idx nid text (S (length text)) 0 0 tr)
      as (c & tr' & -> & Hall & Hpre & Hcat & Hthrow); [lia|].
    rewrite drop_0 in Hpre, Hcat. by exists c, tr'.
Qed.

(** The shape of every call on a pool that is not empty. *)
Lemma sendPoolMessage_run p chatId text sender groupFolder :
  poolApis p ≠ [] → pool_ok p →
  let key := pool_key groupFolder sender in
  let idx := bot_of p key in
  ∃ c tr',
    sendPoolMessage rename_ok send_ok p chatId text sender groupFolder
    = Some (assigned p key,
            renaming rename_ok p groupFolder sender ++ tr'
            ++ pool_end (assigned p key) idx chatId text
                 (normalizeSenderName sender) c)
    ∧ idx < length (poolApis p)
    ∧ Forall (is_request idx (numeric_id chatId)) tr'
    ∧ concat (pool_texts tr') `prefix_of` text
    ∧ (c = Normal → concat (pool_texts tr') = text)
    ∧ (c = Throws → ∃ n t, send_ok idx n (numeric_id chatId) t = false).
Proof.
  intros Hne Hok key idx.
  assert (Hlen : length (poolApis p) ≠ 0) by (by destruct (poolApis p)).
  assert (Hidx : idx < length (poolApis p)).
  { subst idx. unfold bot_of. destruct (senderBotMap p !! key) as [i|] eqn:E.
    - by apply (Hok key).
    - by apply Nat.mod_upper_bound. }
  unfold sendPoolMessage. rewrite (proj2 (Nat.eqb_neq _ _) Hlen). cbv zeta.
  fold (pool_key groupFolder sender). fold key.
  unfold assigned, renaming. fold key. subst idx. unfold bot_of in *.
  destruct (senderBotMap p !! key) as [i|] eqn:E.
  - destruct (lookup_lt_is_Some_2 (poolApis p) i Hidx) as [tok ->].
    destruct (pool_try_spec i tok (numeric_id chatId) text [])
      as (c & tr' & -> & H1 & H2 & H3 & H4).
    by exists c, tr'.
  - cbn [poolApis].
    destruct (lookup_lt_is_Some_2 (poolApis p) _ Hidx) as [tok ->].
    set (tr := SetMyName _ _ :: _).
    destruct (pool_try_spec (nextPoolIndex p mod length (poolApis p)) tok
                (numeric_id chatId) text tr)
      as (c & tr' & -> & H1 & H2 & H3 & H4).
    exists c, tr'. rewrite <- app_assoc. done.
Qed.

Lemma assigned_ok p key : poolApis p ≠ [] → pool_ok p → pool_ok (assigned p key).
Proof.
  intros Hne Hok. unfold assigned.
  destruct (senderBotMap p !! key) as [i|] eqn:E; [done|].
  intros k idx. cbn. destruct (decide (k = key)) as [->|Hk].
  - rewrite lookup_insert_eq. intros [= <-].
    apply Nat.mod_upper_bound. by destruct (poolApis p).
  - rewrite lookup_insert_ne by done. apply Hok.
Qed.

Lemma assigned_apis p key : poolApis (assigned p key) = poolApis p.
Proof. unfold assigned. by destruct (senderBotMap p !! key). Qed.

Lemma assigned_main p key : mainSender (assigned p key) = mainSender p.
Proof. unfold assigned. by destruct (senderBotMap p !! key). Qed.

Lemma assigned_lookup p key :
  senderBotMap (assigned p key) !! key = Some (bot_of p key).
Proof.
  unfold assigned, bot_of. destruct (senderBotMap p !! key) as [i|] eqn:E; [done|].
  cbn. apply lookup_insert_eq.
Qed.

Lemma assigned_keeps p key k i :
  senderBotMap p !! k = Some i → senderBotMap (assigned p key) !! k = Some i.
Proof.
  unfold assigned. destruct (senderBotMap p !! key) as [j|] eqn:E; [done|].
  intros Hk. cbn. rewrite lookup_insert_ne; [done|]. congruence.
Qed.
End PoolFacts.

(** X12.  On a pool that is not empty, a call of [sendPoolMessage] sends
    through one bot only.  For a sender that [senderBotMap] already has,
    it is the bot recorded there, and the call renames nothing and leaves
    the module state as it was.  For a new sender it is the bot at
    [nextPoolIndex % poolApis.length]: the call records that index for
    the sender, adds one to [nextPoolIndex], and its first effect is
    [setMyName] on that bot.  In both cases the index is inside the pool,
    every request of the call goes to the chat's numeric id and carries at
    most 4096 code units, and the bot of no other sender changes. *)
Theorem pool_message_uses_assigned_bot (rename_ok : nat → list N → bool)
    (send_ok : nat → nat → list N → list N → bool)
    (p : Pool) (chatId text sender groupFolder : list N) :
  poolApis p ≠ [] → pool_ok p →
  let key := groupFolder ++ str ":" ++ normalizeSenderName sender in
  ∃ p' tr idx,
    sendPoolMessage rename_ok send_ok p chatId text sender groupFolder
    = Some (p', tr)
    ∧ idx = match senderBotMap p !! key with
            | Some i => i
            | None => nextPoolIndex p mod length (poolApis p)
            end
    ∧ idx < length (poolApis p)
    ∧ senderBotMap p' = match senderBotMap p !! key with
                        | Some _ => senderBotMap p
                        | None => <[key := idx]> (senderBotMap p)
                        end
    ∧ nextPoolIndex p' = match senderBotMap p !! key with
                         | Some _ => nextPoolIndex p
                         | None => S (nextPoolIndex p)
                         end
    ∧ poolApis p' = poolApis p ∧ mainSender p' = mainSender p
    ∧ senderBotMap p' !! key = Some idx
    ∧ pool_ok p'
    ∧ (∀ k i, senderBotMap p !! k = Some i → senderBotMap p' !! k = Some i)
    ∧ Forall (through idx (numeric_id chatId)) tr
    ∧ (senderBotMap p !! key = None →
       ∃ tail, tr = SetMyName idx (normalizeSenderName sender) :: tail
               ∧ Forall (λ e, ∀ i n, e ≠ SetMyName i n) tail)
    ∧ (is_Some (senderBotMap p !! key) →
       p' = p ∧ Forall (λ e, ∀ i n, e ≠ SetMyName i n) tr).
Proof.
  intros Hne Hok key.
  destruct (sendPoolMessage_run rename_ok send_ok p chatId text sender groupFolder
              Hne Hok) as (c & tr' & -> & Hidx & Hall & _).
  fold (pool_key groupFolder sender) in key. subst key.
  set (key := pool_key groupFolder sender) in *.
  assert (Hrest : Forall (λ e : PoolEvent, ∀ i n, e ≠ SetMyName i n)
            (tr' ++ pool_end (assigned p key) (bot_of p key) chatId text
                      (normalizeSenderName sender) c)).
  { apply Forall_app. split.
    - eapply Forall_impl; [exact Hall|]. by intros e [t [-> _]] i' n.
    - destruct c; cbn; [by repeat constructor|]. constructor; [done|].
      unfold fallback. destruct (mainSender _); by repeat constructor. }
  eexists _, _, (bot_of p key).
  split; [reflexivity|]. split_and!.
  - done.
  - exact Hidx.
  - unfold assigned, bot_of. by destruct (senderBotMap p !! key).
  - unfold assigned. by destruct (senderBotMap p !! key).
  - apply assigned_apis.
  - apply assigned_main.
  - apply assigned_lookup.
  - by apply assigned_ok.
  - intros k i. apply assigned_keeps.
  - apply Forall_app. split; [|apply Forall_app; split].
    + unfold renaming, bot_of. fold key.
      destruct (senderBotMap p !! key); [constructor|].
      cbv zeta. constructor; [done|]. destruct (rename_ok _ _); by repeat constructor.
    + by apply through_requests.
    + destruct c; cbn; [by repeat constructor|]. constructor; [done|].
      unfold fallback. destruct (mainSender _); by repeat constructor.
  - intros Hnew. unfold renaming, bot_of in *. fold key in Hrest |- *.
    rewrite Hnew in Hrest |- *. cbv zeta. eexists. split; [reflexivity|].
    apply Forall_app. split; [|exact Hrest].
    destruct (rename_ok _ _); by repeat constructor.
  - intros [i Hi]. unfold assigned, renaming in *. fold key.
    rewrite Hi in Hrest |- *. split; [done|]. exact Hrest.
Qed.

(** Two pool bots, and a sender of group [team] that has the second. *)
Definition two_bots : Pool :=
  {| poolApis := [str "t1"; str "t2"];
     senderBotMap := {[ str "team:Researcher" := 1 ]};
     nextPoolIndex := 2;
     mainSender := true |}.

Lemma two_bots_ok : pool_ok two_bots.
Proof.
  intros key idx. unfold two_bots. cbn [senderBotMap poolApis length].
  destruct (decide (key = str "team:Researcher")) as [->|Hne].
  - rewrite lookup_singleton_eq. intros [= <-]. lia.
  - by rewrite lookup_singleton_ne.
Qed.

(** A new sender of the same group, on a pool whose turn is at 3. *)
Definition three_turns : Pool :=
  {| poolApis := [str "t1"; str "t2"];
     senderBotMap := {[ str "team:Researcher" := 1 ]};
     nextPoolIndex := 3;
     mainSender := true |}.

Lemma three_turns_ok : pool_ok three_turns.
Proof. exact two_bots_ok. Qed.

Lemma pool_message_uses_assigned_bot_witness :
  let p := three_turns in
  let key := str "team" ++ str ":" ++ normalizeSenderName (str " Writer ") in
  ∃ p' tr idx,
    sendPoolMessage (λ _ _, true) (λ _ _ _ _, true) p
      (str "tg:100") (str "hello") (str " Writer ") (str "team")
    = Some (p', tr)
    ∧ idx = match senderBotMap p !! key with
            | Some i => i
            | None => nextPoolIndex p mod length (poolApis p)
            end
    ∧ idx < length (poolApis p)
    ∧ senderBotMap p' = match senderBotMap p !! key with
                        | Some _ => senderBotMap p
                        | None => <[key := idx]> (senderBotMap p)
                        end
    ∧ nextPoolIndex p' = match senderBotMap p !! key with
                         | Some _ => nextPoolIndex p
                         | None => S (nextPoolIndex p)
                         end
    ∧ poolApis p' = poolApis p ∧ mainSender p' = mainSender p
    ∧ senderBotMap p' !! key = Some idx
    ∧ pool_ok p'
    ∧ (∀ k i, senderBotMap p !! k = Some i → senderBotMap p' !! k = Some i)
    ∧ Forall (through idx (numeric_id (str "tg:100"))) tr
    ∧ (senderBotMap p !! key = None →
       ∃ tail, tr = SetMyName idx (normalizeSenderName (str " Writer ")) :: tail
               ∧ Forall (λ e, ∀ i n, e ≠ SetMyName i n) tail)
    ∧ (is_Some (senderBotMap p !! key) →
       p' = p ∧ Forall (λ e, ∀ i n, e ≠ SetMyName i n) tr).
Proof.
  intros p.
  apply (pool_message_uses_assigned_bot (λ _ _, true) (λ _ _ _ _, true) p).
  - discriminate.
  - exact three_turns_ok.
Defined.

(** The same call, evaluated: the new sender gets bot [3 % 2 = 1]. *)
Example new_sender_takes_next_bot :
  sendPoolMessage (λ _ _, true) (λ _ _ _ _, true) three_turns
    (str "tg:100") (str "hello") (str " Writer ") (str "team")
  = Some ({| poolApis := [str "t1"; str "t2"];
             senderBotMap := <[ str "team:Writer" := 1 ]>
                               {[ str "team:Researcher" := 1 ]};
             nextPoolIndex := 4;
             mainSender := true |},
          [SetMyName 1 (str "Writer"); Wait2000;
           LogAssigned (str "Writer") (str "team") 1;
           PoolSendMessage 1 (str "100") (str "hello");
           LogPoolSent (str "tg:100") (str "Writer") 1 5]).
Proof. vm_compute. reflexivity. Qed.

(** The senders of a sequence of calls in the order in which they first
    appear. *)
Definition arrive (seen : list (list N)) (key : list N) : list (list N) :=
  if bool_decide (key ∈ seen) then seen else seen ++ [key].

Definition arrivals (keys : list (list N)) : list (list N) :=
  fold_left arrive keys [].

Definition call_key (c : Call) : list N :=
  pool_key (call_groupFolder c) (call_sender c).

(** The pool after the senders [seen] have arrived in that order: the
    [j]-th of them has bot [j mod n]. *)
Definition dealt (p : Pool) (seen : list (list N)) : Prop :=
  NoDup seen
  ∧ nextPoolIndex p = length seen
  ∧ (∀ j key, seen !! j = Some key →
       senderBotMap p !! key = Some (j mod length (poolApis p)))
  ∧ (∀ key, key ∉ seen → senderBotMap p !! key = None).

Lemma dealt_ok p seen : poolApis p ≠ [] → dealt p seen → pool_ok p.
Proof.
  intros Hne (_ & _ & Hin & Hout) key idx Hkey.
  destruct (decide (key ∈ seen)) as [Hs|Hs].
  - apply list_elem_of_lookup_1 in Hs as [j Hj].
    rewrite (Hin j key Hj) in Hkey. injection Hkey as <-.
    apply Nat.mod_upper_bound. by destruct (poolApis p).
  - by rewrite (Hout key Hs) in Hkey.
Qed.

Lemma dealt_assigned p seen key :
  dealt p seen → dealt (assigned p key) (arrive seen key).
Proof.
  intros (Hnd & Hnext & Hin & Hout). unfold assigned, arrive.
  destruct (senderBotMap p !! key) as [i|] eqn:E.
  - rewrite bool_decide_eq_true_2; [done|].
    destruct (decide (key ∈ seen)) as [?|Hs]; [done|].
    by rewrite (Hout key Hs) in E.
  - assert (Hs : key ∉ seen).
    { intros [j Hj]%list_elem_of_lookup_1. by rewrite (Hin j key Hj) in E. }
    rewrite bool_decide_eq_false_2 by done. split_and!.
    + apply NoDup_app. split_and!; [done| |apply NoDup_singleton].
      intros k Hk ->%list_elem_of_singleton. done.
    + cbn. rewrite length_app. cbn. lia.
    + intros j k Hj. cbn [senderBotMap poolApis].
      destruct (decide (j < length seen)) as [Hlt|Hge].
      * rewrite lookup_app_l in Hj by done.
        rewrite lookup_insert_ne; [by apply Hin|].
        intros <-. apply Hs. by eapply list_elem_of_lookup_2.
      * rewrite lookup_app_r in Hj by lia.
        destruct (j - length seen) as [|m] eqn:Em; [|by destruct m].
        injection Hj as <-. rewrite lookup_insert_eq.
        do 2 f_equal. lia.
    + intros k Hk. cbn [senderBotMap].
      rewrite lookup_insert_ne.
      * apply Hout. intros ?. apply Hk, elem_of_app. by left.
      * intros <-. apply Hk, elem_of_app. right. apply list_elem_of_here.
Qed.

Lemma run_dealt rename_ok send_ok calls p seen :
  poolApis p ≠ [] → dealt p seen →
  ∃ p' tr,
    run rename_ok send_ok p calls = Some (p', tr)
    ∧ poolApis p' = poolApis p
    ∧ mainSender p' = mainSender p
    ∧ dealt p' (fold_left arrive (map call_key calls) seen).
Proof.
  revert p seen. induction calls as [|c calls IH]; intros p seen Hne Hd.
  { by exists p, []. }
  cbn [run map fold_left].
  destruct (sendPoolMessage_run rename_ok send_ok p (call_chatId c) (call_text c)
              (call_sender c) (call_groupFolder c) Hne (dealt_ok p seen Hne Hd))
    as (cp & tr' & -> & _).
  fold (call_key c).
  destruct (IH (assigned p (call_key c)) (arrive seen (call_key c)))
    as (p' & tr & -> & Hapis & Hmain & Hd').
  - by rewrite assigned_apis.
  - by apply dealt_assigned.
  - eexists _, _. split; [reflexivity|].
    by rewrite Hapis, Hmain, assigned_apis, assigned_main.
Qed.

Lemma init_tokens_apis getMe_ok tokens apis tr :
  (fold_left (init_token getMe_ok) tokens (apis, tr)).1
  = apis ++ List.filter getMe_ok tokens.
Proof.
  revert apis tr. induction tokens as [|t tokens IH]; intros apis tr; cbn.
  - by rewrite app_nil_r.
  - destruct (getMe_ok t); rewrite IH; [|done]. by rewrite <- app_assoc.
Qed.

(** X13.  After [initBotPool] the pool holds, in the order of the tokens,
    the bots whose [getMe] answered.  When there is at least one, any
    sequence of [sendPoolMessage] calls after it returns and deals the
    bots round-robin in the order in which the senders first appear: the
    [j]-th new sender has bot [j mod n] from then on, [nextPoolIndex]
    counts the senders seen, and no other key is in [senderBotMap]. *)
Theorem pool_round_robin (getMe_ok : list N → bool)
    (rename_ok : nat → list N → bool)
    (send_ok : nat → nat → list N → list N → bool)
    (tokens : list (list N)) (p0 : Pool) (calls : list Call) :
  List.filter getMe_ok tokens ≠ [] →
  let p := (initBotPool getMe_ok tokens p0).1 in
  let seen := arrivals (map call_key calls) in
  poolApis p = List.filter getMe_ok tokens
  ∧ ∃ p' tr,
      run rename_ok send_ok p calls = Some (p', tr)
      ∧ poolApis p' = poolApis p
      ∧ nextPoolIndex p' = length seen
      ∧ (∀ j key, seen !! j = Some key →
           senderBotMap p' !! key = Some (j mod length (poolApis p)))
      ∧ (∀ key, key ∉ seen → senderBotMap p' !! key = None).
Proof.
  intros Hne p seen.
  assert (Hapis : poolApis p = List.filter getMe_ok tokens).
  { subst p. unfold initBotPool.
    pose proof (init_tokens_apis getMe_ok tokens [] []) as H.
    destruct (fold_left _ tokens ([], [])) as [apis tr]. by cbn in *. }
  assert (Hmap : senderBotMap p = ∅ ∧ nextPoolIndex p = 0).
  { subst p. unfold initBotPool.
    by destruct (fold_left _ tokens ([], [])) as [apis tr]. }
  destruct Hmap as [Hmap Hnext].
  split; [done|].
  destruct (run_dealt rename_ok send_ok calls p []) as (p' & tr & Hrun & Hp' & _ & Hd).
  - by rewrite Hapis.
  - split_and!; [constructor|done|done|].
    intros key _. rewrite Hmap. apply lookup_empty.
  - destruct Hd as (_ & Hn & Hin & Hout).
    exists p', tr. rewrite Hp' in Hin. by split_and!.
Qed.

(** Three tokens of which the second is refused, and four calls by three
    senders. *)
Definition three_tokens : list (list N) := [str "t1"; str "bad"; str "t2"].
Definition accepts (token : list N) : bool :=
  negb (bool_decide (token = str "bad")).
Definition four_calls : list Call :=
  [mkCall (str "tg:100") (str "a") (str "Ann") (str "team");
   mkCall (str "tg:100") (str "b") (str "Bob") (str "team");
   mkCall (str "tg:100") (str "c") (str "Ann") (str "team");
   mkCall (str "tg:100") (str "d") (str "Cy") (str "team")].

Lemma pool_round_robin_witness :
  ∃ p' tr,
    run (λ _ _, true) (λ _ _ _ _, true)
      (initBotPool accepts three_tokens (mkPool [] ∅ 0 true)).1 four_calls
    = Some (p', tr)
    ∧ senderBotMap p' !! str "team:Ann" = Some 0
    ∧ senderBotMap p' !! str "team:Bob" = Some 1
    ∧ senderBotMap p' !! str "team:Cy" = Some 0.
Proof.
  destruct (pool_round_robin accepts (λ _ _, true) (λ _ _ _ _, true)
              three_tokens (mkPool [] ∅ 0 true) four_calls)
    as (Hapis & p' & tr & Hrun & _ & _ & Hin & _).
  - discriminate.
  - exists p', tr. split; [exact Hrun|]. rewrite Hapis in Hin. split_and!.
    + apply (Hin 0). reflexivity.
    + apply (Hin 1). reflexivity.
    + apply (Hin 2). reflexivity.
Defined.

(** X14.  [sendPoolMessage] always returns, and it hands a message to the
    main sender at most once and only as a whole, under the chat id it was
    given.  With an empty pool that is all it does.  Otherwise the call
    ends either with the success line, and then the requests carried
    exactly [text] and the main sender was not used, or with the failure
    line: then a request of the assigned bot has thrown, the requests made
    so far are a beginning of [text], and the main sender, if one is
    registered, gets the whole [text] once more. *)
Theorem pool_falls_back_to_main_sender (rename_ok : nat → list N → bool)
    (send_ok : nat → nat → list N → list N → bool)
    (p : Pool) (chatId text sender groupFolder : list N) :
  pool_ok p →
  ∃ p' tr,
    sendPoolMessage rename_ok send_ok p chatId text sender groupFolder
    = Some (p', tr)
    ∧ concat (pool_texts tr) `prefix_of` text
    ∧ (poolApis p = [] → p' = p ∧ tr = fallback p chatId text)
    ∧ (poolApis p ≠ [] →
       (last tr = Some (LogPoolSent chatId (normalizeSenderName sender)
                          (bot_of p (pool_key groupFolder sender)) (length text))
        ∧ concat (pool_texts tr) = text
        ∧ main_sends tr = [])
       ∨ (LogPoolFailed chatId (normalizeSenderName sender) ∈ tr
          ∧ (∃ n t, send_ok (bot_of p (pool_key groupFolder sender)) n
                      (numeric_id chatId) t = false)
          ∧ main_sends tr = if mainSender p then [(chatId, text)] else [])).
Proof.
  intros Hok. destruct (poolApis p) as [|tok apis] eqn:Hapis.
  - exists p, (fallback p chatId text). unfold sendPoolMessage. rewrite Hapis.
    split_and!; try done.
    unfold fallback. destruct (mainSender p); apply prefix_nil.
  - assert (Hne : poolApis p ≠ []) by by rewrite Hapis.
    destruct (sendPoolMessage_run rename_ok send_ok p chatId text sender groupFolder
                Hne Hok) as (c & tr' & -> & Hidx & Hall & Hpre & Hcat & Hthrow).
    eexists _, _. split; [reflexivity|].
    set (key := pool_key groupFolder sender) in *.
    assert (Hren : pool_texts (renaming rename_ok p groupFolder sender) = []
                   ∧ main_sends (renaming rename_ok p groupFolder sender) = []).
    { unfold renaming. fold key. destruct (senderBotMap p !! key); [done|].
      cbv zeta. by destruct (rename_ok _ _). }
    destruct Hren as [Hren1 Hren2].
    assert (Hend : pool_texts (pool_end (assigned p key) (bot_of p key) chatId text
                                 (normalizeSenderName sender) c) = []).
    { destruct c; [done|]. cbn. unfold fallback. by destruct (mainSender _). }
    rewrite !pool_texts_app, Hren1, Hend, app_nil_r. cbn [app].
    rewrite !main_sends_app, Hren2, (main_sends_requests _ _ _ Hall). cbn [app].
    split_and!; [done|done|]. intros _. destruct c.
    + left. split_and!.
      * cbn. by rewrite !app_assoc, last_snoc.
      * by apply Hcat.
      * done.
    + right. split_and!.
      * apply elem_of_app. right. apply elem_of_app. right. apply list_elem_of_here.
      * by apply Hthrow.
      * cbn. unfold fallback. rewrite assigned_main. by destruct (mainSender p).
Qed.

(** A pool whose bots accept any name and resolve only the first request
    of a call. *)
Definition renames (_ : nat) (_ : list N) : bool := true.
Definition only_first_resolves (_ n : nat) (_ _ : list N) : bool := n =? 0.

(** A long text whose second request throws: both pieces go out through
    the pool bot, then the main sender gets the whole text. *)
Example pool_failure_example :
  (λ r, (pool_texts r.2, main_sends r.2))
    <$> sendPoolMessage renames only_first_resolves two_bots
          (str "tg:100") long_text (str "Researcher") (str "team")
  = Some ([repeat 97%N 4096; repeat 97%N 4], [(str "tg:100", long_text)]).
Proof. vm_compute. reflexivity. Qed.

Lemma pool_falls_back_to_main_sender_witness :
  ∃ p' tr,
    sendPoolMessage renames only_first_resolves two_bots
      (str "tg:100") long_text (str "Researcher") (str "team")
    = Some (p', tr)
    ∧ concat (pool_texts tr) `prefix_of` long_text
    ∧ (poolApis two_bots = [] → p' = two_bots ∧ tr = fallback two_bots (str "tg:100") long_text)
    ∧ (poolApis two_bots ≠ [] →
       (last tr = Some (LogPoolSent (str "tg:100") (normalizeSenderName (str "Researcher"))
                          (bot_of two_bots (pool_key (str "team") (str "Researcher")))
                          (length long_text))
        ∧ concat (pool_texts tr) = long_text
        ∧ main_sends tr = [])
       ∨ (LogPoolFailed (str "tg:100") (normalizeSenderName (str "Researcher")) ∈ tr
          ∧ (∃ n t, only_first_resolves
                      (bot_of two_bots (pool_key (str "team") (str "Researcher"))) n
                      (numeric_id (str "tg:100")) t = false)
          ∧ main_sends tr
            = if mainSender two_bots then [(str "tg:100", long_text)] else [])).
Proof.
  apply (pool_falls_back_to_main_sender renames only_first_resolves
           two_bots (str "tg:100") long_text (str "Researcher") (str "team")).
  exact two_bots_ok.
Defined.

(** ** Inbound messages *)

(** An integer as template interpolation prints it. *)
Definition toStringZ (z : Z) : jsstring :=
  if (z <? 0)%Z then MINUS :: toString (Z.abs_N z) else toString (Z.abs_N z).

(** What the handlers of [connect] read of grammy's [ctx]. *)
Record From := mkFrom {
  first_name : list N;
  username : option (list N);
  from_id : Z
}.

Record Entity := mkEntity {
  entity_type : list N;
  offset : nat;
  entity_length : nat
}.

Record Ctx := mkCtx {
  chat_id : Z;
  chat_type : list N;
  chat_title : option (list N);
  from : option From;
  text : list N;
  caption : option (list N);
  date : Z;
  message_id : Z;
  entities : option (list Entity);
  me_username : option (list N)
}.

Inductive Inbound :=
| ChatMetadata (jid ts : list N) (name : option (list N))
| StoreMessage (jid : list N) (msg : NewMessage)
| LogDebugUnregistered (jid : list N)
| LogInfoStored (jid : list N).

(** The messages handed to [onMessage]. *)
Definition stored (evs : list Inbound) : list (list N * NewMessage) :=
  omap (λ e, match e with StoreMessage j m => Some (j, m) | _ => None end) evs.

Section Inbound.
(** config.ts *)
Variable ASSISTANT_NAME : list N.
(** [TRIGGER_PATTERN.test(content)] *)
Variable trigger_test : list N → bool.
Variable toLowerCase : list N → list N.
(** [new Date(seconds * 1000).toISOString()] *)
Variable iso : Z → list N.
(** Whether [registeredGroups()[chatJid]] is there. *)
Variable registered : list N → bool.

(** [a || b] on strings that may be undefined. *)
Definition or_else (a : option jsstring) (b : jsstring) : jsstring :=
  match a with
  | Some s => if truthy s then s else b
  | None => b
  end.

(** [ctx.from?.first_name || ctx.from?.username || ctx.from?.id.toString()
     || 'Unknown'] *)
Definition sender_name_of (ctx : Ctx) : jsstring :=
  match from ctx with
  | Some f =>
      or_else (Some (first_name f))
        (or_else (username f) (or_else (Some (toStringZ (from_id f))) (str "Unknown")))
  | None => str "Unknown"
  end.

(** [ctx.from?.id.toString() || ''] *)
Definition sender_of (ctx : Ctx) : jsstring :=
  match from ctx with
  | Some f => toStringZ (from_id f)
  | None => []
  end.

(** [isBotMentioned]: some entity of type [mention] covers the bot's
    [@username], compared in lower case. *)
Definition isBotMentioned (botUsername content : jsstring) (es : list Entity)
  : bool :=
  existsb
    (λ e, bool_decide (entity_type e = str "mention")
          && bool_decide
               (toLowerCase (slice (offset e) (offset e + entity_length e) content)
                = str "@" ++ botUsername))
    es.

(** The handler of [message:text]. *)
Definition on_text (ctx : Ctx) : list Inbound :=
  if startsWith (str "/") (text ctx) then [] else
  let chatJid := str "tg:" ++ toStringZ (chat_id ctx) in
  let content := text ctx in
  let timestamp := iso (date ctx) in
  let senderName := sender_name_of ctx in
  let sender := sender_of ctx in
  let msgId := toStringZ (message_id ctx) in
  let chatName :=
    if bool_decide (chat_type ctx = str "private") then senderName
    else or_else (chat_title ctx) chatJid in
  let content :=
    match me_username ctx with
    | Some u =>
        let botUsername := toLowerCase u in
        if truthy botUsername then
          if isBotMentioned botUsername content (default [] (entities ctx))
             && negb (trigger_test content)
          then str "@" ++ ASSISTANT_NAME ++ str " " ++ content
          else content
        else content
    | None => content
    end in
  ChatMetadata chatJid timestamp (Some chatName) ::
    (if registered chatJid then
       [StoreMessage chatJid
          {| id := msgId; chat_jid := chatJid; sender := sender;
             sender_name := senderName; content := content;
             timestamp := timestamp; is_from_me := Some false;
             is_bot_message := None |};
        LogInfoStored chatJid]
     else [LogDebugUnregistered chatJid]).

(** [storeNonText(ctx, placeholder)] *)
Definition storeNonText (ctx : Ctx) (placeholder : jsstring) : list Inbound :=
  let chatJid := str "tg:" ++ toStringZ (chat_id ctx) in
  if negb (registered chatJid) then [] else
  let timestamp := iso (date ctx) in
  let senderName := sender_name_of ctx in
  let caption :=
    match caption ctx with
    | Some c => if truthy c then str " " ++ c else []
    | None => []
    end in
  [ChatMetadata chatJid timestamp None;
   StoreMessage chatJid
     {| id := toStringZ (message_id ctx); chat_jid := chatJid;
        sender := sender_of ctx; sender_name := senderName;
        content := placeholder ++ caption; timestamp := timestamp;
        is_from_me := Some false; is_bot_message := None |}].
End Inbound.

Lemma numeric_id_tg s : numeric_id (str "tg:" ++ s) = s.
Proof. reflexivity. Qed.

Lemma send_chunks_addresses now api ch info jid text fuel i calls tr tr' c :
  Forall (λ e, match e with
               | ApiSendMessage chat _ => chat = numeric_id jid
               | _ => True
               end) tr →
  send_chunks now api ch info jid text fuel i calls tr = Some (c, tr') →
  Forall (λ e, match e with
               | ApiSendMessage chat _ => chat = numeric_id jid
               | _ => True
               end) tr'.
Proof.
  revert i calls tr. induction fuel as [|fuel IH]; intros i calls tr Htr; [done|].
  cbn [send_chunks]. destruct (i <? length text); [|by intros [= <- <-]].
  destruct (api calls (numeric_id jid) (slice i (i + MAX_LENGTH) text)) as [mid|].
  - apply IH. unfold notify.
    destruct (i =? 0), (onOutgoingMessage ch);
      repeat (apply Forall_app; split); try done; by repeat constructor.
  - intros [= <- <-]. apply Forall_app. split; [done|]. by repeat constructor.
Qed.

(** X28.  What the channel stores of an inbound update, and where a reply
    to it goes.  A text that starts with [/] and any update of a chat that
    is not registered store no message.  A stored message carries the jid
    [tg:<chat id>], which the channel owns, is marked as not from the bot,
    and its content is the text as received, or the text with
    [@<assistant> ] put in front, which happens only when the trigger
    pattern does not match the text.  Every request that [sendMessage]
    makes for the jid of a stored message goes to the chat the update came
    from. *)
Theorem inbound_messages_and_replies (ASSISTANT_NAME : list N)
    (trigger_test : list N → bool) (toLowerCase : list N → list N)
    (iso : Z → list N) (registered : list N → bool)
    (now : list N) (api : nat → list N → list N → option N) (ch : Channel)
    (ctx : Ctx) (placeholder reply : list N) (evs : list Inbound)
    (jid : list N) (msg : NewMessage) :
  evs = on_text ASSISTANT_NAME trigger_test toLowerCase iso registered ctx
  ∨ evs = storeNonText iso registered ctx placeholder →
  (jid, msg) ∈ stored evs →
  stored evs = [(jid, msg)]
  ∧ jid = str "tg:" ++ toStringZ (chat_id ctx)
  ∧ chat_jid msg = jid
  ∧ startsWith (str "tg:") jid = true
  ∧ registered jid = true
  ∧ is_from_me msg = Some false ∧ is_bot_message msg = None
  ∧ (evs = on_text ASSISTANT_NAME trigger_test toLowerCase iso registered ctx →
     startsWith (str "/") (text ctx) = false
     ∧ (content msg = text ctx
        ∨ content msg = str "@" ++ ASSISTANT_NAME ++ str " " ++ text ctx
          ∧ trigger_test (text ctx) = false))
  ∧ ∃ tr, sendMessage now api ch jid reply = Some tr
      ∧ Forall (λ e, match e with
                     | ApiSendMessage chat _ => chat = toStringZ (chat_id ctx)
                     | _ => True
                     end) tr.
Proof.
  intros Hevs Hin.
  assert (Hshape : stored evs = [(jid, msg)]
                   ∧ jid = str "tg:" ++ toStringZ (chat_id ctx)
                   ∧ chat_jid msg = jid ∧ registered jid = true
                   ∧ is_from_me msg = Some false ∧ is_bot_message msg = None
                   ∧ (evs = on_text ASSISTANT_NAME trigger_test toLowerCase iso
                              registered ctx →
                      startsWith (str "/") (text ctx) = false
                      ∧ (content msg = text ctx
                         ∨ content msg
                           = str "@" ++ ASSISTANT_NAME ++ str " " ++ text ctx
                           ∧ trigger_test (text ctx) = false))).
  { destruct Hevs as [-> | ->].
    - unfold on_text in *. cbv zeta in *.
      destruct (startsWith (str "/") (text ctx)) eqn:Hslash.
      { by apply elem_of_nil in Hin. }
      destruct (registered (str "tg:" ++ toStringZ (chat_id ctx))) eqn:Hreg.
      2:{ by apply elem_of_nil in Hin. }
      cbn [stored omap] in Hin |- *.
      apply list_elem_of_singleton in Hin. injection Hin as -> ->.
      cbn [chat_jid is_from_me is_bot_message content].
      split_and!; try done. intros _. split; [done|].
      destruct (me_username ctx) as [u|]; [|by left].
      destruct (truthy (toLowerCase u)); [|by left].
      destruct (isBotMentioned _ _ _ _); cbn [andb]; [|by left].
      destruct (trigger_test (text ctx)); cbn [negb]; [by left|by right].
    - unfold storeNonText in *. cbv zeta in *.
      destruct (registered (str "tg:" ++ toStringZ (chat_id ctx))) eqn:Hreg;
        cbn [negb] in *.
      2:{ by apply elem_of_nil in Hin. }
      cbn [stored omap] in Hin |- *.
      apply list_elem_of_singleton in Hin. injection Hin as -> ->.
      cbn [chat_jid is_from_me is_bot_message content].
      split_and!; try done.
      intros Heq. exfalso. unfold on_text in Heq. cbv zeta in Heq.
      destruct (startsWith (str "/") (text ctx)); [done|].
      rewrite Hreg in Heq. discriminate Heq. }
  destruct Hshape as (H1 & H2 & H3 & H4 & H5 & H6 & H7).
  split_and!; try done.
  - by rewrite H2.
  - destruct (sendMessage_total now api ch jid reply) as [tr Htr].
    exists tr. split; [done|].
    assert (Hnum : numeric_id jid = toStringZ (chat_id ctx)) by by rewrite H2.
    rewrite <- Hnum. revert Htr. unfold sendMessage.
    destruct (bot ch) as [info|]; [|intros [= <-]; by repeat constructor].
    destruct (length reply <=? MAX_LENGTH).
    + destruct (api 0 (numeric_id jid) reply) as [mid|]; intros [= <-].
      * unfold notify. destruct (onOutgoingMessage ch); by repeat constructor.
      * by repeat constructor.
    + destruct (send_chunks now api ch info jid reply (S (length reply)) 0 0 [])
        as [[c tr0]|] eqn:E; [|done].
      apply send_chunks_addresses in E; [|constructor].
      destruct c; intros [= <-]; (apply Forall_app; split; [done|]);
        by repeat constructor.
Qed.

(** A text message of a registered group chat that mentions the bot. *)
Definition mention_update : Ctx :=
  {| chat_id := -100123; chat_type := str "group";
     chat_title := Some (str "Team"); 
     from := Some (mkFrom (str "Alice") None 42);
     text := str "@andy_ai_bot hello"; caption := None;
     date := 1772013600; message_id := 7;
     entities := Some [mkEntity (str "mention") 0 12];
     me_username := Some (str "andy_ai_bot") |}.

Lemma inbound_messages_and_replies_witness :
  stored (on_text (str "Andy") (λ _, false) (λ s, s) (λ _, str "2026-02-25T10:00:00.000Z")
            (λ _, true) mention_update)
  = [(str "tg:-100123",
      mkNewMessage (str "7") (str "tg:-100123") (str "42") (str "Alice")
        (str "@Andy @andy_ai_bot hello") (str "2026-02-25T10:00:00.000Z")
        (Some false) None)]
  ∧ ∃ tr, sendMessage [] example_api example_channel (str "tg:-100123") (str "hi")
          = Some tr
      ∧ Forall (λ e, match e with
                     | ApiSendMessage chat _ => chat = str "-100123"
                     | _ => True
                     end) tr.
Proof.
  destruct (inbound_messages_and_replies (str "Andy") (λ _, false) (λ s, s)
              (λ _, str "2026-02-25T10:00:00.000Z") (λ _, true)
              [] example_api example_channel mention_update [] (str "hi")
              _ (str "tg:-100123")
              (mkNewMessage (str "7") (str "tg:-100123") (str "42") (str "Alice")
                 (str "@Andy @andy_ai_bot hello") (str "2026-02-25T10:00:00.000Z")
                 (Some false) None)
              (or_introl eq_refl))
    as (H1 & _ & _ & _ & _ & _ & _ & _ & Hsend).
  - apply list_elem_of_here.
  - split; [exact H1|exact Hsend].
Defined.

End Telegram.

(* ===================================================================== *)
(** * src/index.ts: acquireSingletonLock *)
(* ===================================================================== *)

Module Lock.
Import JS Types.

(** How [process.kill(p, 0)] ends: it returns (the signal could be sent),
    or it throws [ESRCH] (no such process) or [EPERM] (the process exists
    and this user may not signal it). *)
Inductive Signal :=
| Delivered
| NoSuchProcess
| NotPermitted.

(** The host as [acquireSingletonLock] sees it.  Failures of the file system
    and the doings of other processes are inputs, indexed by the attempt of
    the [for] loop in which they strike.  Other processes may touch the
    lock file before every file-system call of this one: each [rival...]
    field maps what the path held to what it holds when the call is made
    ([None]: no such file). *)
Record Host := mkHost {
  pid : N;                             (* process.pid *)
  probe : N → Signal;                  (* process.kill(p, 0) *)
  new_fd : N;                          (* descriptor handed out by openSync *)
  to_number : N → option N;            (* the Number a parsed integer becomes;
                                          None when it is Infinity *)
  open_error : nat → option (list N);  (* openSync fails, not with EEXIST *)
  write_error : nat → option (list N); (* writeFileSync(fd, ...) fails,
                                          not with EEXIST *)
  read_error : nat → bool;             (* readFileSync fails *)
  unlink_error : nat → bool;           (* unlinkSync fails *)
  rival : nat → option (list N) → option (list N);
                                       (* before this attempt's openSync *)
  rival_read : nat → option (list N) → option (list N);
                                       (* between EEXIST and readFileSync *)
  rival_unlink : nat → option (list N) → option (list N);
                                       (* between the read and unlinkSync *)
  rival_written : nat → option (list N) → option (list N)
                                       (* between the creation of the file
                                          and the end of the call: from
                                          what this process made of the
                                          file to what the path holds *)
}.

(** Whether the process [p] exists, as far as [process.kill(p, 0)] tells. *)
Definition alive (h : Host) (p : N) : bool :=
  match probe h p with
  | NoSuchProcess => false
  | Delivered | NotPermitted => true
  end.

Inductive Event :=
| OpenExclusive (attempt : nat)
| WritePid (p : N)
| LogInfoAcquired (p : N)
| ReadLock
| ProbePid (p : N)
| LogFatalAlreadyRunning (p : N)
| LogWarnStale (p : N)
| LogWarnOwnPid (p : N)
| LogWarnNoValidPid
| Unlink
| LogFatalUnlinkFailed
| LogFatalGaveUp.

(** How the call ends: it returns holding the lock, it calls
    [process.exit(code)], or it throws the error [code]. *)
Inductive Outcome :=
| Acquired
| Exit (code : N)
| Thrown (code : list N).

(** The lock file ([None]: no such file) and [singletonLockFd]. *)
Record World := mkWorld {
  lock_file : option (list N);
  singletonLockFd : option N
}.

(** [Number.parseInt(raw, 10)] followed by
    [if (Number.isFinite(parsed) && parsed > 0) existingPid = parsed]. *)
Definition valid_pid (h : Host) (raw : jsstring) : option N :=
  match parseInt10 raw with
  | Some z =>
      match to_number h (Z.abs_N z) with
      | Some n => if (0 <? z)%Z && (0 <? n)%N then Some n else None
      | None => None
      end
  | None => None
  end.

(** The inner [try { readFileSync ... } catch {}]: the PID recorded in the
    lock file, [None] for [null]. *)
Definition read_existing_pid (h : Host) (attempt : nat) (f : option (list N))
  : option N :=
  if read_error h attempt then None else
  match f with
  | None => None
  | Some content => valid_pid h (trim content)
  end.

(** The lock file this process writes: [`${process.pid}\n`]. *)
Definition own_lock (h : Host) : jsstring := toString (pid h) ++ [LF].

(** [for (let attempt = 0; attempt < 2; attempt++) { ... }] with [left]
    iterations to go, followed by the final [logger.fatal] and
    [process.exit(1)].  [process.kill] throwing, for whatever reason, is
    the bare [catch] that logs a stale lock. *)
Fixpoint attempts (h : Host) (left attempt : nat) (w : World) (tr : list Event)
  : Outcome * World * list Event :=
  match left with
  | 0 => (Exit 1, w, tr ++ [LogFatalGaveUp])
  | S left' =>
      let fd := singletonLockFd w in
      let f := rival h attempt (lock_file w) in
      let tr := tr ++ [OpenExclusive attempt] in
      match open_error h attempt with
      | Some e => (Thrown e, mkWorld f fd, tr)
      | None =>
          match f with
          | None =>
              (* the file is created; the PID is written through the fd *)
              let tr := tr ++ [WritePid (pid h)] in
              match write_error h attempt with
              | Some e =>
                  (Thrown e, mkWorld (rival_written h attempt (Some [])) fd, tr)
              | None =>
                  (Acquired,
                   mkWorld (rival_written h attempt (Some (own_lock h)))
                           (Some (new_fd h)),
                   tr ++ [LogInfoAcquired (pid h)])
              end
          | Some _ =>
              (* EEXIST *)
              let f := rival_read h attempt f in
              let tr := tr ++ [ReadLock] in
              let existingPid := read_existing_pid h attempt f in
              (* the second [try]: unlink, then go round the loop again;
                 unlinking a file that is gone fails with ENOENT *)
              let clear_stale (tr : list Event) :=
                let f := rival_unlink h attempt f in
                let tr := tr ++ [Unlink] in
                if unlink_error h attempt || negb (bool_decide (is_Some f))
                then (Exit 1, mkWorld f fd, tr ++ [LogFatalUnlinkFailed])
                else attempts h left' (S attempt) (mkWorld None fd) tr in
              match existingPid with
              | Some p =>
                  if negb (p =? pid h)%N then
                    match probe h p with
                    | Delivered =>
                        (Exit 1, mkWorld f fd,
                         tr ++ [ProbePid p; LogFatalAlreadyRunning p])
                    | NoSuchProcess | NotPermitted =>
                        clear_stale (tr ++ [ProbePid p; LogWarnStale p])
                    end
                  else clear_stale (tr ++ [LogWarnOwnPid p])
              | None => clear_stale (tr ++ [LogWarnNoValidPid])
              end
          end
      end
  end.

Definition acquireSingletonLock (h : Host) (w : World)
  : Outcome * World * list Event :=
  attempts h 2 0 w [].

(** The [openSync] calls of a trace, by attempt. *)
Definition opens (tr : list Event) : list nat :=
  omap (λ e, match e with OpenExclusive a => Some a | _ => None end) tr.

Lemma opens_app tr1 tr2 : opens (tr1 ++ tr2) = opens tr1 ++ opens tr2.
Proof. apply omap_app. Qed.

(** The loop calls [openSync] once per iteration it enters. *)
Lemma attempts_opens h left attempt w tr :
  length (opens (attempts h left attempt w tr).2) ≤ length (opens tr) + left.
Proof.
  revert attempt w tr. induction left as [|left IH]; intros attempt w tr.
  - cbn [attempts snd]. rewrite opens_app, length_app. simpl. lia.
  - cbn [attempts].
    assert (Hstep : ∀ evs, opens evs = [] →
              length (opens ((tr ++ [OpenExclusive attempt]) ++ evs))
              ≤ length (opens tr) + S left).
    { intros evs Hevs. rewrite !opens_app, !length_app, Hevs. simpl. lia. }
    assert (Hrec : ∀ evs w', opens evs = [] →
              length (opens (attempts h left (S attempt) w'
                               ((tr ++ [OpenExclusive attempt]) ++ evs)).2)
              ≤ length (opens tr) + S left).
    { intros evs w' Hevs. etrans; [apply IH|].
      rewrite !opens_app, !length_app, Hevs. simpl. lia. }
    destruct (open_error h attempt); cbn [snd].
    { rewrite <- (app_nil_r (tr ++ _)). by apply Hstep. }
    destruct (rival h attempt (lock_file w)).
    2:{ destruct (write_error h attempt); cbn [snd];
          rewrite <- ?app_assoc; rewrite app_assoc; by apply Hstep. }
    destruct (read_existing_pid h attempt _) as [p|].
    + destruct (negb (p =? pid h)%N); [destruct (probe h p)|];
        try destruct (unlink_error h attempt || _); cbn [snd];
        rewrite <- ?app_assoc; rewrite app_assoc;
        first [by apply Hstep | by apply Hrec].
    + destruct (unlink_error h attempt || _); cbn [snd];
        rewrite <- ?app_assoc; rewrite app_assoc;
        first [by apply Hstep | by apply Hrec].
Qed.

(** The lock policy in terms of what [process.kill(p, 0)] does.  Suppose
    the lock file exists when the process starts and records a valid PID
    [p] of another process, and nobody touches the file meanwhile.  If the
    signal can be sent, the call ends in [process.exit(1)] after a fatal
    log, leaving the lock alone.  If [process.kill] throws and the stale
    file cannot be unlinked, the call also ends in [process.exit(1)] after
    a fatal log.  If [process.kill] throws and the unlink succeeds, the
    second attempt (the one retry) creates the file again with this
    process's PID and the call returns holding the lock.  In no case does
    the call open the lock file more than twice. *)
Lemma lock_policy (h : Host) (w : World) (content : list N) (p : N) :
  rival h 0 (lock_file w) = Some content →
  open_error h 0 = None →
  rival_read h 0 (Some content) = Some content →
  read_existing_pid h 0 (Some content) = Some p →
  p ≠ pid h →
  (probe h p = Delivered →
     acquireSingletonLock h w =
       (Exit 1, mkWorld (Some content) (singletonLockFd w),
        [OpenExclusive 0; ReadLock; ProbePid p; LogFatalAlreadyRunning p]))
  ∧ (probe h p ≠ Delivered →
     rival_unlink h 0 (Some content) = Some content →
     unlink_error h 0 = true →
     acquireSingletonLock h w =
       (Exit 1, mkWorld (Some content) (singletonLockFd w),
        [OpenExclusive 0; ReadLock; ProbePid p; LogWarnStale p; Unlink;
         LogFatalUnlinkFailed]))
  ∧ (probe h p ≠ Delivered →
     rival_unlink h 0 (Some content) = Some content →
     unlink_error h 0 = false →
     rival h 1 None = None → open_error h 1 = None → write_error h 1 = None →
     rival_written h 1 (Some (own_lock h)) = Some (own_lock h) →
     acquireSingletonLock h w =
       (Acquired, mkWorld (Some (own_lock h)) (Some (new_fd h)),
        [OpenExclusive 0; ReadLock; ProbePid p; LogWarnStale p; Unlink;
         OpenExclusive 1; WritePid (pid h); LogInfoAcquired (pid h)]))
  ∧ length (opens (acquireSingletonLock h w).2) ≤ 2.
Proof.
  intros Hfile Hopen Hr0 Hread Hp.
  assert (Hne : negb (p =? pid h)%N = true).
  { apply negb_true_iff. by apply N.eqb_neq. }
  split_and!.
  - intros Hlive. unfold acquireSingletonLock. cbn [attempts lock_file].
    by rewrite Hfile, Hopen, Hr0, Hread, Hne, Hlive.
  - intros Hdead Hu0 Hunlink. unfold acquireSingletonLock. cbn [attempts lock_file].
    rewrite Hfile, Hopen, Hr0, Hu0, Hread, Hne, Hunlink.
    by destruct (probe h p).
  - intros Hdead Hu0 Hunlink Hrival Hopen1 Hwrite1 Hw1.
    unfold acquireSingletonLock. cbn [attempts lock_file].
    rewrite Hfile, Hopen, Hr0, Hu0, Hread, Hne, Hunlink.
    cbn [lock_file singletonLockFd orb negb].
    rewrite Hrival, Hopen1, Hwrite1, Hw1.
    by destruct (probe h p).
  - apply (attempts_opens h 2 0 w []).
Qed.

(** A quiet host: no file-system failures, no rivals, exact numbers. *)
Definition quiet_host (signal : N → Signal) (unlink_fails : bool) : Host :=
  {| pid := 4242; probe := signal; new_fd := 3; to_number := Some;
     open_error := λ _, None; write_error := λ _, None;
     read_error := λ _, false; unlink_error := λ _, unlink_fails;
     rival := λ _ f, f; rival_read := λ _ f, f; rival_unlink := λ _ f, f;
     rival_written := λ _ f, f |}.

Definition held_by_1234 : World :=
  {| lock_file := Some (str "1234
"); singletonLockFd := None |}.

Example lock_policy_examples :
  acquireSingletonLock (quiet_host (λ _, Delivered) false) held_by_1234 =
    (Exit 1, held_by_1234,
     [OpenExclusive 0; ReadLock; ProbePid 1234; LogFatalAlreadyRunning 1234])
  ∧ acquireSingletonLock (quiet_host (λ _, NoSuchProcess) true) held_by_1234 =
    (Exit 1, held_by_1234,
     [OpenExclusive 0; ReadLock; ProbePid 1234; LogWarnStale 1234; Unlink;
      LogFatalUnlinkFailed])
  ∧ acquireSingletonLock (quiet_host (λ _, NoSuchProcess) false) held_by_1234 =
    (Acquired, mkWorld (Some (str "4242
")) (Some 3%N),
     [OpenExclusive 0; ReadLock; ProbePid 1234; LogWarnStale 1234; Unlink;
      OpenExclusive 1; WritePid 4242; LogInfoAcquired 4242]).
Proof.
  split_and!.
  - apply (lock_policy (quiet_host (λ _, Delivered) false) held_by_1234
             (str "1234
") 1234); try reflexivity; done.
  - apply (lock_policy (quiet_host (λ _, NoSuchProcess) true) held_by_1234
             (str "1234
") 1234); try reflexivity; done.
  - apply (lock_policy (quiet_host (λ _, NoSuchProcess) false) held_by_1234
             (str "1234
") 1234); try reflexivity; done.
Qed.

(** C8.  The claim fails on the code for a holder that is alive and that
    this process may not signal.  The lock file records PID 1234, the
    process 1234 exists, and [process.kill(1234, 0)] throws [EPERM] (the
    holder runs as another user).  The bare [catch] takes this for a dead
    process: the call logs a stale lock, unlinks the holder's lock file,
    creates its own at the second attempt and returns holding the lock,
    where the claim has it exit with a fatal error. *)
Theorem live_holder_loses_lock :
  let h := quiet_host (λ _, NotPermitted) false in
  read_existing_pid h 0 (lock_file held_by_1234) = Some 1234%N
  ∧ 1234%N ≠ pid h
  ∧ alive h 1234 = true
  ∧ acquireSingletonLock h held_by_1234 =
      (Acquired, mkWorld (Some (str "4242
")) (Some 3%N),
       [OpenExclusive 0; ReadLock; ProbePid 1234; LogWarnStale 1234; Unlink;
        OpenExclusive 1; WritePid 4242; LogInfoAcquired 4242]).
Proof. cbv zeta. split_and!; [reflexivity|discriminate|reflexivity|reflexivity]. Qed.

(** A lock that keeps reappearing is given up on after the second attempt. *)
Example rival_keeps_recreating :
  (acquireSingletonLock
     {| pid := 4242; probe := λ _, NoSuchProcess; new_fd := 3; to_number := Some;
        open_error := λ _, None; write_error := λ _, None;
        read_error := λ _, false; unlink_error := λ _, false;
        rival := λ _ _, Some (str "garbage");
        rival_read := λ _ f, f; rival_unlink := λ _ f, f;
        rival_written := λ _ f, f |}
     {| lock_file := None; singletonLockFd := None |}).1.1 = Exit 1.
Proof. reflexivity. Qed.

(** An error of [openSync] other than EEXIST is rethrown. *)
Example open_fails_otherwise :
  (acquireSingletonLock
     {| pid := 4242; probe := λ _, NoSuchProcess; new_fd := 3; to_number := Some;
        open_error := λ _, Some (str "EACCES"); write_error := λ _, None;
        read_error := λ _, false; unlink_error := λ _, false;
        rival := λ _ f, f;
        rival_read := λ _ f, f; rival_unlink := λ _ f, f;
        rival_written := λ _ f, f |}
     held_by_1234).1.1 = Thrown (str "EACCES").
Proof. reflexivity. Qed.

(** The holder releases the lock between this process's [openSync] and
    its [unlinkSync]: the unlink fails with ENOENT, which is fatal. *)
Example lock_released_meanwhile :
  acquireSingletonLock
    {| pid := 4242; probe := λ _, NoSuchProcess; new_fd := 3; to_number := Some;
       open_error := λ _, None; write_error := λ _, None;
       read_error := λ _, false; unlink_error := λ _, false;
       rival := λ _ f, f;
       rival_read := λ _ f, f; rival_unlink := λ _ _, None;
       rival_written := λ _ f, f |}
    held_by_1234
  = (Exit 1, mkWorld None None,
     [OpenExclusive 0; ReadLock; ProbePid 1234; LogWarnStale 1234; Unlink;
      LogFatalUnlinkFailed]).
Proof. reflexivity. Qed.

(** ** More of the lock: what acquisition guarantees, and release *)

(** What [releaseSingletonLock] does to the world of the lock.  Both [try]
    blocks swallow their errors: [close_fails] is [fs.closeSync] throwing,
    [unlink_fails] is [fs.unlinkSync] throwing. *)
Inductive ReleaseEvent :=
| CloseFd (fd : N)
| UnlinkLock.

Definition releaseSingletonLock (close_fails unlink_fails : bool) (w : World)
  : World * list ReleaseEvent :=
  let closing :=
    match singletonLockFd w with
    | Some fd => [CloseFd fd]
    | None => []
    end in
  match lock_file w with
  | Some _ =>
      (* fs.existsSync(lockPath) *)
      if unlink_fails
      then (mkWorld (lock_file w) None, closing ++ [UnlinkLock])
      else (mkWorld None None, closing ++ [UnlinkLock])
  | None => (mkWorld None None, closing)
  end.

(** How a call can end.  It returns only from an attempt [a] whose
    [openSync] found the path free and created the file; the trace then
    ends with that creation, the write of the PID and the log line. *)
Definition taken_at (h : Host) (w' : World) (tr' : list Event) (a : nat) : Prop :=
  w' = mkWorld (rival_written h a (Some (own_lock h))) (Some (new_fd h))
  ∧ ∃ tr0, tr' = tr0 ++ [OpenExclusive a; WritePid (pid h);
                          LogInfoAcquired (pid h)].

Lemma attempts_outcome h left attempt w tr :
  match (attempts h left attempt w tr).1.1 with
  | Acquired =>
      ∃ a, attempt ≤ a < attempt + left
           ∧ taken_at h (attempts h left attempt w tr).1.2
               (attempts h left attempt w tr).2 a
  | _ =>
      singletonLockFd (attempts h left attempt w tr).1.2 = singletonLockFd w
  end.
Proof.
  revert attempt w tr. induction left as [|left IH]; intros attempt w tr; [done|].
  cbn [attempts].
  destruct (open_error h attempt); [done|].
  destruct (rival h attempt (lock_file w)) as [content|].
  2:{ destruct (write_error h attempt); [done|]. cbn [fst snd].
      exists attempt. split; [lia|]. split; [done|].
      exists tr. by rewrite <- !app_assoc. }
  assert (Hrec : ∀ tr',
            match (attempts h left (S attempt)
                     (mkWorld None (singletonLockFd w)) tr').1.1 with
            | Acquired =>
                ∃ a, attempt ≤ a < attempt + S left
                     ∧ taken_at h
                         (attempts h left (S attempt)
                            (mkWorld None (singletonLockFd w)) tr').1.2
                         (attempts h left (S attempt)
                            (mkWorld None (singletonLockFd w)) tr').2 a
            | _ =>
                singletonLockFd
                  (attempts h left (S attempt)
                     (mkWorld None (singletonLockFd w)) tr').1.2
                = singletonLockFd w
            end).
  { intros tr'.
    pose proof (IH (S attempt) (mkWorld None (singletonLockFd w)) tr') as H.
    destruct (attempts h left (S attempt) _ tr').1.1; try done.
    destruct H as (a & Ha & H). exists a. split; [lia|done]. }
  destruct (read_existing_pid h attempt _) as [p|].
  - destruct (negb (p =? pid h)%N); [destruct (probe h p); [done| |]|];
      (destruct (unlink_error h attempt || _); [done|apply Hrec]).
  - destruct (unlink_error h attempt || _); [done|apply Hrec].
Qed.

(** X1.  When [acquireSingletonLock] returns, it is from an attempt (the
    first or the second) whose [openSync] created the lock file: the last
    effects of the call are that creation, the write of this process's
    PID and a line break through the new descriptor, and the log line,
    and [singletonLockFd] is that descriptor.  What the path then holds
    is what other processes made of the file since its creation; if none
    touched it, it holds the PID and the line break.  When the call exits
    or throws instead, [singletonLockFd] is what it was. *)
Theorem acquired_means_own_lock (h : Host) (w : World) :
  match (acquireSingletonLock h w).1.1 with
  | Acquired =>
      ∃ a tr0,
        a < 2
        ∧ (acquireSingletonLock h w).2
          = tr0 ++ [OpenExclusive a; WritePid (pid h); LogInfoAcquired (pid h)]
        ∧ singletonLockFd (acquireSingletonLock h w).1.2 = Some (new_fd h)
        ∧ lock_file (acquireSingletonLock h w).1.2
          = rival_written h a (Some (own_lock h))
        ∧ (rival_written h a (Some (own_lock h)) = Some (own_lock h) →
           (acquireSingletonLock h w).1.2
           = mkWorld (Some (own_lock h)) (Some (new_fd h)))
  | _ =>
      singletonLockFd (acquireSingletonLock h w).1.2 = singletonLockFd w
  end.
Proof.
  pose proof (attempts_outcome h 2 0 w []) as H.
  fold (acquireSingletonLock h w) in H.
  destruct (acquireSingletonLock h w) as [[o w'] tr']. cbn [fst snd] in *.
  destruct o; [|done|done].
  destruct H as (a & Ha & -> & tr0 & ->).
  exists a, tr0. cbn [singletonLockFd lock_file]. split_and!; try done; [lia|].
  by intros ->.
Qed.

(** A rival that deletes the new lock file at once: the call still returns,
    and the path is free for the next process. *)
Example lock_deleted_after_creation :
  acquireSingletonLock
    {| pid := 4242; probe := λ _, NoSuchProcess; new_fd := 3; to_number := Some;
       open_error := λ _, None; write_error := λ _, None;
       read_error := λ _, false; unlink_error := λ _, false;
       rival := λ _ f, f;
       rival_read := λ _ f, f; rival_unlink := λ _ f, f;
       rival_written := λ _ _, None |}
    {| lock_file := None; singletonLockFd := None |}
  = (Acquired, mkWorld None (Some 3%N),
     [OpenExclusive 0; WritePid 4242; LogInfoAcquired 4242]).
Proof. reflexivity. Qed.

Lemma attempts_need_free_path h left attempt w tr :
  (∀ a f, is_Some (rival h a f)) →
  (attempts h left attempt w tr).1.1 ≠ Acquired.
Proof.
  intros Hrival. revert attempt w tr.
  induction left as [|left IH]; intros attempt w tr; [done|].
  cbn [attempts].
  destruct (open_error h attempt); [done|].
  destruct (Hrival attempt (lock_file w)) as [content ->].
  destruct (read_existing_pid h attempt _) as [p|].
  - destruct (negb (p =? pid h)%N); [destruct (probe h p); [done| |]|];
      (destruct (unlink_error h attempt || _); [done|apply IH]).
  - destruct (unlink_error h attempt || _); [done|apply IH].
Qed.

(** X2.  The lock is only ever taken by creating the file: if a lock file
    is present each time the call tries to open it (someone keeps writing
    one), the call never returns holding the lock, whatever the file says
    and whether or not its writer is alive. *)
Theorem never_acquires_over_a_lock_file (h : Host) (w : World) :
  (∀ a f, is_Some (rival h a f)) →
  (acquireSingletonLock h w).1.1 ≠ Acquired.
Proof. apply attempts_need_free_path. Qed.

Lemma never_acquires_over_a_lock_file_witness :
  (acquireSingletonLock
     {| pid := 4242; probe := λ _, NoSuchProcess; new_fd := 3; to_number := Some;
        open_error := λ _, None; write_error := λ _, None;
        read_error := λ _, false; unlink_error := λ _, false;
        rival := λ _ _, Some (str "garbage");
        rival_read := λ _ f, f; rival_unlink := λ _ f, f;
        rival_written := λ _ f, f |}
     {| lock_file := None; singletonLockFd := None |}).1.1 ≠ Acquired.
Proof.
  apply never_acquires_over_a_lock_file. intros a f. by eexists.
Defined.

(** X3.  A lock file without a valid PID (empty, garbled, unreadable) or
    with this process's own PID is treated as stale without asking the
    process table: if nobody touches the file meanwhile, it is unlinked,
    and the second attempt takes the lock. *)
Theorem lock_without_foreign_pid_is_reclaimed (h : Host) (w : World)
    (content : list N) :
  rival h 0 (lock_file w) = Some content →
  open_error h 0 = None →
  rival_read h 0 (Some content) = Some content →
  read_existing_pid h 0 (Some content) = None
  ∨ read_existing_pid h 0 (Some content) = Some (pid h) →
  rival_unlink h 0 (Some content) = Some content →
  unlink_error h 0 = false →
  rival h 1 None = None → open_error h 1 = None → write_error h 1 = None →
  rival_written h 1 (Some (own_lock h)) = Some (own_lock h) →
  ∃ warning,
    acquireSingletonLock h w =
      (Acquired, mkWorld (Some (own_lock h)) (Some (new_fd h)),
       [OpenExclusive 0; ReadLock; warning; Unlink;
        OpenExclusive 1; WritePid (pid h); LogInfoAcquired (pid h)])
    ∧ (warning = LogWarnNoValidPid ∨ warning = LogWarnOwnPid (pid h)).
Proof.
  intros Hfile Hopen Hr0 Hread Hu0 Hunlink Hrival Hopen1 Hwrite1 Hw1.
  unfold acquireSingletonLock. cbn [attempts lock_file].
  rewrite Hfile, Hopen, Hr0, Hu0. destruct Hread as [-> | ->].
  - rewrite Hunlink. cbn [lock_file singletonLockFd orb negb].
    rewrite Hrival, Hopen1, Hwrite1, Hw1.
    exists LogWarnNoValidPid. by split; [|left].
  - rewrite N.eqb_refl. cbn [negb]. rewrite Hunlink.
    cbn [lock_file singletonLockFd orb negb].
    rewrite Hrival, Hopen1, Hwrite1, Hw1. exists (LogWarnOwnPid (pid h)).
    by split; [|right].
Qed.

Lemma lock_without_foreign_pid_is_reclaimed_witness :
  ∃ warning,
    acquireSingletonLock (quiet_host (λ _, Delivered) false)
      {| lock_file := Some (str "not a pid"); singletonLockFd := None |} =
      (Acquired, mkWorld (Some (own_lock (quiet_host (λ _, Delivered) false)))
                   (Some 3%N),
       [OpenExclusive 0; ReadLock; warning; Unlink;
        OpenExclusive 1; WritePid 4242; LogInfoAcquired 4242])
    ∧ (warning = LogWarnNoValidPid ∨ warning = LogWarnOwnPid 4242).
Proof.
  apply (lock_without_foreign_pid_is_reclaimed (quiet_host (λ _, Delivered) false)
           {| lock_file := Some (str "not a pid"); singletonLockFd := None |}
           (str "not a pid")); try reflexivity.
  left. reflexivity.
Defined.

(** The lock file a process writes is read back as its PID. *)
Lemma read_own_lock h h' attempt :
  read_error h' attempt = false →
  to_number h' (pid h) = Some (pid h) →
  (0 < pid h)%N →
  read_existing_pid h' attempt (Some (own_lock h)) = Some (pid h).
Proof.
  intros Hread Hnum Hpos. unfold read_existing_pid, own_lock, valid_pid.
  rewrite Hread, trim_toString_lf, parseInt10_toString.
  rewrite Zabs2N.id, Hnum.
  rewrite (proj2 (Z.ltb_lt 0 (Z.of_N (pid h)))) by lia.
  by rewrite (proj2 (N.ltb_lt 0 (pid h))).
Qed.

(** X4.  Mutual exclusion, as far as it goes.  One process has taken the
    lock and is alive, nobody else touches the lock file, and a second
    process (another PID) starts.  It reads the first one's PID from the
    lock file.  If it can signal the first ([process.kill] returns), it
    exits with code 1 and leaves the lock file as it is.  If it may not
    ([process.kill] throws [EPERM]: the first runs as another user), it
    logs a stale lock, unlinks the file and takes the lock itself, so
    that both processes run. *)
Theorem second_instance_exits (h1 h2 : Host) (w : World) :
  (acquireSingletonLock h1 w).1.1 = Acquired →
  (∀ a, rival_written h1 a (Some (own_lock h1)) = Some (own_lock h1)) →
  (0 < pid h1)%N →
  pid h2 ≠ pid h1 →
  alive h2 (pid h1) = true →
  to_number h2 (pid h1) = Some (pid h1) →
  rival h2 0 (Some (own_lock h1)) = Some (own_lock h1) →
  open_error h2 0 = None →
  rival_read h2 0 (Some (own_lock h1)) = Some (own_lock h1) →
  read_error h2 0 = false →
  let w2 := mkWorld (lock_file (acquireSingletonLock h1 w).1.2) None in
  (probe h2 (pid h1) = Delivered →
   acquireSingletonLock h2 w2
   = (Exit 1, mkWorld (Some (own_lock h1)) None,
      [OpenExclusive 0; ReadLock; ProbePid (pid h1);
       LogFatalAlreadyRunning (pid h1)]))
  ∧ (probe h2 (pid h1) ≠ Delivered →
     rival_unlink h2 0 (Some (own_lock h1)) = Some (own_lock h1) →
     unlink_error h2 0 = false →
     rival h2 1 None = None → open_error h2 1 = None → write_error h2 1 = None →
     rival_written h2 1 (Some (own_lock h2)) = Some (own_lock h2) →
     probe h2 (pid h1) = NotPermitted
     ∧ acquireSingletonLock h2 w2
       = (Acquired, mkWorld (Some (own_lock h2)) (Some (new_fd h2)),
          [OpenExclusive 0; ReadLock; ProbePid (pid h1); LogWarnStale (pid h1);
           Unlink; OpenExclusive 1; WritePid (pid h2); LogInfoAcquired (pid h2)])).
Proof.
  intros Hacq Hkept Hpos Hpid Halive Hnum Hrival Hopen Hr0 Hread w2.
  pose proof (attempts_outcome h1 2 0 w []) as Hworld.
  fold (acquireSingletonLock h1 w) in Hworld. rewrite Hacq in Hworld.
  destruct Hworld as (a & _ & Hw & _).
  assert (Hw2 : w2 = mkWorld (Some (own_lock h1)) None).
  { subst w2. by rewrite Hw, Hkept. }
  rewrite Hw2.
  destruct (lock_policy h2 (mkWorld (Some (own_lock h1)) None) (own_lock h1)
              (pid h1) Hrival Hopen Hr0
              (read_own_lock h1 h2 0 Hread Hnum Hpos) (not_eq_sym Hpid))
    as (H1 & _ & H3 & _).
  split; [exact H1|].
  intros Hno Hu0 Hunlink Hrival1 Hopen1 Hwrite1 Hw1. split.
  - unfold alive in Halive. by destruct (probe h2 (pid h1)).
  - by apply H3.
Qed.

Definition second_host (signal : Signal) : Host :=
  {| pid := 5000; probe := λ _, signal; new_fd := 3; to_number := Some;
     open_error := λ _, None; write_error := λ _, None;
     read_error := λ _, false; unlink_error := λ _, false;
     rival := λ _ f, f; rival_read := λ _ f, f; rival_unlink := λ _ f, f;
     rival_written := λ _ f, f |}.

Lemma second_instance_exits_witness :
  let first := acquireSingletonLock (quiet_host (λ _, NoSuchProcess) false)
                 {| lock_file := None; singletonLockFd := None |} in
  acquireSingletonLock (second_host Delivered)
    (mkWorld (lock_file first.1.2) None)
  = (Exit 1, mkWorld (Some (str "4242
")) None,
     [OpenExclusive 0; ReadLock; ProbePid 4242; LogFatalAlreadyRunning 4242])
  ∧ acquireSingletonLock (second_host NotPermitted)
      (mkWorld (lock_file first.1.2) None)
    = (Acquired, mkWorld (Some (str "5000
")) (Some 3%N),
       [OpenExclusive 0; ReadLock; ProbePid 4242; LogWarnStale 4242;
        Unlink; OpenExclusive 1; WritePid 5000; LogInfoAcquired 5000]).
Proof.
  cbv zeta. split.
  - apply (second_instance_exits (quiet_host (λ _, NoSuchProcess) false)
             (second_host Delivered)
             {| lock_file := None; singletonLockFd := None |});
      try reflexivity; try discriminate; by repeat split.
  - apply (second_instance_exits (quiet_host (λ _, NoSuchProcess) false)
             (second_host NotPermitted)
             {| lock_file := None; singletonLockFd := None |});
      try reflexivity; try discriminate; by repeat split.
Defined.

(** X5.  [releaseSingletonLock] always forgets the descriptor, also when
    closing or unlinking fails.  When unlinking works it removes the lock
    file whoever wrote it, and a process that then starts on a quiet host
    takes the lock at its first attempt. *)
Theorem release_frees_the_lock (close_fails unlink_fails : bool) (w : World)
    (h : Host) :
  let w' := (releaseSingletonLock close_fails unlink_fails w).1 in
  singletonLockFd w' = None
  ∧ lock_file w' = (if unlink_fails then lock_file w else None)
  ∧ (unlink_fails = false →
     rival h 0 None = None → open_error h 0 = None → write_error h 0 = None →
     rival_written h 0 (Some (own_lock h)) = Some (own_lock h) →
     acquireSingletonLock h w'
     = (Acquired, mkWorld (Some (own_lock h)) (Some (new_fd h)),
        [OpenExclusive 0; WritePid (pid h); LogInfoAcquired (pid h)])).
Proof.
  unfold releaseSingletonLock.
  destruct (lock_file w) as [content|] eqn:Hfile, unlink_fails;
    cbn [fst singletonLockFd lock_file]; (split; [done|split; [done|]]);
    try done; intros _ Hrival Hopen Hwrite Hkept;
    unfold acquireSingletonLock; cbn [attempts lock_file singletonLockFd];
    by rewrite Hrival, Hopen, Hwrite, Hkept.
Qed.

Lemma release_frees_the_lock_witness :
  acquireSingletonLock (second_host Delivered)
    (releaseSingletonLock false false held_by_1234).1
  = (Acquired, mkWorld (Some (str "5000
")) (Some 3%N),
     [OpenExclusive 0; WritePid 5000; LogInfoAcquired 5000]).
Proof.
  destruct (release_frees_the_lock false false held_by_1234 (second_host Delivered))
    as (_ & _ & H).
  apply H; reflexivity.
Defined.

End Lock.

(* ===================================================================== *)
(** * src/index.ts: the router *)
(* ===================================================================== *)

Module Router.
Import JS Types.

(** ** Data *)

(** [ContainerOutput] of container-runner.ts.  [result] is a string, an
    object or null; an object is carried by its [JSON.stringify] text. *)
Inductive Status := StatusSuccess | StatusError | StatusOther.

Inductive Payload :=
| PNull
| PString (s : list N)
| PObject (json : list N).

Record ContainerOutput := mkOutput {
  status : Status;
  result : Payload;
  newSessionId : option (list N);
  error : option (list N)
}.

(** [ContainerInput].  [sessionId] is what [sessions[group.folder]]
    evaluates to. *)
Record ContainerInput := mkInput {
  prompt : list N;
  sessionId : Property (list N);
  groupFolder : list N;
  chatJid : list N;
  isMain : bool;
  assistantName : list N
}.

(** What [runAgent] returns. *)
Inductive AgentStatus := AgentSuccess | AgentError.

(** [output === 'error'] *)
Definition is_error (a : AgentStatus) : bool :=
  match a with AgentError => true | AgentSuccess => false end.

Record Task := mkTask {
  task_id : list N;
  group_folder : list N;
  task_prompt : list N;
  schedule_type : list N;
  schedule_value : list N;
  task_status : list N;
  next_run : option (list N)
}.

Record ChatInfo := mkChat {
  jid : list N;
  chat_name : list N;
  last_message_time : list N;
  is_group : bool
}.

Record AvailableGroup := mkAvailable {
  ag_jid : list N;
  ag_name : list N;
  lastActivity : list N;
  isRegistered : bool
}.

(** The capabilities of a channel that the router uses.  A channel owns
    the chat ids of its own address space: [TelegramChannel.ownsJid] is
    [jid.startsWith('tg:')].  No such id is the name of a member of
    [Object.prototype]; the last field records that. *)
Record Channel := mkChannel {
  channel_name : list N;
  ownsJid : list N → bool;
  has_setTyping : bool;
  owns_no_member : ∀ k, inherited k = true → ownsJid k = false
}.

(** The store.  The row [last_agent_timestamp] holds the JSON text of the
    cursor map; the model keeps the map that text denotes. *)
Record Db := mkDb {
  messages : list NewMessage;
  row_last_timestamp : option (list N);
  row_last_agent_timestamp : option (gmap (list N) (list N));
  row_sessions : gmap (list N) (list N);
  tasks : list Task;
  chats : list ChatInfo
}.

Inductive Level := Debug | Info | Warn | Error.

(** The closure a timer runs when it expires.  [index.ts] arms one kind of
    timer, the idle timer of [processGroupMessages]. *)
Inductive Callback :=
| IdleClose (chatJid groupName : list N).

Inductive Event :=
| PersistLastTimestamp (ts : list N)
| PersistAgentTimestamps (cursors : gmap (list N) (list N))
| SetSession (folder sid : list N)
| Log (level : Level) (msg : string)
| ConsoleLog (msg : string) (jid : list N)
| ChannelSetTyping (channel jid : list N) (isTyping : bool)
| ChannelSendMessage (channel jid text : list N)
| WriteTasksSnapshot (folder : list N) (isMain : bool) (snapshot : list Task)
| WriteGroupsSnapshot (folder : list N) (isMain : bool)
    (groups : list AvailableGroup) (registered : list (list N))
| AgentStart (input : ContainerInput)
| QueueRegisterProcess (jid containerName folder : list N)
| QueueNotifyIdle (jid : list N)
| QueueCloseStdin (jid : list N)
| QueueSendMessage (jid text : list N) (accepted : bool)
| QueueEnqueueMessageCheck (jid : list N)
| SetTimeout (handle : nat) (delay : N)
| ClearTimeout (handle : nat)
| TimerFired (handle : nat).

(** The module-level variables of index.ts, the store, the timers of the
    event loop (a handle is an index into [timers]; an armed timer holds its
    deadline and callback) and the trace of effects so far. *)
Record State := mkState {
  lastTimestamp : list N;
  lastAgentTimestamp : gmap (list N) (list N);
  sessions : gmap (list N) (list N);
  registeredGroups : gmap (list N) RegisteredGroup;
  db : Db;
  clock : N;
  timers : list (option (N * Callback));
  trace : list Event
}.

Definition set_lastTimestamp (v : list N) (st : State) : State :=
  mkState v (lastAgentTimestamp st) (sessions st) (registeredGroups st)
          (db st) (clock st) (timers st) (trace st).
Definition set_lastAgentTimestamp (v : gmap (list N) (list N)) (st : State) : State :=
  mkState (lastTimestamp st) v (sessions st) (registeredGroups st)
          (db st) (clock st) (timers st) (trace st).
Definition set_sessions (v : gmap (list N) (list N)) (st : State) : State :=
  mkState (lastTimestamp st) (lastAgentTimestamp st) v (registeredGroups st)
          (db st) (clock st) (timers st) (trace st).
Definition set_db (v : Db) (st : State) : State :=
  mkState (lastTimestamp st) (lastAgentTimestamp st) (sessions st)
          (registeredGroups st) v (clock st) (timers st) (trace st).
Definition set_clock (v : N) (st : State) : State :=
  mkState (lastTimestamp st) (lastAgentTimestamp st) (sessions st)
          (registeredGroups st) (db st) v (timers st) (trace st).
Definition set_timers (v : list (option (N * Callback))) (st : State) : State :=
  mkState (lastTimestamp st) (lastAgentTimestamp st) (sessions st)
          (registeredGroups st) (db st) (clock st) v (trace st).

(** Append effects to the trace. *)
Definition emit (evs : list Event) (st : State) : State :=
  mkState (lastTimestamp st) (lastAgentTimestamp st) (sessions st)
          (registeredGroups st) (db st) (clock st) (timers st) (trace st ++ evs).

(** [lastAgentTimestamp[chatJid] || ''], for a chat id that is not the name
    of a member of [Object.prototype]; [processGroupMessages] and the poll
    loop evaluate it for a chat id that a channel owns. *)
Definition cursor (st : State) (chatJid : jsstring) : jsstring :=
  default [] (lastAgentTimestamp st !! chatJid).

(** ** Timestamps are compared as strings *)

Fixpoint str_ltb (a b : jsstring) : bool :=
  match a, b with
  | _, [] => false
  | [], _ :: _ => true
  | x :: a', y :: b' => (x <? y)%N || ((x =? y)%N && str_ltb a' b')
  end.

Definition str_leb (a b : jsstring) : bool := negb (str_ltb b a).

(** ** The store's queries *)

(** [ORDER BY timestamp]: a stable insertion sort, so that ties keep their
    insertion order. *)
Fixpoint insert_by_timestamp (m : NewMessage) (l : list NewMessage)
  : list NewMessage :=
  match l with
  | [] => [m]
  | x :: l' =>
      if str_ltb (timestamp x) (timestamp m)
      then x :: insert_by_timestamp m l'
      else m :: l
  end.

Definition order_by_timestamp (l : list NewMessage) : list NewMessage :=
  fold_right insert_by_timestamp [] l.

(** ** setRouterState *)

Definition setRouterState_last_timestamp (v : list N) (st : State) : State :=
  let d := db st in
  emit [PersistLastTimestamp v]
    (set_db (mkDb (messages d) (Some v) (row_last_agent_timestamp d)
                  (row_sessions d) (tasks d) (chats d)) st).

Definition setRouterState_last_agent_timestamp (v : gmap (list N) (list N))
    (st : State) : State :=
  let d := db st in
  emit [PersistAgentTimestamps v]
    (set_db (mkDb (messages d) (row_last_timestamp d) (Some v)
                  (row_sessions d) (tasks d) (chats d)) st).

Definition setSession (folder sid : list N) (st : State) : State :=
  let d := db st in
  emit [SetSession folder sid]
    (set_db (mkDb (messages d) (row_last_timestamp d) (row_last_agent_timestamp d)
                  (<[folder := sid]> (row_sessions d)) (tasks d) (chats d)) st).

(** [saveState()] *)
Definition saveState (st : State) : State :=
  let st := setRouterState_last_timestamp (lastTimestamp st) st in
  setRouterState_last_agent_timestamp (lastAgentTimestamp st) st.

(** [getAvailableGroups()] *)
Definition getAvailableGroups (st : State) : list AvailableGroup :=
  map (λ c, mkAvailable (jid c) (chat_name c) (last_message_time c)
              (bool_decide (is_Some (registeredGroups st !! jid c))))
      (List.filter
         (λ c, negb (bool_decide (jid c = str "__group_sync__")) && is_group c)
         (chats (db st))).

(** ** Timers of the event loop *)

(** [setTimeout(cb, delay)]: a fresh handle. *)
Definition setTimeout (cb : Callback) (delay : N) (st : State) : nat * State :=
  let h := length (timers st) in
  (h, emit [SetTimeout h delay]
        (set_timers (timers st ++ [Some ((clock st + delay)%N, cb)]) st)).

(** [clearTimeout(h)]: no effect on a timer that fired or was cleared. *)
Definition clearTimeout (h : nat) (st : State) : State :=
  emit [ClearTimeout h] (set_timers (<[h := None]> (timers st)) st).

(** Running an expired timer's closure.  For the idle timer:
    [logger.debug(...); queue.closeStdin(chatJid)]. *)
Definition run_callback (cb : Callback) (st : State) : State :=
  match cb with
  | IdleClose chatJid _ =>
      emit [Log Debug "Idle timeout, closing container stdin";
            QueueCloseStdin chatJid] st
  end.

(** The armed timers that are due at time [now], as (handle, deadline,
    callback), by handle. *)
Fixpoint due_from (now : N) (h : nat) (ts : list (option (N * Callback)))
  : list (nat * (N * Callback)) :=
  match ts with
  | [] => []
  | t :: ts' =>
      match t with
      | Some (deadline, cb) =>
          if (deadline <=? now)%N
          then (h, (deadline, cb)) :: due_from now (S h) ts'
          else due_from now (S h) ts'
      | None => due_from now (S h) ts'
      end
  end.

Fixpoint insert_by_deadline (x : nat * (N * Callback))
    (l : list (nat * (N * Callback))) : list (nat * (N * Callback)) :=
  match l with
  | [] => [x]
  | y :: l' =>
      if (y.2.1 <? x.2.1)%N then y :: insert_by_deadline x l' else x :: l
  end.

(** One expiry: the timer is spent, then its closure runs. *)
Definition fire (st : State) (x : nat * (N * Callback)) : State :=
  run_callback x.2.2
    (emit [TimerFired x.1] (set_timers (<[x.1 := None]> (timers st)) st)).

(** [ms] milliseconds pass without the program running: every armed timer
    whose deadline is reached expires, earliest deadline first. *)
Definition elapse (ms : N) (st : State) : State :=
  let st := set_clock (clock st + ms)%N st in
  fold_left fire
    (fold_right insert_by_deadline [] (due_from (clock st) 0 (timers st))) st.

(** ** The outbound filter *)

Definition OPEN_TAG : jsstring := str "<internal>".
Definition CLOSE_TAG : jsstring := str "</internal>".

(** What follows the first [</internal>] of [s], if there is one. *)
Fixpoint after_close (s : jsstring) : option jsstring :=
  match s with
  | [] => None
  | _ :: s' =>
      if startsWith CLOSE_TAG s then Some (drop (length CLOSE_TAG) s)
      else after_close s'
  end.

(** [raw.replace(/<internal>[\s\S]*?<\/internal>/g, '')]: scanning from the
    left, an opening tag that has a closing tag after it is removed together
    with everything up to the first such closing tag. *)
Fixpoint strip_from (fuel : nat) (s : jsstring) : jsstring :=
  match fuel, s with
  | 0, _ => s
  | _, [] => []
  | S fuel', c :: s' =>
      if startsWith OPEN_TAG s then
        match after_close (drop (length OPEN_TAG) s) with
        | Some rest => strip_from fuel' rest
        | None => c :: strip_from fuel' s'
        end
      else c :: strip_from fuel' s'
  end.

Definition strip_internal (s : jsstring) : jsstring := strip_from (length s) s.

(** Truthiness of [result.result]. *)
Definition payload_truthy (p : Payload) : bool :=
  match p with
  | PNull => false
  | PString s => truthy s
  | PObject _ => true
  end.

(** [typeof result.result === 'string' ? result.result
                                        : JSON.stringify(result.result)] *)
Definition raw_text (p : Payload) : jsstring :=
  match p with
  | PNull => str "null"
  | PString s => s
  | PObject json => json
  end.

(** The text that a streamed record makes the router send, if any. *)
Definition outbound_text (o : ContainerOutput) : jsstring :=
  trim (strip_internal (raw_text (result o))).

(** ** The agent as the router sees it *)

(** What happens while [runContainerAgent] is pending: a record arrives on
    the stream, or [ms] milliseconds pass without one. *)
Inductive StreamItem :=
| Streamed (o : ContainerOutput)
| Quiet (ms : N).

(** One run of the container.  [container_name] is [None] when the process
    is never handed to [onProcess]; [settled] is [None] when the promise
    rejects. *)
Record AgentRun := mkRun {
  container_name : option (list N);
  stream : list StreamItem;
  settled : option ContainerOutput
}.

Definition outputs (run : AgentRun) : list ContainerOutput :=
  omap (λ i, match i with Streamed o => Some o | Quiet _ => None end) (stream run).

(** The closure variables of one [processGroupMessages] call. *)
Record Locals := mkLocals {
  idleTimer : option nat;
  hadError : bool;
  outputSentToUser : bool
}.

(** ** Sorting and filtering keep the rows *)

Lemma insert_by_timestamp_elem m x l :
  m ∈ insert_by_timestamp x l ↔ m = x ∨ m ∈ l.
Proof.
  induction l as [|y l IH]; cbn.
  - rewrite list_elem_of_singleton, elem_of_nil. tauto.
  - destruct (str_ltb (timestamp y) (timestamp x)).
    + rewrite !elem_of_cons, IH. tauto.
    + rewrite !elem_of_cons. tauto.
Qed.

Lemma order_by_timestamp_elem m l : m ∈ order_by_timestamp l ↔ m ∈ l.
Proof.
  unfold order_by_timestamp. induction l as [|x l IH]; [done|]. cbn.
  rewrite insert_by_timestamp_elem, elem_of_cons, IH. done.
Qed.

Lemma elem_of_List_filter {A} (f : A → bool) (l : list A) (x : A) :
  x ∈ List.filter f l ↔ x ∈ l ∧ f x = true.
Proof. rewrite !list_elem_of_In. apply List.filter_In. Qed.

Section Core.
Set Default Proof Using "Type".

(** config.ts *)
Variables ASSISTANT_NAME MAIN_GROUP_FOLDER : list N.
Variable IDLE_TIMEOUT : N.
(** router.ts: the prompt text of a batch of messages. *)
Variable formatMessages : list NewMessage → list N.
(** db.ts: which rows the queries leave out as written by the bot, given
    the assistant's name. *)
Variable bot_authored : list N → NewMessage → bool.
(** The channels connected in [main]. *)
Variable channels : list Channel.
(** container-runner.ts: how the container behaves for a given input. *)
Variable container : RegisteredGroup → ContainerInput → AgentRun.
(** group-queue.ts: whether [queue.sendMessage(jid, text)] finds a live
    agent to write to. *)
Variable queue_sendMessage : list N → list N → bool.

(** Modelled from the spec: router.ts [findChannel] is missing; section 9
    routes "by first-match [ownsJid]". *)
Definition findChannel (chs : list Channel) (chatJid : jsstring)
  : option Channel :=
  List.find (λ c, ownsJid c chatJid) chs.

(** No channel owns the name of a member of [Object.prototype]. *)
Lemma findChannel_member (chs : list Channel) (chatJid : jsstring) :
  inherited chatJid = true → findChannel chs chatJid = None.
Proof.
  intros Hk. unfold findChannel. induction chs as [|c chs IH]; [done|].
  cbn [find]. by rewrite (owns_no_member c chatJid Hk).
Qed.

(** A chat id that a channel owns is an ordinary key: reading it from a
    plain object gives the own property or [undefined], and assigning to
    it creates or replaces the own property. *)
Lemma findChannel_plain (chs : list Channel) (chatJid : jsstring) c :
  findChannel chs chatJid = Some c → inherited chatJid = false.
Proof.
  intros H. destruct (inherited chatJid) eqn:E; [|done].
  by rewrite findChannel_member in H.
Qed.

(** Modelled from the spec: db.ts [getMessagesSince] is missing; sections
    3 and 4.2 give the rows of the chat with a timestamp above the cursor
    that the bot did not write, in timestamp order. *)
Definition getMessagesSince (d : Db) (chatJid sinceTimestamp botPrefix : jsstring)
  : list NewMessage :=
  order_by_timestamp
    (List.filter
       (λ m, bool_decide (chat_jid m = chatJid)
             && str_ltb sinceTimestamp (timestamp m)
             && negb (bot_authored botPrefix m))
       (messages d)).

(** Modelled from the spec: db.ts [getNewMessages] is missing; section 4.2
    step 1 gives every row above [lastTimestamp] of a registered chat that
    the bot did not write, and the maximum timestamp observed. *)
Definition getNewMessages (d : Db) (jids : list (list N))
    (lastTimestamp botPrefix : jsstring) : list NewMessage * list N :=
  let rows :=
    order_by_timestamp
      (List.filter
         (λ m, bool_decide (chat_jid m ∈ jids)
               && str_ltb lastTimestamp (timestamp m)
               && negb (bot_authored botPrefix m))
         (messages d)) in
  (rows,
   fold_left (λ newest m, if str_ltb newest (timestamp m)
                          then timestamp m else newest)
             rows lastTimestamp).

(** [channel.sendMessage(jid, text)], seen from the router.  The promise
    resolves: an adapter deals with its own failures, as
    [TelegramChannel.sendMessage] does with a [try]/[catch] around its whole
    body. *)
Definition channel_sendMessage (c : Channel) (chatJid text : jsstring)
    (st : State) : State :=
  emit [ChannelSendMessage (channel_name c) chatJid text] st.

(** [channel.setTyping?.(jid, isTyping)]; it resolves as well. *)
Definition channel_setTyping (c : Channel) (chatJid : jsstring) (b : bool)
    (st : State) : State :=
  if has_setTyping c then emit [ChannelSetTyping (channel_name c) chatJid b] st
  else st.

(** The closure [resetIdleTimer] of [processGroupMessages]. *)
Definition resetIdleTimer (group : RegisteredGroup) (chatJid : jsstring)
    (ls : Locals * State) : Locals * State :=
  let '(loc, st) := ls in
  let st := match idleTimer loc with
            | Some h => clearTimeout h st
            | None => st
            end in
  let '(h, st) := setTimeout (IdleClose chatJid (name group)) IDLE_TIMEOUT st in
  (mkLocals (Some h) (hadError loc) (outputSentToUser loc), st).

(** The streaming callback that [processGroupMessages] hands to
    [runAgent]. *)
Definition onOutput (group : RegisteredGroup) (chatJid : jsstring)
    (channel : Channel) (o : ContainerOutput) (ls : Locals * State)
  : Locals * State :=
  let ls :=
    if payload_truthy (result o) then
      let '(loc, st) := ls in
      let text := outbound_text o in
      let st := emit [Log Info "Agent output"] st in
      let ls :=
        if truthy text
        then (mkLocals (idleTimer loc) (hadError loc) true,
              channel_sendMessage channel chatJid text st)
        else (loc, st) in
      resetIdleTimer group chatJid ls
    else ls in
  let '(loc, st) := ls in
  let st := match status o with
            | StatusSuccess => emit [QueueNotifyIdle chatJid] st
            | _ => st
            end in
  let loc := match status o with
             | StatusError => mkLocals (idleTimer loc) true (outputSentToUser loc)
             | _ => loc
             end in
  (loc, st).

(** [if (output.newSessionId) { sessions[folder] = ...; setSession(...) }].
    The map records the assignment for every folder; for the folder
    [__proto__], where the object takes no property, no read sees it
    ([get]). *)
Definition track_session (group : RegisteredGroup) (o : ContainerOutput)
    (st : State) : State :=
  match newSessionId o with
  | Some sid =>
      if truthy sid
      then setSession (folder group) sid
             (set_sessions (<[folder group := sid]> (sessions st)) st)
      else st
  | None => st
  end.

(** The input [runAgent] builds for the container. *)
Definition container_input (group : RegisteredGroup) (prompt chatJid : jsstring)
    (st : State) : ContainerInput :=
  {| prompt := prompt;
     sessionId := get (sessions st) (folder group);
     groupFolder := folder group;
     chatJid := chatJid;
     isMain := bool_decide (folder group = MAIN_GROUP_FOLDER);
     assistantName := ASSISTANT_NAME |}.

Section RunAgent.
Context {L : Type}.

(** [wrappedOnOutput] of [runAgent]: track the session id of the record,
    then call [onOutput]. *)
Definition wrappedOnOutput (group : RegisteredGroup)
    (onOutput : ContainerOutput → L * State → L * State)
    (o : ContainerOutput) (ls : L * State) : L * State :=
  let '(loc, st) := ls in
  onOutput o (loc, track_session group o st).

(** One step while [runContainerAgent] is pending: a record is surfaced to
    the streaming callback, or time passes and due timers expire. *)
Definition stream_step
    (onOutput : option (ContainerOutput → L * State → L * State))
    (ls : L * State) (item : StreamItem) : L * State :=
  match item with
  | Streamed o =>
      match onOutput with
      | Some callback => callback o ls
      | None => ls
      end
  | Quiet ms => let '(loc, st) := ls in (loc, elapse ms st)
  end.

(** Modelled from the spec: container-runner.ts [runContainerAgent] is
    missing; by section 4.3 the runner starts the container, hands the
    process to [onProcess], surfaces each record of the stream to the
    streaming callback in arrival order and then settles with the terminal
    output ([None] when the promise rejects). *)
Definition runContainerAgent (group : RegisteredGroup) (input : ContainerInput)
    (onProcess : list N → State → State)
    (onOutput : option (ContainerOutput → L * State → L * State))
    (ls : L * State) : option ContainerOutput * (L * State) :=
  let '(loc, st) := ls in
  let run := container group input in
  let st := emit [AgentStart input] st in
  let st := match container_name run with
            | Some containerName => onProcess containerName st
            | None => st
            end in
  (settled run, fold_left (stream_step onOutput) (stream run) (loc, st)).

(** [runAgent(group, prompt, chatJid, onOutput)] *)
Definition runAgent (group : RegisteredGroup) (prompt chatJid : jsstring)
    (onOutput : option (ContainerOutput → L * State → L * State))
    (ls : L * State) : AgentStatus * (L * State) :=
  let '(loc, st) := ls in
  let isMain := bool_decide (folder group = MAIN_GROUP_FOLDER) in
  let input := container_input group prompt chatJid st in
  let st := emit [WriteTasksSnapshot (folder group) isMain (tasks (db st))] st in
  let availableGroups := getAvailableGroups st in
  let st := emit [WriteGroupsSnapshot (folder group) isMain availableGroups
                    (map fst (map_to_list (registeredGroups st)))] st in
  let '(output, (loc, st)) :=
    runContainerAgent group input
      (λ containerName,
         emit [QueueRegisterProcess chatJid containerName (folder group)])
      (wrappedOnOutput group <$> onOutput)
      (loc, st) in
  match output with
  | Some output =>
      let st := track_session group output st in
      match status output with
      | StatusError =>
          (AgentError, (loc, emit [Log Error "Container agent error"] st))
      | _ => (AgentSuccess, (loc, st))
      end
  | None => (AgentError, (loc, emit [Log Error "Agent error"] st))
  end.
End RunAgent.

(** What the two readers of [registeredGroups[chatJid]] do when the object
    has no such own property.  For the name of a member of
    [Object.prototype] the value read is that member, which is truthy: the
    code goes on to [findChannel], which finds no channel
    ([findChannel_member]), and prints the warning.  Otherwise the value is
    [undefined] and nothing happens. *)
Definition not_registered (chatJid : jsstring) (st : State) : State :=
  if inherited chatJid
  then emit [ConsoleLog "Warning: no channel owns JID, skipping messages"
               chatJid] st
  else st.

(** [processGroupMessages(chatJid)] *)
Definition processGroupMessages (chatJid : jsstring) (st : State)
  : bool * State :=
  match registeredGroups st !! chatJid with
  | None => (true, not_registered chatJid st)
  | Some group =>
      match findChannel channels chatJid with
      | None =>
          (true, emit [ConsoleLog "Warning: no channel owns JID, skipping messages"
                         chatJid] st)
      | Some channel =>
          let sinceTimestamp := cursor st chatJid in
          let missedMessages :=
            getMessagesSince (db st) chatJid sinceTimestamp ASSISTANT_NAME in
          match last missedMessages with
          | None => (true, st)
          | Some lastMessage =>
              let prompt := formatMessages missedMessages in
              let previousCursor := cursor st chatJid in
              let st := set_lastAgentTimestamp
                          (<[chatJid := timestamp lastMessage]>
                             (lastAgentTimestamp st)) st in
              let st := saveState st in
              let st := emit [Log Info "Processing messages"] st in
              let st := channel_setTyping channel chatJid true st in
              let '(output, (loc, st)) :=
                runAgent group prompt chatJid
                  (Some (onOutput group chatJid channel))
                  (mkLocals None false false, st) in
              let st := channel_setTyping channel chatJid false st in
              let st := match idleTimer loc with
                        | Some h => clearTimeout h st
                        | None => st
                        end in
              if is_error output || hadError loc then
                if outputSentToUser loc then
                  (true,
                   emit [Log Warn
                           "Agent error after output was sent, skipping cursor rollback to prevent duplicates"]
                        st)
                else
                  let st := set_lastAgentTimestamp
                              (<[chatJid := previousCursor]>
                                 (lastAgentTimestamp st)) st in
                  let st := saveState st in
                  (false,
                   emit [Log Warn
                           "Agent error, rolled back message cursor for retry"]
                        st)
              else (true, st)
          end
      end
  end.

(** The part of [processGroupMessages] that comes before [runAgent], for a
    batch that ends with [lastMessage]: save the previous cursor, advance
    the group's cursor, [saveState()], log, ask for the typing indicator.
    It gives [previousCursor] and the state in which [runAgent] is
    called. *)
Definition claim_batch (chatJid : jsstring) (channel : Channel)
    (lastMessage : NewMessage) (st : State) : list N * State :=
  let previousCursor := default [] (lastAgentTimestamp st !! chatJid) in
  let st := set_lastAgentTimestamp
              (<[chatJid := timestamp lastMessage]> (lastAgentTimestamp st)) st in
  let st := saveState st in
  let st := emit [Log Info "Processing messages"] st in
  let st := channel_setTyping channel chatJid true st in
  (previousCursor, st).

(** The part of [processGroupMessages] that comes after [runAgent] has
    returned [r]. *)
Definition finish_batch (chatJid : jsstring) (channel : Channel)
    (previousCursor : jsstring) (r : AgentStatus * (Locals * State))
  : bool * State :=
  let '(output, (loc, st)) := r in
  let st := channel_setTyping channel chatJid false st in
  let st := match idleTimer loc with
            | Some h => clearTimeout h st
            | None => st
            end in
  if is_error output || hadError loc then
    if outputSentToUser loc then
      (true,
       emit [Log Warn
               "Agent error after output was sent, skipping cursor rollback to prevent duplicates"]
            st)
    else
      let st := set_lastAgentTimestamp
                  (<[chatJid := previousCursor]> (lastAgentTimestamp st)) st in
      let st := saveState st in
      (false,
       emit [Log Warn "Agent error, rolled back message cursor for retry"] st)
  else (true, st).

(** [messagesByGroup]: the batch partitioned by chat, chats in order of
    first appearance, each chat's messages in batch order. *)
Fixpoint add_to_group (msg : NewMessage)
    (groups : list (list N * list NewMessage))
  : list (list N * list NewMessage) :=
  match groups with
  | [] => [(chat_jid msg, [msg])]
  | (j, existing) :: rest =>
      if bool_decide (j = chat_jid msg) then (j, existing ++ [msg]) :: rest
      else (j, existing) :: add_to_group msg rest
  end.

Definition messagesByGroup (msgs : list NewMessage)
  : list (list N * list NewMessage) :=
  fold_left (λ groups msg, add_to_group msg groups) msgs [].

(** Body of [for (const [chatJid, groupMessages] of messagesByGroup)].
    Reading [.timestamp] of the last element of an empty array throws. *)
Definition dispatch_group (st : State) (entry : list N * list NewMessage)
  : completion * State :=
  let '(chatJid, groupMessages) := entry in
  match registeredGroups st !! chatJid with
  | None => (Normal, not_registered chatJid st)
  | Some group =>
      match findChannel channels chatJid with
      | None =>
          (Normal,
           emit [ConsoleLog "Warning: no channel owns JID, skipping messages"
                   chatJid] st)
      | Some channel =>
          let allPending :=
            getMessagesSince (db st) chatJid (cursor st chatJid) ASSISTANT_NAME in
          let messagesToSend :=
            match allPending with
            | _ :: _ => allPending
            | [] => groupMessages
            end in
          let formatted := formatMessages messagesToSend in
          let accepted := queue_sendMessage chatJid formatted in
          let st := emit [QueueSendMessage chatJid formatted accepted] st in
          if accepted then
            let st := emit [Log Debug "Piped messages to active container"] st in
            match last messagesToSend with
            | None => (Throws, st)
            | Some lastMessage =>
                let st := set_lastAgentTimestamp
                            (<[chatJid := timestamp lastMessage]>
                               (lastAgentTimestamp st)) st in
                let st := saveState st in
                (Normal, channel_setTyping channel chatJid true st)
            end
          else (Normal, emit [QueueEnqueueMessageCheck chatJid] st)
      end
  end.

(** The [for ... of messagesByGroup] loop; a throw leaves it. *)
Fixpoint dispatch_groups (groups : list (list N * list NewMessage))
    (st : State) : completion * State :=
  match groups with
  | [] => (Normal, st)
  | entry :: rest =>
      match dispatch_group st entry with
      | (Normal, st) => dispatch_groups rest st
      | (Throws, st) => (Throws, st)
      end
  end.

(** One iteration of the [while (true)] loop of [startMessageLoop], up to
    the sleep.  A throw is caught and logged. *)
Definition poll_once (st : State) : State :=
  let jids := map fst (map_to_list (registeredGroups st)) in
  let '(msgs, newTimestamp) :=
    getNewMessages (db st) jids (lastTimestamp st) ASSISTANT_NAME in
  match msgs with
  | [] => st
  | _ :: _ =>
      let st := emit [Log Info "New messages"] st in
      let st := set_lastTimestamp newTimestamp st in
      let st := saveState st in
      match dispatch_groups (messagesByGroup msgs) st with
      | (Normal, st) => st
      | (Throws, st) => emit [Log Error "Error in message loop"] st
      end
  end.

(** ** A chat id without a group *)

Lemma not_registered_cases j st :
  not_registered j st = st
  ∨ not_registered j st
    = emit [ConsoleLog "Warning: no channel owns JID, skipping messages" j] st.
Proof. unfold not_registered. destruct (inherited j); [by right|by left]. Qed.

Lemma not_registered_emit j st : ∃ evs, not_registered j st = emit evs st
  ∧ Forall (λ e, ∃ msg, e = ConsoleLog msg j) evs.
Proof.
  unfold not_registered. destruct (inherited j).
  - eexists. split; [done|]. repeat constructor. by eexists.
  - exists []. split; [|constructor]. by destruct st; unfold emit; cbn; rewrite app_nil_r.
Qed.


(** ** The outbound filter never runs out of fuel *)

Lemma startsWith_length p s : startsWith p s = true → length p ≤ length s.
Proof.
  revert s. induction p as [|c p IH]; intros [|d s]; cbn; try done; [lia|].
  intros [_ H]%andb_prop. apply IH in H. lia.
Qed.

Lemma after_close_length s rest :
  after_close s = Some rest → length rest < length s.
Proof.
  induction s as [|c s IH]; [done|]. cbn [after_close].
  destruct (startsWith CLOSE_TAG (c :: s)) eqn:E.
  - intros [= <-]. apply startsWith_length in E.
    rewrite length_drop. cbn in *. lia.
  - intros H%IH. cbn. lia.
Qed.

(** Any fuel from [length s] on gives the same result, so the fuel
    [strip_internal] starts with is enough. *)
Lemma strip_from_enough f1 f2 s :
  length s ≤ f1 → length s ≤ f2 → strip_from f1 s = strip_from f2 s.
Proof.
  revert f2 s. induction f1 as [|f1 IH]; intros f2 s H1 H2.
  - destruct s; [by destruct f2|cbn in H1; lia].
  - destruct s as [|c s]; [by destruct f2|].
    destruct f2 as [|f2]; [cbn in H2; lia|].
    cbn [strip_from length] in *.
    destruct (startsWith OPEN_TAG (c :: s)).
    + destruct (after_close (drop (length OPEN_TAG) (c :: s))) as [rest|] eqn:E.
      * apply after_close_length in E. rewrite length_drop in E. cbn in E.
        apply IH; lia.
      * f_equal. apply IH; lia.
    + f_equal. apply IH; lia.
Qed.

(** ** What a run leaves alone *)

(** The events that write a cursor to the store. *)
Definition persists (e : Event) : bool :=
  match e with
  | PersistLastTimestamp _ | PersistAgentTimestamps _ => true
  | _ => false
  end.

(** [st'] comes after [st] with both cursors, their rows in the store, the
    registered groups and the message log as they were, and only events
    that write no cursor added to the trace. *)
Record undisturbed (st st' : State) : Prop := mkUndisturbed {
  und_lastTimestamp : lastTimestamp st' = lastTimestamp st;
  und_lastAgentTimestamp : lastAgentTimestamp st' = lastAgentTimestamp st;
  und_registeredGroups : registeredGroups st' = registeredGroups st;
  und_messages : messages (db st') = messages (db st);
  und_row_last_timestamp :
    row_last_timestamp (db st') = row_last_timestamp (db st);
  und_row_last_agent_timestamp :
    row_last_agent_timestamp (db st') = row_last_agent_timestamp (db st);
  und_trace :
    ∃ evs, trace st' = trace st ++ evs ∧ Forall (λ e, persists e = false) evs
}.

Lemma und_refl st : undisturbed st st.
Proof. constructor; try done. exists []. by rewrite app_nil_r. Qed.

Lemma und_trans st1 st2 st3 :
  undisturbed st1 st2 → undisturbed st2 st3 → undisturbed st1 st3.
Proof.
  intros [a1 a2 a3 a4 a5 a6 (e1 & a7 & a8)] [b1 b2 b3 b4 b5 b6 (e2 & b7 & b8)].
  constructor; try congruence.
  exists (e1 ++ e2). split.
  - by rewrite b7, a7, app_assoc.
  - by apply Forall_app.
Qed.

Lemma und_emit evs st :
  Forall (λ e, persists e = false) evs → undisturbed st (emit evs st).
Proof. intros H. constructor; try done. by exists evs. Qed.

Lemma und_set_timers v st : undisturbed st (set_timers v st).
Proof. constructor; try done. exists []. by rewrite app_nil_r. Qed.

Lemma und_set_clock v st : undisturbed st (set_clock v st).
Proof. constructor; try done. exists []. by rewrite app_nil_r. Qed.

Lemma und_set_sessions v st : undisturbed st (set_sessions v st).
Proof. constructor; try done. exists []. by rewrite app_nil_r. Qed.

Lemma und_setSession f sid st : undisturbed st (setSession f sid st).
Proof. constructor; try done. exists [SetSession f sid]. by repeat constructor. Qed.

Lemma und_clearTimeout h st : undisturbed st (clearTimeout h st).
Proof. constructor; try done. exists [ClearTimeout h]. by repeat constructor. Qed.

Lemma und_setTimeout cb d st : undisturbed st (setTimeout cb d st).2.
Proof.
  constructor; try done. exists [SetTimeout (length (timers st)) d].
  by repeat constructor.
Qed.

Lemma und_run_callback cb st : undisturbed st (run_callback cb st).
Proof. destruct cb. apply und_emit. by repeat constructor. Qed.

Lemma und_fire st x : undisturbed st (fire st x).
Proof.
  unfold fire. eapply und_trans; [|apply und_run_callback].
  eapply und_trans; [apply und_set_timers|]. apply und_emit. by repeat constructor.
Qed.

Lemma und_fold_fire xs st : undisturbed st (fold_left fire xs st).
Proof.
  revert st. induction xs as [|x xs IH]; intros st; [apply und_refl|].
  simpl. eapply und_trans; [apply und_fire|apply IH].
Qed.

Lemma und_elapse ms st : undisturbed st (elapse ms st).
Proof.
  unfold elapse. eapply und_trans; [apply und_set_clock|apply und_fold_fire].
Qed.

Lemma und_track_session group o st : undisturbed st (track_session group o st).
Proof.
  unfold track_session. destruct (newSessionId o) as [sid|]; [|apply und_refl].
  destruct (truthy sid); [|apply und_refl].
  eapply und_trans; [apply und_set_sessions|apply und_setSession].
Qed.

Lemma und_channel_sendMessage c j t st :
  undisturbed st (channel_sendMessage c j t st).
Proof. apply und_emit. by repeat constructor. Qed.

Lemma und_channel_setTyping c j b st :
  undisturbed st (channel_setTyping c j b st).
Proof.
  unfold channel_setTyping. destruct (has_setTyping c); [|apply und_refl].
  apply und_emit. by repeat constructor.
Qed.

Lemma und_resetIdleTimer group j loc st :
  undisturbed st (resetIdleTimer group j (loc, st)).2.
Proof.
  unfold resetIdleTimer.
  destruct (idleTimer loc) as [h|]; cbn [snd].
  - eapply und_trans; [apply und_clearTimeout|].
    apply (und_setTimeout (IdleClose j (name group)) IDLE_TIMEOUT).
  - apply (und_setTimeout (IdleClose j (name group)) IDLE_TIMEOUT).
Qed.

Lemma und_onOutput group j c o loc st :
  undisturbed st (onOutput group j c o (loc, st)).2.
Proof.
  unfold onOutput.
  set (ls1 := if payload_truthy (result o) then _ else _).
  assert (H1 : undisturbed st ls1.2).
  { subst ls1. destruct (payload_truthy (result o)); [|apply und_refl].
    destruct (truthy (outbound_text o)).
    - eapply und_trans; [|apply und_resetIdleTimer].
      eapply und_trans; [|apply und_channel_sendMessage].
      apply und_emit. by repeat constructor.
    - eapply und_trans; [|apply und_resetIdleTimer].
      apply und_emit. by repeat constructor. }
  destruct ls1 as [loc1 st1]. cbn [snd] in *.
  eapply und_trans; [exact H1|].
  destruct (status o); try apply und_refl.
  apply und_emit. by repeat constructor.
Qed.

(** ** What the streaming callback computes *)

(** The record makes the router send a message. *)
Definition visible (o : ContainerOutput) : bool :=
  payload_truthy (result o) && truthy (outbound_text o).

(** [result.status === 'error'] *)
Definition errored (o : ContainerOutput) : bool :=
  match status o with StatusError => true | _ => false end.

(** What [runAgent] returns for a run. *)
Definition agent_status (run : AgentRun) : AgentStatus :=
  match settled run with
  | Some o => if errored o then AgentError else AgentSuccess
  | None => AgentError
  end.

Definition streamed (items : list StreamItem) : list ContainerOutput :=
  omap (λ i, match i with Streamed o => Some o | Quiet _ => None end) items.

Lemma wrappedOnOutput_eq {L : Type} group
    (callback : ContainerOutput → L * State → L * State) o loc st :
  wrappedOnOutput group callback o (loc, st)
  = callback o (loc, track_session group o st).
Proof. reflexivity. Qed.

Lemma onOutput_flags group j c o loc st :
  hadError (onOutput group j c o (loc, st)).1 = hadError loc || errored o
  ∧ outputSentToUser (onOutput group j c o (loc, st)).1
    = outputSentToUser loc || visible o.
Proof.
  unfold onOutput, visible, errored, resetIdleTimer.
  destruct (payload_truthy (result o)), (truthy (outbound_text o)),
    (status o), (idleTimer loc); cbn;
    rewrite ?orb_false_r, ?orb_true_r; done.
Qed.

Lemma stream_flags group j c items loc st :
  let ls := fold_left (stream_step (Some (wrappedOnOutput group (onOutput group j c))))
      items (loc, st) in
  hadError ls.1 = hadError loc || existsb errored (streamed items)
  ∧ outputSentToUser ls.1 = outputSentToUser loc || existsb visible (streamed items).
Proof.
  revert loc st. induction items as [|i items IH]; intros loc st.
  - cbn. by rewrite !orb_false_r.
  - cbn [fold_left]. destruct i as [o|ms]; cbn [stream_step]; rewrite ?wrappedOnOutput_eq.
    + destruct (onOutput group j c o (loc, track_session group o st))
        as [loc1 st1] eqn:E.
      destruct (onOutput_flags group j c o loc (track_session group o st))
        as [H1 H2]. rewrite E in H1, H2. cbn [fst] in H1, H2.
      destruct (IH loc1 st1) as [H3 H4]. cbn zeta in H3, H4.
      rewrite H3, H4, H1, H2. cbn. by rewrite !orb_assoc.
    + apply IH.
Qed.

Lemma und_stream group j c items loc st :
  undisturbed st
    (fold_left (stream_step (Some (wrappedOnOutput group (onOutput group j c))))
      items (loc, st)).2.
Proof.
  revert loc st. induction items as [|i items IH]; intros loc st; [apply und_refl|].
  cbn [fold_left]. destruct i as [o|ms]; cbn [stream_step]; rewrite ?wrappedOnOutput_eq.
  - destruct (onOutput group j c o (loc, track_session group o st))
      as [loc1 st1] eqn:E.
    eapply und_trans; [|apply IH].
    eapply und_trans; [apply (und_track_session group o)|].
    pose proof (und_onOutput group j c o loc (track_session group o st)) as H.
    by rewrite E in H.
  - eapply und_trans; [apply (und_elapse ms)|apply IH].
Qed.

(** [runAgent] with the callback of [processGroupMessages]: what it returns,
    what it leaves alone, and where in the trace the agent starts. *)
Lemma runAgent_spec group prompt j c loc st :
  let input := container_input group prompt j st in
  let run := container group input in
  ∃ loc' st' evs,
    runAgent group prompt j (Some (onOutput group j c)) (loc, st)
      = (agent_status run, (loc', st'))
    ∧ undisturbed st st'
    ∧ trace st' = trace st ++ evs
    ∧ Forall (λ e, persists e = false) evs
    ∧ AgentStart input ∈ evs
    ∧ hadError loc' = hadError loc || existsb errored (outputs run)
    ∧ outputSentToUser loc' = outputSentToUser loc || existsb visible (outputs run).
Proof.
  intros input run. unfold runAgent, runContainerAgent. cbn [fmap option_fmap option_map].
  fold input. fold run.
  set (st1 := emit [WriteTasksSnapshot _ _ _] st).
  set (st2 := emit [WriteGroupsSnapshot _ _ _ _] st1).
  set (st3 := emit [AgentStart input] st2).
  set (st4 := match container_name run with Some _ => _ | None => _ end).
  assert (H4 : undisturbed st3 st4).
  { subst st4. destruct (container_name run); [|apply und_refl].
    apply und_emit. by repeat constructor. }
  pose proof (und_stream group j c (stream run) loc st4) as Hs.
  pose proof (stream_flags group j c (stream run) loc st4) as [Hf1 Hf2].
  destruct (fold_left _ (stream run) (loc, st4)) as [loc5 st5].
  cbn [fst snd] in Hs, Hf1, Hf2.
  set (res := match settled run with Some _ => _ | None => _ end).
  assert (Hres : ∃ st6, res = (agent_status run, (loc5, st6)) ∧ undisturbed st5 st6).
  { subst res. unfold agent_status, errored.
    destruct (settled run) as [o|].
    - destruct (status o); eexists; (split; [reflexivity|]);
        try apply und_track_session.
      eapply und_trans; [apply und_track_session|].
      apply und_emit. by repeat constructor.
    - eexists; split; [reflexivity|]. apply und_emit. by repeat constructor. }
  destruct Hres as (st6 & -> & H6).
  assert (H36 : undisturbed st3 st6).
  { eapply und_trans; [exact H4|]. eapply und_trans; [exact Hs|exact H6]. }
  destruct (und_trace _ _ H36) as (evs & Hevs & Hq).
  exists loc5, st6, ([WriteTasksSnapshot (folder group)
                        (bool_decide (folder group = MAIN_GROUP_FOLDER))
                        (tasks (db st));
                      WriteGroupsSnapshot (folder group)
                        (bool_decide (folder group = MAIN_GROUP_FOLDER))
                        (getAvailableGroups st1)
                        (map fst (map_to_list (registeredGroups st1)));
                      AgentStart input] ++ evs).
  split_and!; try done.
  - eapply und_trans; [|exact H36].
    subst st3 st2 st1. repeat (eapply und_trans; [|apply und_emit; by repeat constructor]).
    apply und_refl.
  - rewrite Hevs. subst st3 st2 st1. cbn. by rewrite <- !app_assoc.
  - apply Forall_app. split; [by repeat constructor|done].
  - apply elem_of_app. left. do 2 apply list_elem_of_further. apply list_elem_of_here.
Qed.

(** ** One run of processGroupMessages *)

(** The batch [processGroupMessages] would hand to the agent. *)
Definition pending (st : State) (chatJid : jsstring) : list NewMessage :=
  getMessagesSince (db st) chatJid (cursor st chatJid) ASSISTANT_NAME.

(** The container run that [processGroupMessages] starts from [st]. *)
Definition batch_run (st : State) (group : RegisteredGroup) (chatJid : jsstring)
  : AgentRun :=
  container group
    (container_input group (formatMessages (pending st chatJid)) chatJid st).

(** [output === 'error' || hadError] at the end of the run. *)
Definition failed (run : AgentRun) : bool :=
  is_error (agent_status run) || existsb errored (outputs run).

(** [outputSentToUser] at the end of the run. *)
Definition sent_output (run : AgentRun) : bool := existsb visible (outputs run).

(** Moving a group's cursor and saving: [lastAgentTimestamp = m;
    saveState()]. *)
Lemma move_cursor_fields m st :
  let st1 := saveState (set_lastAgentTimestamp m st) in
  lastTimestamp st1 = lastTimestamp st
  ∧ lastAgentTimestamp st1 = m
  ∧ registeredGroups st1 = registeredGroups st
  ∧ sessions st1 = sessions st
  ∧ timers st1 = timers st
  ∧ messages (db st1) = messages (db st)
  ∧ row_last_timestamp (db st1) = Some (lastTimestamp st)
  ∧ row_last_agent_timestamp (db st1) = Some m
  ∧ trace st1
    = trace st ++ [PersistLastTimestamp (lastTimestamp st);
                   PersistAgentTimestamps m].
Proof. split_and!; try done. cbn. by rewrite <- app_assoc. Qed.

(** Everything the claims need to know about a call that finds a group, a
    channel and a non-empty batch. *)
Lemma processGroupMessages_run j st group channel lastMessage :
  registeredGroups st !! j = Some group →
  findChannel channels j = Some channel →
  last (pending st j) = Some lastMessage →
  let run := batch_run st group j in
  let claimed := <[j := timestamp lastMessage]> (lastAgentTimestamp st) in
  let rolled := <[j := cursor st j]> (lastAgentTimestamp st) in
  let first := [PersistLastTimestamp (lastTimestamp st);
                PersistAgentTimestamps claimed] in
  ∃ st' mid,
    processGroupMessages j st = (negb (failed run) || sent_output run, st')
    ∧ Forall (λ e, persists e = false) mid
    ∧ AgentStart (container_input group (formatMessages (pending st j)) j st) ∈ mid
    ∧ lastTimestamp st' = lastTimestamp st
    ∧ registeredGroups st' = registeredGroups st
    ∧ messages (db st') = messages (db st)
    ∧ row_last_timestamp (db st') = Some (lastTimestamp st)
    ∧ row_last_agent_timestamp (db st') = Some (lastAgentTimestamp st')
    ∧ if failed run && negb (sent_output run)
      then lastAgentTimestamp st' = rolled
           ∧ trace st' = trace st ++ first ++ mid
               ++ [PersistLastTimestamp (lastTimestamp st);
                   PersistAgentTimestamps rolled;
                   Log Warn "Agent error, rolled back message cursor for retry"]
      else lastAgentTimestamp st' = claimed
           ∧ trace st' = trace st ++ first ++ mid.
Proof.
  intros Hgroup Hchannel Hlast run claimed rolled first.
  unfold processGroupMessages. rewrite Hgroup, Hchannel.
  fold (pending st j). rewrite Hlast.
  pose proof (move_cursor_fields claimed st) as HS. cbv zeta in HS.
  change (<[j := timestamp lastMessage]> (lastAgentTimestamp st)) with claimed.
  set (st1 := saveState (set_lastAgentTimestamp claimed st)) in *.
  clearbody st1. destruct HS as (S1 & S2 & S3 & S4 & S5 & S6 & S7 & S8 & S9).
  set (st2 := channel_setTyping channel j true
                (emit [Log Info "Processing messages"] st1)).
  assert (H12 : undisturbed st1 st2).
  { subst st2. eapply und_trans; [|apply und_channel_setTyping].
    apply und_emit. by repeat constructor. }
  assert (Hsess : sessions st2 = sessions st).
  { subst st2. unfold channel_setTyping. by destruct (has_setTyping channel). }
  destruct (runAgent_spec group (formatMessages (pending st j)) j channel
              (mkLocals None false false) st2)
    as (loc3 & st3 & evs & Hrun & H23 & _ & _ & Hstart & Hhad & Hsent).
  assert (Hin : container_input group (formatMessages (pending st j)) j st2
                = container_input group (formatMessages (pending st j)) j st).
  { unfold container_input. by rewrite Hsess. }
  rewrite Hin in Hrun, Hstart, Hhad, Hsent. fold (batch_run st group j) in Hrun, Hhad, Hsent.
  fold run in Hrun, Hhad, Hsent. cbn [hadError outputSentToUser orb] in Hhad, Hsent.
  rewrite Hrun.
  set (st4 := match idleTimer loc3 with
              | Some h => clearTimeout h (channel_setTyping channel j false st3)
              | None => channel_setTyping channel j false st3
              end).
  assert (H34 : undisturbed st3 st4).
  { subst st4. destruct (idleTimer loc3).
    - eapply und_trans; [apply und_channel_setTyping|apply und_clearTimeout].
    - apply und_channel_setTyping. }
  assert (H14 : undisturbed st1 st4).
  { eapply und_trans; [exact H12|]. eapply und_trans; [exact H23|exact H34]. }
  destruct H14 as [U1 U2 U3 U4 U5 U6 (mid & U7 & U8)].
  assert (Hmid : AgentStart (container_input group (formatMessages (pending st j)) j st)
                 ∈ mid).
  { destruct (und_trace _ _ H12) as (e12 & T12 & _).
    destruct (und_trace _ _ H34) as (e34 & T34 & _).
    destruct (und_trace _ _ H23) as (e23 & T23 & _).
    destruct (runAgent_spec group (formatMessages (pending st j)) j channel
                (mkLocals None false false) st2)
      as (loc3' & st3' & evs' & Hrun' & _ & T23' & _ & Hstart' & _).
    rewrite Hin in Hrun', Hstart'. fold (batch_run st group j) in Hrun'.
    fold run in Hrun'. rewrite Hrun in Hrun'. injection Hrun' as <- <-.
    rewrite T34, T23', T12, <- !app_assoc in U7.
    apply app_inv_head in U7. subst mid.
    apply elem_of_app. right. apply elem_of_app. by left. }
  unfold failed, sent_output. rewrite <- Hhad, <- Hsent.
  destruct (is_error (agent_status run) || hadError loc3) eqn:Hfail; cbn [negb orb andb].
  - destruct (outputSentToUser loc3) eqn:Hout; cbn [negb].
    + exists (emit [Log Warn "Agent error after output was sent, skipping cursor rollback to prevent duplicates"] st4),
             (mid ++ [Log Warn "Agent error after output was sent, skipping cursor rollback to prevent duplicates"]).
      split_and!; try (cbn; congruence).
      * apply Forall_app. split; [done|by repeat constructor].
      * apply elem_of_app. by left.
      * cbn. rewrite U7, S9. cbn. subst first. by rewrite <- !app_assoc.
    + assert (Hrolled : <[j := cursor st j]> (lastAgentTimestamp st4) = rolled).
      { rewrite U2, S2. subst claimed rolled. apply insert_insert_eq. }
      rewrite Hrolled.
      pose proof (move_cursor_fields rolled st4) as HR. cbv zeta in HR.
      set (st5 := saveState (set_lastAgentTimestamp rolled st4)) in *.
      clearbody st5. destruct HR as (R1 & R2 & R3 & R4 & R5 & R6 & R7 & R8 & R9).
      exists (emit [Log Warn "Agent error, rolled back message cursor for retry"] st5), mid.
      split_and!; try done; try (cbn; congruence).
      cbn [trace emit]. rewrite R9, U7, S9, U1, S1.
      subst first. by rewrite <- !app_assoc.
  - exists st4, mid. split_and!; try done; try congruence.
    rewrite U7, S9. subst first. by rewrite <- !app_assoc.
Qed.

(** ** The claims about processGroupMessages *)

(** The events of a call that start the agent or act on the channel. *)
Definition acts (e : Event) : bool :=
  match e with
  | AgentStart _ | ChannelSendMessage _ _ _ | ChannelSetTyping _ _ _ => true
  | _ => false
  end.

(** The two halves put together. *)
Lemma processGroupMessages_phases j st group channel lastMessage :
  registeredGroups st !! j = Some group →
  findChannel channels j = Some channel →
  last (pending st j) = Some lastMessage →
  processGroupMessages j st
  = finish_batch j channel (claim_batch j channel lastMessage st).1
      (runAgent group (formatMessages (pending st j)) j
         (Some (onOutput group j channel))
         (mkLocals None false false, (claim_batch j channel lastMessage st).2)).
Proof.
  intros Hgroup Hchannel Hlast.
  unfold processGroupMessages. rewrite Hgroup, Hchannel.
  fold (pending st j). rewrite Hlast. reflexivity.
Qed.

(** C1.  When the agent run of a batch ends with status [error] and no
    streamed record produced a message for the user, [processGroupMessages]
    returns false and [lastAgentTimestamp[jid]] is [previousCursor] again:
    the string the map held for the group before the call, or the empty
    string if it held none.  So a map that had an entry for the group is
    exactly the map it was, the cursors of the other groups stay as they
    were in any case, and the last cursor write of the call stores exactly
    this restored map. *)
Theorem rollback_on_silent_error (j : list N) (st : State)
    (group : RegisteredGroup) (channel : Channel) (lastMessage : NewMessage) :
  registeredGroups st !! j = Some group →
  findChannel channels j = Some channel →
  last (pending st j) = Some lastMessage →
  agent_status (batch_run st group j) = AgentError →
  sent_output (batch_run st group j) = false →
  let st' := (processGroupMessages j st).2 in
  (processGroupMessages j st).1 = false
  ∧ lastAgentTimestamp st'
    = <[j := default [] (lastAgentTimestamp st !! j)]> (lastAgentTimestamp st)
  ∧ lastAgentTimestamp st' !! j = Some (default [] (lastAgentTimestamp st !! j))
  ∧ (∀ previous, lastAgentTimestamp st !! j = Some previous →
       lastAgentTimestamp st' !! j = Some previous
       ∧ lastAgentTimestamp st' = lastAgentTimestamp st)
  ∧ (∀ k, k ≠ j → lastAgentTimestamp st' !! k = lastAgentTimestamp st !! k)
  ∧ row_last_agent_timestamp (db st') = Some (lastAgentTimestamp st')
  ∧ ∃ evs,
      trace st' = trace st ++ evs
        ++ [PersistLastTimestamp (lastTimestamp st);
            PersistAgentTimestamps (lastAgentTimestamp st');
            Log Warn "Agent error, rolled back message cursor for retry"].
Proof.
  intros Hgroup Hchannel Hlast Herr Hsent st'.
  destruct (processGroupMessages_run j st group channel lastMessage
              Hgroup Hchannel Hlast)
    as (st1 & mid & Hrun & _ & _ & _ & _ & _ & _ & Hrow & Hcase).
  subst st'. rewrite Hrun. cbn [fst snd].
  unfold failed in Hrun, Hcase. rewrite Herr, Hsent in Hcase. cbn in Hcase.
  destruct Hcase as [Hcur Htrace]. unfold cursor in Hcur.
  unfold failed. rewrite Herr, Hsent. cbn [is_error orb negb].
  split_and!; try done.
  - by rewrite Hcur, lookup_insert_eq.
  - intros previous Hprev. rewrite Hcur, Hprev. cbn [default].
    split; [by rewrite lookup_insert_eq|by apply insert_id].
  - intros k Hk. by rewrite Hcur, lookup_insert_ne.
  - exists ([PersistLastTimestamp (lastTimestamp st);
             PersistAgentTimestamps
               (<[j := timestamp lastMessage]> (lastAgentTimestamp st))] ++ mid).
    rewrite Htrace, Hcur. by rewrite <- !app_assoc.
Qed.

(** C2.  When the agent run of a batch ends with status [error] after a
    streamed record produced a message for the user,
    [processGroupMessages] returns true and the cursor stays where the call
    put it, at the timestamp of the last message of the batch, in memory
    and in the store: apart from the write that claimed the batch, the call
    writes no cursor. *)
Theorem no_rollback_after_output (j : list N) (st : State)
    (group : RegisteredGroup) (channel : Channel) (lastMessage : NewMessage) :
  registeredGroups st !! j = Some group →
  findChannel channels j = Some channel →
  last (pending st j) = Some lastMessage →
  agent_status (batch_run st group j) = AgentError →
  sent_output (batch_run st group j) = true →
  let claimed := <[j := timestamp lastMessage]> (lastAgentTimestamp st) in
  let st' := (processGroupMessages j st).2 in
  (processGroupMessages j st).1 = true
  ∧ lastAgentTimestamp st' = claimed
  ∧ cursor st' j = timestamp lastMessage
  ∧ row_last_agent_timestamp (db st') = Some claimed
  ∧ ∃ evs,
      trace st' = trace st
        ++ [PersistLastTimestamp (lastTimestamp st); PersistAgentTimestamps claimed]
        ++ evs
      ∧ Forall (λ e, persists e = false) evs.
Proof.
  intros Hgroup Hchannel Hlast Herr Hsent claimed st'.
  destruct (processGroupMessages_run j st group channel lastMessage
              Hgroup Hchannel Hlast)
    as (st1 & mid & Hrun & Hquiet & _ & _ & _ & _ & _ & Hrow & Hcase).
  subst st'. rewrite Hrun. cbn [fst snd].
  rewrite Hsent in Hcase. rewrite andb_false_r in Hcase.
  destruct Hcase as [Hcur Htrace]. rewrite Hsent, orb_true_r.
  split_and!; try done.
  - unfold cursor. rewrite Hcur. subst claimed. by rewrite lookup_insert_eq.
  - by rewrite Hrow, Hcur.
  - by exists mid.
Qed.

(** C3.  In a call that finds a non-empty batch, [processGroupMessages]
    first saves the previous cursor (the string the map holds for the
    group, or the empty string), moves the group's cursor to the timestamp
    of the last message of the batch and writes it to the store.  In the
    state in which [runAgent] is then called, the cursor map in memory and
    the row [last_agent_timestamp] of the store both hold the advanced
    cursor, and all the call has done by then is the two writes of
    [saveState], a log line and the request for the typing indicator.  The
    run of the agent leaves map and row as they are and starts the
    container; the rest of the call works with the saved previous cursor.
    In the trace of the whole call the cursor write comes before every
    start of the agent and every channel effect. *)
Theorem cursor_claimed_before_agent (j : list N) (st : State)
    (group : RegisteredGroup) (channel : Channel) (lastMessage : NewMessage) :
  registeredGroups st !! j = Some group →
  findChannel channels j = Some channel →
  last (pending st j) = Some lastMessage →
  let claimed := <[j := timestamp lastMessage]> (lastAgentTimestamp st) in
  let previousCursor := default [] (lastAgentTimestamp st !! j) in
  let prompt := formatMessages (pending st j) in
  let st' := (processGroupMessages j st).2 in
  ∃ st1 output loc st3 evs rest,
    claim_batch j channel lastMessage st = (previousCursor, st1)
    ∧ lastAgentTimestamp st1 = claimed
    ∧ row_last_agent_timestamp (db st1) = Some claimed
    ∧ trace st1
      = trace st
        ++ [PersistLastTimestamp (lastTimestamp st);
            PersistAgentTimestamps claimed;
            Log Info "Processing messages"]
        ++ (if has_setTyping channel
            then [ChannelSetTyping (channel_name channel) j true] else [])
    ∧ runAgent group prompt j (Some (onOutput group j channel))
        (mkLocals None false false, st1)
      = (output, (loc, st3))
    ∧ lastAgentTimestamp st3 = claimed
    ∧ row_last_agent_timestamp (db st3) = Some claimed
    ∧ trace st3 = trace st1 ++ evs
    ∧ AgentStart (container_input group prompt j st) ∈ evs
    ∧ Forall (λ e, persists e = false) evs
    ∧ processGroupMessages j st
      = finish_batch j channel previousCursor (output, (loc, st3))
    ∧ trace st' = trace st
        ++ [PersistLastTimestamp (lastTimestamp st); PersistAgentTimestamps claimed]
        ++ rest
    ∧ AgentStart (container_input group prompt j st) ∈ rest
    ∧ ∀ pre e post,
        [PersistLastTimestamp (lastTimestamp st); PersistAgentTimestamps claimed]
          ++ rest = pre ++ e :: post →
        acts e = true →
        PersistAgentTimestamps claimed ∈ pre.
Proof.
  intros Hgroup Hchannel Hlast claimed previousCursor prompt st'.
  pose proof (processGroupMessages_phases j st group channel lastMessage
                Hgroup Hchannel Hlast) as Hphases.
  destruct (processGroupMessages_run j st group channel lastMessage
              Hgroup Hchannel Hlast)
    as (st9 & mid & Hrun & _ & Hstart & _ & _ & _ & _ & _ & Hcase).
  set (st1 := (claim_batch j channel lastMessage st).2) in *.
  assert (Hclaim : claim_batch j channel lastMessage st = (previousCursor, st1))
    by reflexivity.
  assert (H1 : lastAgentTimestamp st1 = claimed
               ∧ row_last_agent_timestamp (db st1) = Some claimed
               ∧ sessions st1 = sessions st
               ∧ trace st1
                 = trace st
                   ++ [PersistLastTimestamp (lastTimestamp st);
                       PersistAgentTimestamps claimed;
                       Log Info "Processing messages"]
                   ++ (if has_setTyping channel
                       then [ChannelSetTyping (channel_name channel) j true]
                       else [])).
  { subst st1. unfold claim_batch, channel_setTyping. cbn [snd].
    destruct (has_setTyping channel); split_and!; try done;
      cbn; by rewrite <- !app_assoc. }
  destruct H1 as (Hmap1 & Hrow1 & Hsess1 & Htrace1).
  destruct (runAgent_spec group prompt j channel (mkLocals None false false) st1)
    as (loc3 & st3 & evs & Hagent & Hund & Htrace3 & Hquiet & Hin & _).
  assert (Hinput : container_input group prompt j st1
                   = container_input group prompt j st).
  { unfold container_input. by rewrite Hsess1. }
  rewrite Hinput in Hin.
  destruct Hund as [_ U2 _ _ _ U6 _].
  exists st1. eexists. exists loc3, st3, evs.
  assert (Hshape : ∃ rest,
            trace st9 = trace st
              ++ [PersistLastTimestamp (lastTimestamp st);
                  PersistAgentTimestamps claimed] ++ rest
            ∧ AgentStart (container_input group prompt j st) ∈ rest).
  { destruct (failed (batch_run st group j) && negb (sent_output (batch_run st group j)));
      destruct Hcase as [_ Htrace].
    - eexists. split; [exact Htrace|]. apply elem_of_app. by left.
    - by exists mid. }
  destruct Hshape as (rest & Htrace & Hrest). exists rest.
  split_and!; try done.
  - by rewrite U2.
  - by rewrite U6.
  - rewrite Hphases. cbn [fst]. fold st1. fold prompt. by rewrite Hagent.
  - subst st'. by rewrite Hrun.
  - intros pre e post Heq Hacts.
    destruct pre as [|x [|y pre]]; simplify_eq/=.
    apply list_elem_of_further, list_elem_of_here.
Qed.

(** C6.  A call that finds no pending message returns true and changes
    neither cursor, neither in memory nor in the store; it adds nothing to
    the trace except, when no channel owns the JID, the console warning. *)
Theorem no_pending_is_noop (j : list N) (st : State) :
  pending st j = [] →
  let st' := (processGroupMessages j st).2 in
  (processGroupMessages j st).1 = true
  ∧ lastTimestamp st' = lastTimestamp st
  ∧ lastAgentTimestamp st' = lastAgentTimestamp st
  ∧ db st' = db st
  ∧ (st' = st
     ∨ st' = emit [ConsoleLog "Warning: no channel owns JID, skipping messages" j] st).
Proof.
  intros Hpending. unfold processGroupMessages.
  destruct (registeredGroups st !! j) as [group|].
  2:{ cbn [fst snd]. unfold not_registered.
      destruct (inherited j); split_and!; try reflexivity; [by right|by left]. }
  destruct (findChannel channels j) as [channel|].
  2:{ cbn [fst snd]. split_and!; try reflexivity. by right. }
  fold (pending st j). rewrite Hpending. cbn [last fst snd].
  split_and!; try reflexivity. by left.
Qed.

(** ** The idle timer *)

(** Timer [h] is armed: it will expire unless it is cleared first. *)
Definition armed (st : State) (h : nat) : Prop :=
  ∃ x, timers st !! h = Some (Some x).

(** From [st] to [st'] no timer was armed. *)
Definition only_disarms (st st' : State) : Prop :=
  ∀ h, armed st' h → armed st h.




Lemma od_same_timers st st' : timers st' = timers st → only_disarms st st'.
Proof. intros E h. unfold armed. by rewrite E. Qed.

Lemma armed_disarm st h h' v :
  timers v = <[h := None]> (timers st) → armed v h' → armed st h' ∧ h' ≠ h.
Proof.
  intros E [x Hx]. rewrite E in Hx.
  destruct (decide (h = h')) as [->|Hne].
  - destruct (decide (h' < length (timers st))) as [Hlt|Hge].
    + by rewrite list_lookup_insert_eq in Hx.
    + rewrite list_insert_ge in Hx by lia.
      apply lookup_lt_Some in Hx. lia.
  - rewrite list_lookup_insert_ne in Hx by done. split; [by exists x|done].
Qed.

Lemma od_clearTimeout h st : only_disarms st (clearTimeout h st).
Proof. intros h' Hh'. by eapply (armed_disarm st h h' (clearTimeout h st)). Qed.







Lemma od_move_cursor m st :
  only_disarms st (saveState (set_lastAgentTimestamp m st)).
Proof. by apply od_same_timers. Qed.











(** ** The order on timestamps *)

Lemma str_ltb_irrefl a : str_ltb a a = false.
Proof.
  induction a as [|x a IH]; [done|]. cbn.
  rewrite N.ltb_irrefl, N.eqb_refl. by rewrite IH.
Qed.

Lemma str_ltb_cotrans a b c :
  str_ltb a c = true → str_ltb a b = true ∨ str_ltb b c = true.
Proof.
  revert b c. induction a as [|x a IH]; intros [|y b] [|z c]; cbn; try by auto.
  intros H.
  destruct (N.ltb_spec x y); [by left|].
  destruct (N.ltb_spec y z); [by right|].
  destruct (N.ltb_spec x z) as [?|Hxz]; [lia|].
  destruct (N.eqb_spec x z) as [->|?]; [|done]. cbn in H.
  destruct (N.eqb_spec z y) as [->|?]; [|lia].
  rewrite N.eqb_refl. cbn. by apply IH.
Qed.

Lemma str_ltb_asym a b : str_ltb a b = true → str_ltb b a = false.
Proof.
  revert b. induction a as [|x a IH]; intros [|y b]; cbn; try done.
  intros H. destruct (N.ltb_spec x y) as [Hxy|Hxy]; cbn in H.
  - rewrite (proj2 (N.ltb_ge y x)) by lia.
    by rewrite (proj2 (N.eqb_neq y x)) by lia.
  - apply andb_prop in H as [->%N.eqb_eq Hab].
    by rewrite N.ltb_irrefl, N.eqb_refl, (IH b Hab).
Qed.

Lemma str_leb_refl a : str_leb a a = true.
Proof. unfold str_leb. by rewrite str_ltb_irrefl. Qed.

Lemma str_leb_trans a b c :
  str_leb a b = true → str_leb b c = true → str_leb a c = true.
Proof.
  unfold str_leb. intros H1%negb_true_iff H2%negb_true_iff.
  apply negb_true_iff. destruct (str_ltb c a) eqn:E; [|done].
  destruct (str_ltb_cotrans c b a E); congruence.
Qed.

Lemma str_ltb_leb a b : str_ltb a b = true → str_leb a b = true.
Proof. unfold str_leb. intros H. by rewrite (str_ltb_asym a b H). Qed.

(** ** One poll of the message loop *)

(** The batch the loop pipes for a group: everything pending since the
    agent cursor, or, when that is empty, the group's share of the newly
    observed messages. *)
Definition batch_to_pipe (st : State) (chatJid : jsstring)
    (groupMessages : list NewMessage) : list NewMessage :=
  match pending st chatJid with
  | _ :: _ => pending st chatJid
  | [] => groupMessages
  end.

(** What the loop does with a group of the batch, as the code has it.  For
    a group with newly observed messages, a registered entry and a
    channel, the loop formats the messages pending since
    [lastAgentTimestamp[jid]] when there are any, and otherwise the group's
    newly observed messages, and offers the text to [queue.sendMessage].
    If it is accepted, [lastAgentTimestamp[jid]] becomes the timestamp of
    the last message of that batch and is saved, and typing is requested;
    if it is rejected, the loop calls [queue.enqueueMessageCheck(jid)] and
    changes neither the cursor nor the store. *)
Lemma dispatch_group_pipes (j : list N) (groupMessages : list NewMessage)
    (st : State) (group : RegisteredGroup) (channel : Channel)
    (lastMessage : NewMessage) :
  registeredGroups st !! j = Some group →
  findChannel channels j = Some channel →
  last (batch_to_pipe st j groupMessages) = Some lastMessage →
  let formatted := formatMessages (batch_to_pipe st j groupMessages) in
  let st' := (dispatch_group st (j, groupMessages)).2 in
  (dispatch_group st (j, groupMessages)).1 = Normal
  ∧ (pending st j ≠ [] → batch_to_pipe st j groupMessages = pending st j)
  ∧ (pending st j = [] → batch_to_pipe st j groupMessages = groupMessages)
  ∧ lastTimestamp st' = lastTimestamp st
  ∧ if queue_sendMessage j formatted
    then lastAgentTimestamp st'
         = <[j := timestamp lastMessage]> (lastAgentTimestamp st)
         ∧ row_last_agent_timestamp (db st') = Some (lastAgentTimestamp st')
         ∧ trace st' = trace st
             ++ [QueueSendMessage j formatted true;
                 Log Debug "Piped messages to active container";
                 PersistLastTimestamp (lastTimestamp st);
                 PersistAgentTimestamps (lastAgentTimestamp st')]
             ++ (if has_setTyping channel
                 then [ChannelSetTyping (channel_name channel) j true] else [])
    else lastAgentTimestamp st' = lastAgentTimestamp st
         ∧ db st' = db st
         ∧ trace st' = trace st
             ++ [QueueSendMessage j formatted false; QueueEnqueueMessageCheck j].
Proof.
  intros Hgroup Hchannel Hlast formatted st'. subst st' formatted.
  unfold dispatch_group. rewrite Hgroup, Hchannel.
  fold (pending st j). fold (batch_to_pipe st j groupMessages).
  destruct (queue_sendMessage j (formatMessages (batch_to_pipe st j groupMessages))).
  - rewrite Hlast. unfold channel_setTyping.
    split_and!; try done.
    + unfold batch_to_pipe. by destruct (pending st j).
    + unfold batch_to_pipe. by intros ->.
    + by destruct (has_setTyping channel).
    + by destruct (has_setTyping channel).
    + by destruct (has_setTyping channel).
    + destruct (has_setTyping channel); cbn; by rewrite <- !app_assoc.
  - split_and!; try done.
    + unfold batch_to_pipe. by destruct (pending st j).
    + unfold batch_to_pipe. by intros ->.
    + cbn. by rewrite <- !app_assoc.
Qed.

(** [dispatch_group] keeps the observation cursor, keeps its row once the
    row agrees with it, and only appends to the trace. *)
Lemma dispatch_group_observation st entry :
  let st' := (dispatch_group st entry).2 in
  lastTimestamp st' = lastTimestamp st
  ∧ (row_last_timestamp (db st) = Some (lastTimestamp st) →
     row_last_timestamp (db st') = Some (lastTimestamp st))
  ∧ ∃ evs, trace st' = trace st ++ evs.
Proof.
  destruct entry as [j groupMessages]. unfold dispatch_group.
  destruct (registeredGroups st !! j) as [group|].
  2:{ cbn [snd]. destruct (not_registered_emit j st) as (evs & -> & _).
      split_and!; try done. by exists evs. }
  destruct (findChannel channels j) as [channel|].
  2:{ split_and!; try done. by eexists. }
  set (toSend := match getMessagesSince _ _ _ _ with _ :: _ => _ | [] => _ end).
  destruct (queue_sendMessage j (formatMessages toSend)).
  - destruct (last toSend) as [lastMessage|].
    + unfold channel_setTyping. destruct (has_setTyping channel);
        (split_and!; try done; eexists; cbn; by rewrite <- !app_assoc).
    + split_and!; try done. eexists. cbn. by rewrite <- !app_assoc.
  - split_and!; try done. eexists. cbn. by rewrite <- !app_assoc.
Qed.

Lemma dispatch_groups_observation groups st :
  let st' := (dispatch_groups groups st).2 in
  lastTimestamp st' = lastTimestamp st
  ∧ (row_last_timestamp (db st) = Some (lastTimestamp st) →
     row_last_timestamp (db st') = Some (lastTimestamp st))
  ∧ ∃ evs, trace st' = trace st ++ evs.
Proof.
  revert st. induction groups as [|entry groups IH]; intros st.
  - split_and!; try done. exists []. by rewrite app_nil_r.
  - cbn [dispatch_groups].
    destruct (dispatch_group_observation st entry) as (H1 & H2 & evs1 & H3).
    cbv zeta in H1, H2, H3.
    destruct (dispatch_group st entry) as [[|] st1]; cbn [snd] in *.
    + destruct (IH st1) as (I1 & I2 & evs2 & I3). cbv zeta in I1, I2, I3.
      split_and!.
      * congruence.
      * intros Hrow. rewrite <- H1. apply I2. rewrite H1. by apply H2.
      * exists (evs1 ++ evs2). by rewrite I3, H3, app_assoc.
    + split_and!; try done. by exists evs1.
Qed.

(** The newest timestamp [getNewMessages] reports is never below the
    cursor it was asked about. *)
Lemma newest_ge rows acc :
  str_leb acc
    (fold_left (λ newest m, if str_ltb newest (timestamp m)
                            then timestamp m else newest) rows acc) = true.
Proof.
  revert acc. induction rows as [|m rows IH]; intros acc; [apply str_leb_refl|].
  cbn [fold_left]. destruct (str_ltb acc (timestamp m)) eqn:E.
  - eapply str_leb_trans; [by apply str_ltb_leb|apply IH].
  - apply IH.
Qed.

(** What the program does while the message loop runs: the loop polls,
    the queue runs [processGroupMessages], or something else happens that
    does not assign [lastTimestamp] (a channel stores a message, the
    scheduler fires, ...). *)
Inductive loop_reaches (st : State) : State → Prop :=
| reach_start : loop_reaches st st
| reach_poll st1 : loop_reaches st st1 → loop_reaches st (poll_once st1)
| reach_process st1 j :
    loop_reaches st st1 → loop_reaches st (processGroupMessages j st1).2
| reach_other st1 st2 :
    loop_reaches st st1 → lastTimestamp st2 = lastTimestamp st1 →
    loop_reaches st st2.

Lemma poll_once_first st msgs newTimestamp :
  getNewMessages (db st) (map fst (map_to_list (registeredGroups st)))
    (lastTimestamp st) ASSISTANT_NAME = (msgs, newTimestamp) →
  msgs ≠ [] →
  lastTimestamp (poll_once st) = newTimestamp
  ∧ row_last_timestamp (db (poll_once st)) = Some newTimestamp
  ∧ ∃ rest,
      trace (poll_once st)
      = trace st ++ [Log Info "New messages";
                     PersistLastTimestamp newTimestamp;
                     PersistAgentTimestamps (lastAgentTimestamp st)] ++ rest.
Proof.
  intros Hnew Hne. unfold poll_once. rewrite Hnew.
  destruct msgs as [|m msgs]; [done|].
  set (st1 := saveState (set_lastTimestamp newTimestamp
                           (emit [Log Info "New messages"] st))).
  assert (S1 : lastTimestamp st1 = newTimestamp) by done.
  assert (S2 : row_last_timestamp (db st1) = Some newTimestamp) by done.
  assert (S3 : trace st1 = trace st ++ [Log Info "New messages";
                 PersistLastTimestamp newTimestamp;
                 PersistAgentTimestamps (lastAgentTimestamp st)]).
  { cbn. by rewrite <- !app_assoc. }
  clearbody st1.
  destruct (dispatch_groups_observation (messagesByGroup (m :: msgs)) st1)
    as (D1 & D2 & evs & D3). cbv zeta in D1, D2, D3.
  destruct (dispatch_groups (messagesByGroup (m :: msgs)) st1) as [[|] st2];
    cbn [snd] in *.
  - split_and!; [congruence|rewrite D2; congruence|].
    exists evs. by rewrite D3, S3, <- !app_assoc.
  - split_and!; [cbn; congruence|cbn; rewrite D2; congruence|].
    exists (evs ++ [Log Error "Error in message loop"]).
    cbn. by rewrite D3, S3, <- !app_assoc.
Qed.

Lemma poll_once_monotone st :
  str_leb (lastTimestamp st) (lastTimestamp (poll_once st)) = true.
Proof.
  destruct (getNewMessages (db st) (map fst (map_to_list (registeredGroups st)))
              (lastTimestamp st) ASSISTANT_NAME) as [msgs newTimestamp] eqn:Hnew.
  destruct msgs as [|m msgs].
  - unfold poll_once. rewrite Hnew. apply str_leb_refl.
  - destruct (poll_once_first st (m :: msgs) newTimestamp Hnew) as (-> & _); [done|].
    unfold getNewMessages in Hnew. injection Hnew as _ <-. apply newest_ge.
Qed.

Lemma processGroupMessages_lastTimestamp j st :
  lastTimestamp (processGroupMessages j st).2 = lastTimestamp st.
Proof.
  destruct (registeredGroups st !! j) as [group|] eqn:Hgroup.
  2:{ unfold processGroupMessages. rewrite Hgroup. cbn [snd].
      by destruct (not_registered_cases j st) as [-> | ->]. }
  destruct (findChannel channels j) as [channel|] eqn:Hchannel.
  2:{ unfold processGroupMessages. by rewrite Hgroup, Hchannel. }
  destruct (last (pending st j)) as [lastMessage|] eqn:Hlast.
  2:{ unfold processGroupMessages. rewrite Hgroup, Hchannel.
      fold (pending st j). by rewrite Hlast. }
  destruct (processGroupMessages_run j st group channel lastMessage
              Hgroup Hchannel Hlast) as (st' & mid & -> & _ & _ & H & _).
  exact H.
Qed.

(** C5.  In a poll that observes new messages, the first effects are the
    log line and the writes of [saveState] with [last_timestamp] already
    at [newTimestamp], the newest timestamp observed; all work for the
    groups comes after them in the trace, and [lastTimestamp] is still
    [newTimestamp] when the poll ends.  Hence, however polls, runs of
    [processGroupMessages] and other activity interleave, [lastTimestamp]
    never decreases. *)
Theorem observation_cursor (st : State) :
  (∀ msgs newTimestamp,
     getNewMessages (db st) (map fst (map_to_list (registeredGroups st)))
       (lastTimestamp st) ASSISTANT_NAME = (msgs, newTimestamp) →
     msgs ≠ [] →
     lastTimestamp (poll_once st) = newTimestamp
     ∧ row_last_timestamp (db (poll_once st)) = Some newTimestamp
     ∧ ∃ rest,
         trace (poll_once st)
         = trace st ++ [Log Info "New messages";
                        PersistLastTimestamp newTimestamp;
                        PersistAgentTimestamps (lastAgentTimestamp st)] ++ rest)
  ∧ ∀ st', loop_reaches st st' →
           str_leb (lastTimestamp st) (lastTimestamp st') = true.
Proof.
  split.
  - intros msgs newTimestamp. apply poll_once_first.
  - intros st' Hreach. induction Hreach as [|st1 _ IH|st1 j _ IH|st1 st2 _ IH E].
    + apply str_leb_refl.
    + eapply str_leb_trans; [exact IH|apply poll_once_monotone].
    + by rewrite processGroupMessages_lastTimestamp.
    + by rewrite E.
Qed.

(** ** The batch of a poll, chat by chat *)

(** The chats of a batch in the order in which they first appear. *)
Definition see_jid (seen : list (list N)) (msg : NewMessage) : list (list N) :=
  if bool_decide (chat_jid msg ∈ seen) then seen else seen ++ [chat_jid msg].

Definition jids_in_order (msgs : list NewMessage) : list (list N) :=
  fold_left see_jid msgs [].

(** The messages of a batch that belong to a chat, in batch order. *)
Definition of_chat (msgs : list NewMessage) (j : list N) : list N * list NewMessage :=
  (j, filter (λ m, chat_jid m = j) msgs).

Lemma of_chat_snoc_other msgs msg j :
  j ≠ chat_jid msg → of_chat (msgs ++ [msg]) j = of_chat msgs j.
Proof.
  intros Hne. unfold of_chat. rewrite filter_app, filter_cons, filter_nil.
  rewrite decide_False by congruence. by rewrite app_nil_r.
Qed.

Lemma of_chat_snoc_same msgs msg :
  of_chat (msgs ++ [msg]) (chat_jid msg)
  = (chat_jid msg, (of_chat msgs (chat_jid msg)).2 ++ [msg]).
Proof.
  unfold of_chat. rewrite filter_app, filter_cons, filter_nil.
  by rewrite decide_True.
Qed.

Lemma add_to_group_seen msgs msg seen :
  NoDup seen → chat_jid msg ∈ seen →
  add_to_group msg (map (of_chat msgs) seen) = map (of_chat (msgs ++ [msg])) seen.
Proof.
  induction seen as [|j seen IH]; intros Hnd Hin; [by apply elem_of_nil in Hin|].
  apply NoDup_cons in Hnd as [Hj Hnd]. cbn [map add_to_group of_chat].
  case_bool_decide as E.
  - subst j. fold (of_chat msgs (chat_jid msg)).
    rewrite of_chat_snoc_same. f_equal.
    apply map_ext_in. intros j' Hj'%list_elem_of_In.
    symmetry. apply of_chat_snoc_other. by intros ->.
  - fold (of_chat msgs j). rewrite of_chat_snoc_other by done. f_equal.
    apply IH; [done|]. apply elem_of_cons in Hin as [Hin|Hin]; [congruence|done].
Qed.

Lemma add_to_group_new msgs msg seen :
  chat_jid msg ∉ seen → (∀ m, m ∈ msgs → chat_jid m ∈ seen) →
  add_to_group msg (map (of_chat msgs) seen)
  = map (of_chat (msgs ++ [msg])) (seen ++ [chat_jid msg]).
Proof.
  intros Hnew Hall.
  assert (Hnone : filter (λ m, chat_jid m = chat_jid msg) msgs = []).
  { clear -Hnew Hall. induction msgs as [|m msgs IH]; [done|].
    rewrite filter_cons, decide_False.
    - apply IH. intros m' Hm'. by apply Hall, list_elem_of_further.
    - intros E. apply Hnew. rewrite <- E. apply Hall, list_elem_of_here. }
  rewrite map_app. cbn [map]. rewrite of_chat_snoc_same.
  unfold of_chat at 3. cbn [snd]. rewrite Hnone. cbn [app].
  clear Hall Hnone. induction seen as [|j seen IH]; [done|].
  cbn [map add_to_group of_chat app].
  rewrite bool_decide_eq_false_2.
  2:{ intros ->. apply Hnew, list_elem_of_here. }
  fold (of_chat msgs j). rewrite of_chat_snoc_other.
  2:{ intros ->. apply Hnew, list_elem_of_here. }
  f_equal. apply IH. intros ?. by apply Hnew, list_elem_of_further.
Qed.

Lemma group_fold msgs2 msgs1 seen :
  NoDup seen → (∀ m, m ∈ msgs1 → chat_jid m ∈ seen) →
  fold_left (λ groups msg, add_to_group msg groups) msgs2
    (map (of_chat msgs1) seen)
  = map (of_chat (msgs1 ++ msgs2)) (fold_left see_jid msgs2 seen)
  ∧ NoDup (fold_left see_jid msgs2 seen)
  ∧ (∀ j, j ∈ fold_left see_jid msgs2 seen
          ↔ j ∈ seen ∨ ∃ m, m ∈ msgs2 ∧ chat_jid m = j).
Proof.
  revert msgs1 seen. induction msgs2 as [|msg msgs2 IH]; intros msgs1 seen Hnd Hall.
  { cbn. rewrite app_nil_r. split_and!; [done|done|].
    intros j. split; [by left|]. intros [?|(m & Hm & _)]; [done|].
    by apply elem_of_nil in Hm. }
  cbn [fold_left]. unfold see_jid at 2 4 6.
  assert (Hstep : add_to_group msg (map (of_chat msgs1) seen)
                  = map (of_chat (msgs1 ++ [msg]))
                      (if bool_decide (chat_jid msg ∈ seen) then seen
                       else seen ++ [chat_jid msg])).
  { case_bool_decide; [by apply add_to_group_seen|by apply add_to_group_new]. }
  rewrite Hstep.
  set (seen' := if bool_decide (chat_jid msg ∈ seen) then seen
                else seen ++ [chat_jid msg]).
  assert (Hseen' : ∀ j, j ∈ seen' ↔ j ∈ seen ∨ j = chat_jid msg).
  { intros j. subst seen'. case_bool_decide.
    - split; [by left|]. intros [?| ->]; done.
    - rewrite elem_of_app, list_elem_of_singleton. done. }
  destruct (IH (msgs1 ++ [msg]) seen') as (H1 & H2 & H3).
  - subst seen'. case_bool_decide; [done|].
    apply NoDup_app. split_and!; [done| |apply NoDup_singleton].
    by intros j Hj ->%list_elem_of_singleton.
  - intros m [Hm| ->%list_elem_of_singleton]%elem_of_app; apply Hseen'.
    + left. by apply Hall.
    + by right.
  - rewrite <- app_assoc in H1. cbn [app] in H1. split_and!; [done|done|].
    intros j. rewrite H3, Hseen'. split.
    + intros [[?| ->]|(m & Hm & Hj)].
      * by left.
      * right. exists msg. split; [apply list_elem_of_here|done].
      * right. exists m. split; [by apply list_elem_of_further|done].
    + intros [?|(m & [->|Hm]%elem_of_cons & Hj)].
      * left. by left.
      * left. by right.
      * right. by exists m.
Qed.

Lemma messagesByGroup_spec (msgs : list NewMessage) :
  messagesByGroup msgs = map (of_chat msgs) (jids_in_order msgs)
  ∧ NoDup (jids_in_order msgs)
  ∧ (∀ j, j ∈ jids_in_order msgs ↔ ∃ m, m ∈ msgs ∧ chat_jid m = j)
  ∧ Forall (λ entry, entry.2 ≠ []) (messagesByGroup msgs).
Proof.
  destruct (group_fold msgs [] []) as (H1 & H2 & H3).
  { constructor. }
  { intros m Hm. by apply elem_of_nil in Hm. }
  cbn [map app] in H1.
  assert (H3' : ∀ j, j ∈ jids_in_order msgs ↔ ∃ m, m ∈ msgs ∧ chat_jid m = j).
  { intros j. unfold jids_in_order. rewrite H3. split; [|by right].
    intros [Hj|?]; [by apply elem_of_nil in Hj|done]. }
  split_and!; [exact H1|exact H2|exact H3'|].
  unfold messagesByGroup. rewrite H1. apply Forall_map, Forall_forall.
  intros j Hj. apply H3' in Hj as (m & Hm & Hmj). cbn.
  intros Hnil. assert (Hin : m ∈ filter (λ m, chat_jid m = j) msgs).
  { by apply list_elem_of_filter. }
  rewrite Hnil in Hin. by apply elem_of_nil in Hin.
Qed.

(** X15.  [messagesByGroup] splits the batch of a poll by chat: one entry
    for each chat that has a message in the batch and no other, the chats in
    the order in which they first appear, and under each chat its messages of
    the batch, all of them and in batch order; no entry is empty. *)
Theorem messagesByGroup_partition (msgs : list NewMessage) :
  messagesByGroup msgs
  = map (λ j, (j, filter (λ m, chat_jid m = j) msgs)) (jids_in_order msgs)
  ∧ NoDup (jids_in_order msgs)
  ∧ (∀ j, j ∈ jids_in_order msgs ↔ ∃ m, m ∈ msgs ∧ chat_jid m = j)
  ∧ Forall (λ entry, entry.2 ≠ []) (messagesByGroup msgs).
Proof. apply messagesByGroup_spec. Qed.

Lemma dispatch_group_normal st j groupMessages :
  groupMessages ≠ [] → (dispatch_group st (j, groupMessages)).1 = Normal.
Proof.
  intros Hne. unfold dispatch_group.
  destruct (registeredGroups st !! j); [|done].
  destruct (findChannel channels j); [|done].
  set (batch := match getMessagesSince _ _ _ _ with _ :: _ => _ | [] => _ end).
  assert (Hbatch : batch ≠ []).
  { subst batch. by destruct (getMessagesSince _ _ _ _). }
  destruct (queue_sendMessage j (formatMessages batch)); [|done].
  destruct (last batch) eqn:E; [done|].
  apply last_None in E. done.
Qed.

(** X16.  The loop over the chats of a batch never throws: the only read
    that could, the timestamp of the last message of the batch to pipe, is
    never made on an empty batch, because every chat of the batch comes with
    at least one message.  So one poll never takes its [catch] branch for a
    reason of its own, and every chat of the batch gets its turn. *)
Theorem poll_dispatch_never_throws (msgs : list NewMessage) (st : State) :
  (dispatch_groups (messagesByGroup msgs) st).1 = Normal.
Proof.
  destruct (messagesByGroup_spec msgs) as (_ & _ & _ & Hne).
  revert st. induction Hne as [|[j ms] groups Hms _ IH]; intros st; [done|].
  cbn [dispatch_groups].
  pose proof (dispatch_group_normal st j ms Hms) as Hn.
  destruct (dispatch_group st (j, ms)) as [c st1]. cbn in Hn. subst c.
  apply IH.
Qed.

(** ** Sessions and replies of a run *)

(** The messages handed to channels, as (channel, chat, text), in order. *)
Definition sends (tr : list Event) : list (list N * list N * list N) :=
  omap (λ e, match e with
             | ChannelSendMessage c j t => Some (c, j, t)
             | _ => None
             end) tr.

(** [if (output.newSessionId) sessions[folder] = output.newSessionId], on a
    map of sessions. *)
Definition track (folder : list N) (m : gmap (list N) (list N))
    (o : ContainerOutput) : gmap (list N) (list N) :=
  match newSessionId o with
  | Some sid => if truthy sid then <[folder := sid]> m else m
  | None => m
  end.

Definition tracked (folder : list N) (os : list ContainerOutput)
    (m : gmap (list N) (list N)) : gmap (list N) (list N) :=
  fold_left (track folder) os m.

(** The session ids a list of records reports. *)
Definition reported (os : list ContainerOutput) : list (list N) :=
  omap (λ o, match newSessionId o with
             | Some sid => if truthy sid then Some sid else None
             | None => None
             end) os.

(** The replies that a list of streamed records makes the router send. *)
Definition replies (c : Channel) (j : list N) (os : list ContainerOutput)
  : list (list N * list N * list N) :=
  map (λ o, (channel_name c, j, outbound_text o)) (List.filter visible os).

(** The records a run reports a session with: those of the stream, then the
    one it settles with. *)
Definition session_records (run : AgentRun) : list ContainerOutput :=
  outputs run ++ match settled run with Some o => [o] | None => [] end.

(** [st'] comes after [st] with the sessions, in memory and in the store,
    tracked over the records [ts], and with the replies to the records [rs]
    sent. *)
Record summary (folder : list N) (c : Channel) (j : list N)
    (ts rs : list ContainerOutput) (st st' : State) : Prop := mkSummary {
  sum_sessions : sessions st' = tracked folder ts (sessions st);
  sum_rows : row_sessions (db st') = tracked folder ts (row_sessions (db st));
  sum_sends : sends (trace st') = sends (trace st) ++ replies c j rs
}.

Lemma sends_app tr1 tr2 : sends (tr1 ++ tr2) = sends tr1 ++ sends tr2.
Proof. apply omap_app. Qed.

Lemma replies_app c j os1 os2 :
  replies c j (os1 ++ os2) = replies c j os1 ++ replies c j os2.
Proof. unfold replies. by rewrite List.filter_app, map_app. Qed.

Lemma replies_single c j o :
  replies c j [o]
  = if visible o then [(channel_name c, j, outbound_text o)] else [].
Proof. unfold replies. cbn. by destruct (visible o). Qed.

Lemma sum_refl f c j st : summary f c j [] [] st st.
Proof. constructor; try done. cbn. by rewrite app_nil_r. Qed.

Lemma sum_trans f c j ts1 rs1 ts2 rs2 st1 st2 st3 :
  summary f c j ts1 rs1 st1 st2 → summary f c j ts2 rs2 st2 st3 →
  summary f c j (ts1 ++ ts2) (rs1 ++ rs2) st1 st3.
Proof.
  intros [a1 a2 a3] [b1 b2 b3]. constructor.
  - unfold tracked in *. by rewrite fold_left_app, <- a1.
  - unfold tracked in *. by rewrite fold_left_app, <- a2.
  - by rewrite b3, a3, replies_app, app_assoc.
Qed.

(** A step that reports nothing and sends nothing. *)
Definition silent (st st' : State) : Prop :=
  sessions st' = sessions st
  ∧ row_sessions (db st') = row_sessions (db st)
  ∧ sends (trace st') = sends (trace st).

Lemma silent_refl st : silent st st.
Proof. done. Qed.

Lemma silent_trans st1 st2 st3 : silent st1 st2 → silent st2 st3 → silent st1 st3.
Proof. intros (a1 & a2 & a3) (b1 & b2 & b3). split_and!; congruence. Qed.

Lemma silent_summary f c j st st' : silent st st' → summary f c j [] [] st st'.
Proof.
  intros (a1 & a2 & a3). constructor; try done. rewrite a3. cbn. by rewrite app_nil_r.
Qed.

Lemma sum_silent_l f c j ts rs st1 st2 st3 :
  silent st1 st2 → summary f c j ts rs st2 st3 → summary f c j ts rs st1 st3.
Proof.
  intros H1 H2. apply (sum_trans f c j [] [] ts rs st1 st2 st3); [|done].
  by apply silent_summary.
Qed.

Lemma sum_silent_r f c j ts rs st1 st2 st3 :
  summary f c j ts rs st1 st2 → silent st2 st3 → summary f c j ts rs st1 st3.
Proof.
  intros H1 H2.
  pose proof (sum_trans f c j ts rs [] [] st1 st2 st3 H1 (silent_summary f c j _ _ H2)) as H.
  by rewrite !app_nil_r in H.
Qed.

Lemma silent_emit evs st : sends evs = [] → silent st (emit evs st).
Proof.
  intros H. split_and!; try done. cbn. by rewrite sends_app, H, app_nil_r.
Qed.

Lemma silent_clearTimeout h st : silent st (clearTimeout h st).
Proof. split_and!; try done. cbn. by rewrite sends_app, app_nil_r. Qed.

Lemma silent_setTimeout cb d st : silent st (setTimeout cb d st).2.
Proof. split_and!; try done. cbn. by rewrite sends_app, app_nil_r. Qed.

Lemma silent_fire st x : silent st (fire st x).
Proof.
  unfold fire, run_callback. destruct x as [h [d [jid gname]]].
  split_and!; try done. cbn. by rewrite !sends_app, !app_nil_r.
Qed.

Lemma silent_fold_fire xs st : silent st (fold_left fire xs st).
Proof.
  revert st. induction xs as [|x xs IH]; intros st; [done|].
  cbn [fold_left]. eapply silent_trans; [apply silent_fire|apply IH].
Qed.

Lemma silent_elapse ms st : silent st (elapse ms st).
Proof.
  unfold elapse. eapply silent_trans; [|apply silent_fold_fire]. done.
Qed.

Lemma silent_channel_setTyping c j b st : silent st (channel_setTyping c j b st).
Proof.
  unfold channel_setTyping. destruct (has_setTyping c); [|done].
  by apply silent_emit.
Qed.

Lemma silent_resetIdleTimer group j loc st :
  silent st (resetIdleTimer group j (loc, st)).2.
Proof.
  unfold resetIdleTimer. destruct (idleTimer loc) as [h|]; cbn [snd].
  - eapply silent_trans; [apply silent_clearTimeout|].
    apply (silent_setTimeout (IdleClose j (name group)) IDLE_TIMEOUT).
  - apply (silent_setTimeout (IdleClose j (name group)) IDLE_TIMEOUT).
Qed.

Lemma sum_track_session group c j o st :
  summary (folder group) c j [o] [] st (track_session group o st).
Proof.
  unfold track_session. constructor; unfold tracked, track; cbn [fold_left].
  - destruct (newSessionId o) as [sid|]; [|done]. by destruct (truthy sid).
  - destruct (newSessionId o) as [sid|]; [|done]. by destruct (truthy sid).
  - cbn. rewrite app_nil_r.
    destruct (newSessionId o) as [sid|]; [|done].
    destruct (truthy sid); [|done]. cbn. by rewrite sends_app, app_nil_r.
Qed.

Lemma sum_onOutput group c j o loc st :
  summary (folder group) c j [] [o] st (onOutput group j c o (loc, st)).2.
Proof.
  unfold onOutput.
  set (ls1 := if payload_truthy (result o) then _ else _).
  assert (H1 : summary (folder group) c j [] [o] st ls1.2).
  { subst ls1.
    destruct (payload_truthy (result o)) eqn:Hp.
    - destruct (truthy (outbound_text o)) eqn:Ht.
      + eapply sum_silent_r; [|apply silent_resetIdleTimer].
        constructor; [done|done|]. rewrite replies_single. unfold visible.
        rewrite Hp, Ht. cbn. by rewrite !sends_app, app_nil_r.
      + eapply sum_silent_r; [|apply silent_resetIdleTimer].
        constructor; [done|done|]. rewrite replies_single. unfold visible.
        rewrite Hp, Ht. cbn. by rewrite !sends_app, !app_nil_r.
    - constructor; [done|done|]. rewrite replies_single. unfold visible.
      rewrite Hp. cbn. by rewrite app_nil_r. }
  destruct ls1 as [loc1 st1]. cbn [snd] in *.
  eapply sum_silent_r; [exact H1|].
  destruct (status o); try apply silent_refl. by apply silent_emit.
Qed.

Lemma sum_stream group c j items loc st :
  summary (folder group) c j (streamed items) (streamed items) st
    (fold_left (stream_step (Some (wrappedOnOutput group (onOutput group j c))))
       items (loc, st)).2.
Proof.
  revert loc st. induction items as [|i items IH]; intros loc st; [apply sum_refl|].
  cbn [fold_left]. destruct i as [o|ms]; cbn [stream_step]; rewrite ?wrappedOnOutput_eq.
  - destruct (onOutput group j c o (loc, track_session group o st))
      as [loc1 st1] eqn:E.
    change (streamed (Streamed o :: items)) with ([o] ++ streamed items).
    eapply sum_trans; [|apply IH].
    pose proof (sum_trans _ _ _ _ _ _ _ _ _ _ (sum_track_session group c j o st)
                  (sum_onOutput group c j o loc (track_session group o st))) as H.
    by rewrite E in H.
  - change (streamed (Quiet ms :: items)) with (streamed items).
    eapply sum_silent_l; [apply (silent_elapse ms)|apply IH].
Qed.

Lemma sum_runAgent group prompt j c loc st :
  let run := container group (container_input group prompt j st) in
  summary (folder group) c j (session_records run) (outputs run) st
    (runAgent group prompt j (Some (onOutput group j c)) (loc, st)).2.2.
Proof.
  intros run. unfold runAgent, runContainerAgent. cbn [fmap option_fmap option_map].
  fold run.
  set (st1 := emit [WriteTasksSnapshot _ _ _] st).
  set (st2 := emit [WriteGroupsSnapshot _ _ _ _] st1).
  set (st3 := emit [AgentStart _] st2).
  set (st4 := match container_name run with Some _ => _ | None => _ end).
  assert (H04 : silent st st4).
  { assert (H03 : silent st st3).
    { subst st3 st2 st1.
      repeat (eapply silent_trans; [|by apply silent_emit]). apply silent_refl. }
    eapply silent_trans; [exact H03|]. subst st4.
    destruct (container_name run); [by apply silent_emit|done]. }
  pose proof (sum_stream group c j (stream run) loc st4) as Hs.
  destruct (fold_left _ (stream run) (loc, st4)) as [loc5 st5].
  cbn [snd] in Hs. unfold session_records.
  change (streamed (stream run)) with (outputs run) in Hs.
  eapply sum_silent_l; [exact H04|].
  destruct (settled run) as [o|].
  - assert (Hend : summary (folder group) c j (outputs run ++ [o]) (outputs run)
                     st4 (track_session group o st5)).
    { pose proof (sum_trans _ _ _ _ _ _ _ _ _ _ Hs
                    (sum_track_session group c j o st5)) as H.
      by rewrite app_nil_r in H. }
    destruct (status o); cbn [snd]; try exact Hend.
    eapply sum_silent_r; [exact Hend|]. by apply silent_emit.
  - cbn [snd]. rewrite app_nil_r.
    eapply sum_silent_r; [exact Hs|]. by apply silent_emit.
Qed.

Lemma silent_move_cursor m st :
  silent st (saveState (set_lastAgentTimestamp m st)).
Proof. split_and!; try done. cbn. by rewrite !sends_app, !app_nil_r. Qed.

(** A call that finds a group, a channel and a batch. *)
Lemma processGroupMessages_summary j st group channel lastMessage :
  registeredGroups st !! j = Some group →
  findChannel channels j = Some channel →
  last (pending st j) = Some lastMessage →
  let run := batch_run st group j in
  summary (folder group) channel j (session_records run) (outputs run) st
    (processGroupMessages j st).2.
Proof.
  intros Hgroup Hchannel Hlast run.
  unfold processGroupMessages. rewrite Hgroup, Hchannel.
  fold (pending st j). rewrite Hlast.
  set (st1 := saveState (set_lastAgentTimestamp _ st)).
  set (st2 := channel_setTyping channel j true
                (emit [Log Info "Processing messages"] st1)).
  assert (H02 : silent st st2).
  { eapply silent_trans; [apply silent_move_cursor|]. fold st1. subst st2.
    eapply silent_trans; [|apply silent_channel_setTyping]. by apply silent_emit. }
  assert (Hin : container_input group (formatMessages (pending st j)) j st2
                = container_input group (formatMessages (pending st j)) j st).
  { unfold container_input. by rewrite (proj1 H02). }
  pose proof (sum_runAgent group (formatMessages (pending st j)) j channel
                (mkLocals None false false) st2) as Hrun.
  cbv zeta in Hrun. rewrite Hin in Hrun. fold (batch_run st group j) in Hrun.
  fold run in Hrun.
  destruct (runAgent group (formatMessages (pending st j)) j
              (Some (onOutput group j channel)) (mkLocals None false false, st2))
    as [output [loc3 st3]].
  cbn [snd] in Hrun.
  set (st4 := match idleTimer loc3 with
              | Some h => clearTimeout h (channel_setTyping channel j false st3)
              | None => channel_setTyping channel j false st3
              end).
  assert (H34 : silent st3 st4).
  { subst st4. destruct (idleTimer loc3).
    - eapply silent_trans; [apply silent_channel_setTyping|apply silent_clearTimeout].
    - apply silent_channel_setTyping. }
  assert (H04 : summary (folder group) channel j (session_records run) (outputs run)
                  st st4).
  { eapply sum_silent_l; [exact H02|]. eapply sum_silent_r; [exact Hrun|exact H34]. }
  destruct (is_error output || hadError loc3).
  - destruct (outputSentToUser loc3); cbn [snd].
    + eapply sum_silent_r; [exact H04|]. by apply silent_emit.
    + eapply sum_silent_r; [exact H04|].
      eapply silent_trans; [apply silent_move_cursor|]. by apply silent_emit.
  - exact H04.
Qed.

(** A call that finds no group, no channel or no batch. *)
Lemma processGroupMessages_idle j st :
  (registeredGroups st !! j = None ∨ findChannel channels j = None
   ∨ pending st j = []) →
  silent st (processGroupMessages j st).2.
Proof.
  intros H. unfold processGroupMessages.
  destruct (registeredGroups st !! j) as [group|].
  2:{ cbn [snd]. destruct (not_registered_cases j st) as [-> | ->];
        [done|by apply silent_emit]. }
  destruct (findChannel channels j) as [channel|]; [|by apply silent_emit].
  fold (pending st j).
  destruct H as [?|[?|Hp]]; try done. by rewrite Hp.
Qed.

Lemma tracked_other f os m f' : f' ≠ f → tracked f os m !! f' = m !! f'.
Proof.
  intros Hne. revert m. induction os as [|o os IH]; intros m; [done|].
  cbn [tracked fold_left]. fold (tracked f os (track f m o)). rewrite IH.
  unfold track. destruct (newSessionId o) as [sid|]; [|done].
  destruct (truthy sid); [|done]. by rewrite lookup_insert_ne.
Qed.

Lemma tracked_snoc f os o m : tracked f (os ++ [o]) m = track f (tracked f os m) o.
Proof. unfold tracked. by rewrite fold_left_app. Qed.

Lemma reported_snoc os o :
  reported (os ++ [o])
  = reported os ++ match newSessionId o with
                   | Some sid => if truthy sid then [sid] else []
                   | None => []
                   end.
Proof.
  unfold reported. rewrite omap_app. f_equal. cbn.
  destruct (newSessionId o) as [sid|]; [|done]. by destruct (truthy sid).
Qed.

Lemma tracked_lookup f os m :
  tracked f os m !! f
  = match last (reported os) with Some sid => Some sid | None => m !! f end.
Proof.
  induction os as [|o os IH] using rev_ind; [done|].
  rewrite tracked_snoc, reported_snoc. unfold track.
  destruct (newSessionId o) as [sid|].
  - destruct (truthy sid).
    + by rewrite lookup_insert_eq, last_snoc.
    + by rewrite app_nil_r.
  - by rewrite app_nil_r.
Qed.

(** X17.  The messages that a call of [processGroupMessages] sends to
    channels are exactly the replies to the records the agent streams:
    one for each record with a result whose text, once the internal
    blocks are cut out and the ends trimmed, is not empty; and they go, in
    stream order, through the first channel that owns the chat and to
    that chat only.  The record the run settles with is never sent, and a
    call that finds no group, no channel or no batch sends nothing. *)
Theorem replies_are_streamed_results (j : list N) (st : State) :
  let st' := (processGroupMessages j st).2 in
  sends (trace st')
  = sends (trace st)
    ++ match registeredGroups st !! j, findChannel channels j, pending st j with
       | Some group, Some channel, _ :: _ =>
           map (λ o, (channel_name channel, j,
                      trim (strip_internal (raw_text (result o)))))
             (List.filter
                (λ o, payload_truthy (result o)
                      && truthy (trim (strip_internal (raw_text (result o)))))
                (outputs (batch_run st group j)))
       | _, _, _ => []
       end.
Proof.
  cbv zeta.
  destruct (registeredGroups st !! j) as [group|] eqn:Hgroup.
  2:{ rewrite app_nil_r. apply processGroupMessages_idle. by left. }
  destruct (findChannel channels j) as [channel|] eqn:Hchannel.
  2:{ rewrite app_nil_r. apply processGroupMessages_idle. right. by left. }
  destruct (pending st j) as [|m ms] eqn:Hpending.
  { rewrite app_nil_r. apply processGroupMessages_idle. right. by right. }
  destruct (last (pending st j)) as [lastMessage|] eqn:Hlast.
  2:{ apply last_None in Hlast. by rewrite Hpending in Hlast. }
  apply (sum_sends _ _ _ _ _ _ _
           (processGroupMessages_summary j st group channel lastMessage
              Hgroup Hchannel Hlast)).
Qed.

(** X18.  The session of a group follows its agent.  A call of
    [processGroupMessages] with a batch starts the container with what
    [sessions[group.folder]] evaluates to: the session id stored for the
    group's folder; or, where none is stored, [undefined], unless the
    folder has the name of a member of [Object.prototype], in which case
    it is that member.  After the call [sessions[group.folder]] evaluates
    to the last non-empty [newSessionId] the run reported, on the stream
    or when it settled, and to what it did before if the run reported
    none; only for the folder [__proto__] the assignment is lost and the
    read still gives [Object.prototype].  The sessions of other folders
    are untouched, and the sessions table of the store has had the same
    writes as the map, so the two agree if they did before. *)
Theorem session_follows_agent (j : list N) (st : State)
    (group : RegisteredGroup) (channel : Channel) (lastMessage : NewMessage) :
  registeredGroups st !! j = Some group →
  findChannel channels j = Some channel →
  last (pending st j) = Some lastMessage →
  let run := batch_run st group j in
  let st' := (processGroupMessages j st).2 in
  (∃ pre post input,
     trace st' = trace st ++ pre ++ AgentStart input :: post
     ∧ groupFolder input = folder group ∧ chatJid input = j
     ∧ prompt input = formatMessages (pending st j)
     ∧ sessionId input
       = if bool_decide (folder group = str "__proto__")
         then Member (folder group) else
         match sessions st !! folder group with
         | Some sid => Own sid
         | None =>
             if inherited (folder group) then Member (folder group)
             else Undefined
         end)
  ∧ get (sessions st') (folder group)
    = match last (reported (session_records run)) with
      | Some sid =>
          if bool_decide (folder group = str "__proto__")
          then Member (folder group) else Own sid
      | None => get (sessions st) (folder group)
      end
  ∧ (∀ f, f ≠ folder group →
       sessions st' !! f = sessions st !! f
       ∧ get (sessions st') f = get (sessions st) f)
  ∧ (row_sessions (db st) = sessions st → row_sessions (db st') = sessions st').
Proof.
  intros Hgroup Hchannel Hlast run st'.
  destruct (processGroupMessages_summary j st group channel lastMessage
              Hgroup Hchannel Hlast) as [H1 H2 _].
  fold run in H1, H2. fold st' in H1, H2. split_and!.
  - destruct (processGroupMessages_run j st group channel lastMessage
                Hgroup Hchannel Hlast)
      as (st9 & mid & Hrun & _ & Hstart & _ & _ & _ & _ & _ & Hcase).
    apply list_elem_of_split in Hstart as (m1 & m2 & ->).
    subst st'. rewrite Hrun. cbn [snd].
    destruct (failed _ && negb _); destruct Hcase as [_ ->];
      eexists (_ :: _ :: m1), _, _;
      (split; [cbn [app]; by rewrite <- ?app_assoc|split_and!; reflexivity]).
  - unfold get. rewrite H1, tracked_lookup.
    destruct (last (reported (session_records run))); [|done].
    by case_bool_decide.
  - intros f Hf.
    assert (E : sessions st' !! f = sessions st !! f).
    { rewrite H1. by apply tracked_other. }
    split; [exact E|]. unfold get. by rewrite E.
  - intros Heq. by rewrite H1, H2, Heq.
Qed.

(** ** The store mirrors the module state *)

(** The module state as [loadState] would read it back from the store:
    [getRouterState('last_timestamp') || ''], the cursor map of the row
    [last_agent_timestamp] or [{}], and the sessions table. *)
Definition synced (st : State) : Prop :=
  default [] (row_last_timestamp (db st)) = lastTimestamp st
  ∧ default ∅ (row_last_agent_timestamp (db st)) = lastAgentTimestamp st
  ∧ row_sessions (db st) = sessions st.

Lemma synced_emit evs st : synced st → synced (emit evs st).
Proof. done. Qed.

Lemma synced_move_cursor m st :
  synced st → synced (saveState (set_lastAgentTimestamp m st)).
Proof. intros (H1 & H2 & H3). split_and!; done. Qed.

Lemma synced_channel_setTyping c j b st :
  synced st → synced (channel_setTyping c j b st).
Proof. unfold channel_setTyping. by destruct (has_setTyping c). Qed.

Lemma dispatch_group_synced st entry :
  synced st → synced (dispatch_group st entry).2.
Proof.
  intros Hs. destruct entry as [j groupMessages]. unfold dispatch_group.
  destruct (registeredGroups st !! j) as [group|].
  2:{ cbn [snd]. by destruct (not_registered_cases j st) as [-> | ->]. }
  destruct (findChannel channels j) as [channel|]; [|done].
  set (toSend := match getMessagesSince _ _ _ _ with _ :: _ => _ | [] => _ end).
  destruct (queue_sendMessage j (formatMessages toSend)); [|done].
  destruct (last toSend) as [lastMessage|]; [|done].
  cbn [snd]. apply synced_channel_setTyping, synced_move_cursor. done.
Qed.

Lemma dispatch_groups_synced groups st :
  synced st → synced (dispatch_groups groups st).2.
Proof.
  revert st. induction groups as [|entry groups IH]; intros st Hs; [done|].
  cbn [dispatch_groups].
  pose proof (dispatch_group_synced st entry Hs) as H1.
  destruct (dispatch_group st entry) as [[|] st1]; cbn [snd] in *; [|done].
  by apply IH.
Qed.

(** X19.  The store keeps up with the module state: if the two cursors and
    the sessions in memory are what [loadState] would read from the store,
    they still are after any call of [processGroupMessages] and after any
    poll of the message loop, whatever the agent and the queue do.  So a
    restart after any number of such calls resumes from the cursors and
    sessions the process had. *)
Theorem store_mirrors_memory (j : list N) (st : State) :
  synced st →
  synced (processGroupMessages j st).2 ∧ synced (poll_once st).
Proof.
  intros Hs. split.
  - destruct (registeredGroups st !! j) as [group|] eqn:Hgroup.
    2:{ unfold processGroupMessages. rewrite Hgroup. cbn [snd].
        by destruct (not_registered_cases j st) as [-> | ->]. }
    destruct (findChannel channels j) as [channel|] eqn:Hchannel.
    2:{ unfold processGroupMessages. by rewrite Hgroup, Hchannel. }
    destruct (last (pending st j)) as [lastMessage|] eqn:Hlast.
    2:{ unfold processGroupMessages. rewrite Hgroup, Hchannel.
        fold (pending st j). by rewrite Hlast. }
    destruct (processGroupMessages_run j st group channel lastMessage
                Hgroup Hchannel Hlast)
      as (st' & mid & Hrun & _ & _ & H1 & _ & _ & H2 & H3 & _).
    destruct (processGroupMessages_summary j st group channel lastMessage
                Hgroup Hchannel Hlast) as [S1 S2 _].
    rewrite Hrun in S1, S2 |- *. cbn [snd] in *.
    destruct Hs as (_ & _ & Hsess).
    split_and!.
    + by rewrite H2, H1.
    + by rewrite H3.
    + by rewrite S1, S2, Hsess.
  - unfold poll_once.
    destruct (getNewMessages _ _ _ _) as [msgs newTimestamp].
    destruct msgs as [|m msgs]; [done|].
    set (st1 := saveState _).
    assert (H1 : synced st1).
    { subst st1. destruct Hs as (_ & _ & H3). split_and!; done. }
    pose proof (dispatch_groups_synced (messagesByGroup (m :: msgs)) st1 H1) as H2.
    destruct (dispatch_groups _ st1) as [[|] st2]; cbn [snd] in H2; done.
Qed.

(** ** Startup recovery *)

(** Body of the loop of [recoverPendingMessages]. *)
Definition recover_group (st : State) (entry : list N * RegisteredGroup) : State :=
  let '(chatJid, group) := entry in
  let sinceTimestamp := cursor st chatJid in
  match getMessagesSince (db st) chatJid sinceTimestamp ASSISTANT_NAME with
  | [] => st
  | _ :: _ =>
      emit [Log Info "Recovery: found unprocessed messages";
            QueueEnqueueMessageCheck chatJid] st
  end.

(** [recoverPendingMessages()], for [Object.entries(registeredGroups)] in
    the object's own order. *)
Definition recoverPendingMessages (entries : list (list N * RegisteredGroup))
    (st : State) : State :=
  fold_left recover_group entries st.

Lemma emit_emit evs1 evs2 st : emit evs2 (emit evs1 st) = emit (evs1 ++ evs2) st.
Proof. unfold emit. cbn. by rewrite app_assoc. Qed.

Lemma emit_nil st : emit [] st = st.
Proof. destruct st. unfold emit. cbn. by rewrite app_nil_r. Qed.

Lemma recover_fold entries st :
  ∃ evs,
    fold_left recover_group entries st = emit evs st
    ∧ ∀ j, QueueEnqueueMessageCheck j ∈ evs
           ↔ ∃ g, (j, g) ∈ entries ∧ pending st j ≠ [].
Proof.
  revert st. induction entries as [|[j0 g0] entries IH]; intros st.
  { exists []. rewrite emit_nil. split; [done|]. intros j. split.
    - by intros ?%elem_of_nil.
    - by intros (g & ?%elem_of_nil & _). }
  cbn [fold_left]. destruct (IH (recover_group st (j0, g0))) as (evs & -> & Hevs).
  assert (Hrec : recover_group st (j0, g0)
                 = match pending st j0 with
                   | [] => st
                   | _ :: _ =>
                       emit [Log Info "Recovery: found unprocessed messages";
                             QueueEnqueueMessageCheck j0] st
                   end) by done.
  assert (Hlater : ∀ j, QueueEnqueueMessageCheck j ∈ evs
                        ↔ ∃ g, (j, g) ∈ entries ∧ pending st j ≠ []).
  { intros j. rewrite Hevs, Hrec. by destruct (pending st j0). }
  rewrite Hrec. clear Hevs Hrec.
  destruct (pending st j0) as [|m ms] eqn:E.
  - exists evs. split; [done|]. intros j. rewrite Hlater. split.
    + intros (g & Hin & Hp). exists g. split; [by apply list_elem_of_further|done].
    + intros (g & [Heq|Hin]%elem_of_cons & Hp); [|by exists g].
      injection Heq as -> ->. by rewrite E in Hp.
  - eexists. split; [apply emit_emit|]. intros j. cbn [app].
    rewrite !elem_of_cons, Hlater. split.
    + intros [?|[[= ->]|(g & Hin & Hp)]]; [done| |].
      * exists g0. split; [apply list_elem_of_here|by rewrite E].
      * exists g. split; [by apply list_elem_of_further|done].
    + intros (g & [Heq|Hin]%elem_of_cons & Hp).
      * injection Heq as -> ->. right. by left.
      * right. right. by exists g.
Qed.

(** X29.  [recoverPendingMessages] only enqueues checks and logs: it
    changes no cursor, no session and nothing in the store.  It enqueues a
    check for exactly the registered chats that have pending messages
    after their agent cursor.  In particular a message of a registered
    chat above the agent cursor gets its chat enqueued even when the
    observation cursor [lastTimestamp] has already moved past it, in
    which case no later poll would report it as new. *)
Theorem recovery_finds_unprocessed (entries : list (list N * RegisteredGroup))
    (st : State) :
  (∀ j g, (j, g) ∈ entries ↔ registeredGroups st !! j = Some g) →
  ∃ evs,
    recoverPendingMessages entries st = emit evs st
    ∧ (∀ j, QueueEnqueueMessageCheck j ∈ evs
            ↔ is_Some (registeredGroups st !! j) ∧ pending st j ≠ [])
    ∧ ∀ m, m ∈ messages (db st) →
           is_Some (registeredGroups st !! chat_jid m) →
           bot_authored ASSISTANT_NAME m = false →
           str_ltb (cursor st (chat_jid m)) (timestamp m) = true →
           QueueEnqueueMessageCheck (chat_jid m) ∈ evs
           ∧ (str_ltb (lastTimestamp st) (timestamp m) = false →
              m ∉ (getNewMessages (db st)
                     (map fst (map_to_list (registeredGroups st)))
                     (lastTimestamp st) ASSISTANT_NAME).1).
Proof.
  intros Hentries. unfold recoverPendingMessages.
  destruct (recover_fold entries st) as (evs & -> & Hevs).
  assert (Hiff : ∀ j, QueueEnqueueMessageCheck j ∈ evs
                      ↔ is_Some (registeredGroups st !! j) ∧ pending st j ≠ []).
  { intros j. rewrite Hevs. split.
    - intros (g & Hin & Hp). split; [|done]. exists g. by apply Hentries.
    - intros [[g Hg] Hp]. exists g. split; [by apply Hentries|done]. }
  exists evs. split_and!; [done|exact Hiff|].
  intros m Hm Hreg Hbot Hlt. split.
  - apply Hiff. split; [done|]. unfold pending, getMessagesSince.
    intros Hnil.
    assert (Hin : m ∈ order_by_timestamp
              (List.filter
                 (λ m0, bool_decide (chat_jid m0 = chat_jid m)
                        && str_ltb (cursor st (chat_jid m)) (timestamp m0)
                        && negb (bot_authored ASSISTANT_NAME m0))
                 (messages (db st)))).
    { apply order_by_timestamp_elem, elem_of_List_filter. split; [done|].
      by rewrite bool_decide_eq_true_2, Hlt, Hbot. }
    rewrite Hnil in Hin. by apply elem_of_nil in Hin.
  - intros Hseen. unfold getNewMessages. cbn [fst].
    intros [_ Hf]%order_by_timestamp_elem%elem_of_List_filter.
    rewrite Hseen in Hf. by rewrite andb_false_r in Hf.
Qed.

End Core.

(** ** The outbound filter on text with and without blocks *)

(** The code unit of [<], with which both tags start. *)
Definition LT : N := 60.

Lemma startsWith_app p s : startsWith p (p ++ s) = true.
Proof. induction p as [|c p IH]; [done|]. cbn. by rewrite N.eqb_refl. Qed.

Lemma startsWith_other_head p c s :
  c ≠ LT → startsWith (LT :: p) (c :: s) = false.
Proof.
  intros Hc. cbn [startsWith]. destruct (N.eqb_spec LT c) as [E|_]; [by subst|done].
Qed.

Lemma after_close_none s : LT ∉ s → after_close s = None.
Proof.
  induction s as [|c s IH]; [done|]. intros Hs.
  cbn [after_close]. unfold CLOSE_TAG.
  change (str "</internal>") with (LT :: str "/internal>").
  rewrite startsWith_other_head.
  - apply IH. intros ?. by apply Hs, list_elem_of_further.
  - intros ->. apply Hs, list_elem_of_here.
Qed.

Lemma after_close_first b c : LT ∉ b → after_close (b ++ CLOSE_TAG ++ c) = Some c.
Proof.
  induction b as [|x b IH]; intros Hb.
  - cbn [app]. unfold CLOSE_TAG at 1.
    change (str "</internal>" ++ c) with (LT :: str "/internal>" ++ c).
    cbn [after_close].
    change (LT :: str "/internal>" ++ c) with (CLOSE_TAG ++ c).
    by rewrite startsWith_app, drop_app_length.
  - cbn [app after_close]. unfold CLOSE_TAG at 1.
    change (str "</internal>") with (LT :: str "/internal>").
    rewrite startsWith_other_head.
    + apply IH. intros ?. by apply Hb, list_elem_of_further.
    + intros ->. apply Hb, list_elem_of_here.
Qed.

Lemma strip_from_plain fuel s : LT ∉ s → strip_from fuel s = s.
Proof.
  revert s. induction fuel as [|fuel IH]; intros s Hs; [done|].
  destruct s as [|c s]; [done|]. cbn [strip_from]. unfold OPEN_TAG.
  change (str "<internal>") with (LT :: str "internal>").
  rewrite startsWith_other_head.
  - f_equal. apply IH. intros ?. by apply Hs, list_elem_of_further.
  - intros ->. apply Hs, list_elem_of_here.
Qed.

Lemma strip_from_skip fuel a s :
  LT ∉ a → strip_from (length a + fuel) (a ++ s) = a ++ strip_from fuel s.
Proof.
  induction a as [|c a IH]; intros Ha; [done|].
  cbn [length Nat.add app strip_from]. unfold OPEN_TAG.
  change (str "<internal>") with (LT :: str "internal>").
  rewrite startsWith_other_head.
  - f_equal. apply IH. intros ?. by apply Ha, list_elem_of_further.
  - intros ->. apply Ha, list_elem_of_here.
Qed.

Lemma strip_from_length fuel s : length (strip_from fuel s) ≤ length s.
Proof.
  revert s. induction fuel as [|fuel IH]; intros s; [done|].
  destruct s as [|c s]; [done|]. cbn [strip_from].
  destruct (startsWith OPEN_TAG (c :: s)).
  - destruct (after_close (drop (length OPEN_TAG) (c :: s))) as [rest|] eqn:E.
    + apply after_close_length in E. rewrite length_drop in E.
      specialize (IH rest). cbn in *. lia.
    + specialize (IH s). cbn. lia.
  - specialize (IH s). cbn. lia.
Qed.

(** Whether the tag [p] starts at position [i] of [s]. *)
Definition starts_at (p s : jsstring) (i : nat) : bool := startsWith p (drop i s).

Lemma after_close_at b c :
  (∀ i, i < length b → starts_at CLOSE_TAG (b ++ CLOSE_TAG ++ c) i = false) →
  after_close (b ++ CLOSE_TAG ++ c) = Some c.
Proof.
  induction b as [|x b IH]; intros Hb.
  - cbn [app]. unfold CLOSE_TAG at 1.
    change (str "</internal>" ++ c) with (LT :: str "/internal>" ++ c).
    cbn [after_close].
    change (LT :: str "/internal>" ++ c) with (CLOSE_TAG ++ c).
    by rewrite startsWith_app, drop_app_length.
  - cbn [app after_close].
    assert (H0 := Hb 0 ltac:(cbn; lia)). unfold starts_at in H0.
    rewrite drop_0 in H0. cbn [app] in H0. rewrite H0.
    apply IH. intros i Hi. apply (Hb (S i)). cbn. lia.
Qed.

Lemma strip_from_before fuel a s :
  (∀ i, i < length a → starts_at OPEN_TAG (a ++ s) i = false) →
  strip_from (length a + fuel) (a ++ s) = a ++ strip_from fuel s.
Proof.
  induction a as [|x a IH]; intros Ha; [done|].
  cbn [length Nat.add app strip_from].
  assert (H0 := Ha 0 ltac:(cbn; lia)). unfold starts_at in H0.
  rewrite drop_0 in H0. cbn [app] in H0. rewrite H0.
  f_equal. apply IH. intros i Hi. apply (Ha (S i)). cbn. lia.
Qed.

Lemma strip_from_unclosed fuel s :
  (∀ i, starts_at OPEN_TAG s i = true →
        after_close (drop (i + length OPEN_TAG) s) = None) →
  strip_from fuel s = s.
Proof.
  revert s. induction fuel as [|fuel IH]; intros s Hs; [done|].
  destruct s as [|x s]; [done|]. cbn [strip_from].
  assert (Hrest : x :: strip_from fuel s = x :: s).
  { f_equal. apply IH. intros i Hi. apply (Hs (S i)). exact Hi. }
  destruct (startsWith OPEN_TAG (x :: s)) eqn:E; [|done].
  specialize (Hs 0 E). change (0 + length OPEN_TAG) with (length OPEN_TAG) in Hs.
  by rewrite Hs.
Qed.

(** X20.  What the outbound filter does to the agent's text.  A block is
    an opening tag [<internal>] with a closing tag [</internal>] somewhere
    after it.  The leftmost block is cut out up to its first closing tag,
    whatever stands between the tags ([<], line breaks, further opening
    tags), and the filter goes on with what follows the block.  A text in
    which no opening tag has a closing tag after it passes unchanged: in
    particular a text without [<], an opening tag that is never closed and
    a closing tag on its own stay in the text that is sent.  The filter
    never makes a text longer. *)
Theorem strip_internal_blocks :
  (∀ a b c,
     (∀ i, i < length a →
           starts_at OPEN_TAG (a ++ OPEN_TAG ++ b ++ CLOSE_TAG ++ c) i = false) →
     (∀ i, i < length b → starts_at CLOSE_TAG (b ++ CLOSE_TAG ++ c) i = false) →
     strip_internal (a ++ OPEN_TAG ++ b ++ CLOSE_TAG ++ c)
     = a ++ strip_internal c)
  ∧ (∀ s,
       (∀ i, starts_at OPEN_TAG s i = true →
             after_close (drop (i + length OPEN_TAG) s) = None) →
       strip_internal s = s)
  ∧ (∀ s, LT ∉ s → strip_internal s = s)
  ∧ (∀ s, after_close s = None → strip_internal s = s)
  ∧ (∀ s, length (strip_internal s) ≤ length s).
Proof.
  split_and!.
  - intros a b c Ha Hb. unfold strip_internal.
    rewrite length_app.
    rewrite strip_from_before by done. f_equal.
    destruct (length (OPEN_TAG ++ b ++ CLOSE_TAG ++ c)) as [|fuel] eqn:Hfuel; [done|].
    unfold OPEN_TAG at 1.
    change (str "<internal>" ++ b ++ CLOSE_TAG ++ c)
      with (LT :: str "internal>" ++ b ++ CLOSE_TAG ++ c).
    cbn [strip_from].
    change (LT :: str "internal>" ++ b ++ CLOSE_TAG ++ c)
      with (OPEN_TAG ++ b ++ CLOSE_TAG ++ c).
    rewrite startsWith_app, drop_app_length, after_close_at by done.
    apply strip_from_enough; [|done].
    rewrite !length_app in Hfuel. cbn in Hfuel. lia.
  - intros s Hs. by apply strip_from_unclosed.
  - intros s Hs. by apply strip_from_plain.
  - intros s Hs. apply strip_from_unclosed. intros i _.
    revert Hs. generalize (i + length OPEN_TAG). clear i.
    intros n. revert s. induction n as [|n IH]; intros s Hs; [by rewrite drop_0|].
    destruct s as [|x s]; [done|]. change (drop (S n) (x :: s)) with (drop n s).
    apply IH. cbn [after_close] in Hs.
    by destruct (startsWith CLOSE_TAG (x :: s)).
  - intros s. apply strip_from_length.
Qed.

(** A block that holds tags of its own, and tags that form no block. *)
Example strip_internal_examples :
  strip_internal (str "a<b><internal>x <i>y</i> <internal> z</internal>c</internal>")
  = str "a<b>c</internal>"
  ∧ strip_internal (str "</internal> kept <internal> open")
    = str "</internal> kept <internal> open".
Proof. split; vm_compute; reflexivity. Qed.

(** ** A concrete installation *)

(** Modelled from the spec: router.ts [escapeXml] and [formatMessages] are
    missing; section 6 gives the prompt format, with XML-escaped content. *)
Definition escapeXml (s : jsstring) : jsstring :=
  flat_map (λ c, if (c =? 38)%N then str "&amp;"
                 else if (c =? 60)%N then str "&lt;"
                 else if (c =? 62)%N then str "&gt;"
                 else if (c =? 34)%N then str "&quot;"
                 else [c]) s.

Definition format_message (m : NewMessage) : jsstring :=
  str "  <message from=" ++ [DQUOTE] ++ escapeXml (sender_name m) ++ [DQUOTE]
  ++ str " ts=" ++ [DQUOTE] ++ escapeXml (timestamp m) ++ [DQUOTE] ++ str ">"
  ++ [LF] ++ str "    <content>" ++ escapeXml (content m) ++ str "</content>"
  ++ [LF] ++ str "  </message>" ++ [LF].

Definition formatMessages_spec (msgs : list NewMessage) : jsstring :=
  str "<messages>" ++ [LF] ++ flat_map format_message msgs ++ str "</messages>".

(** Modelled from the spec: section 3, "a message with
    [is_bot_message=true] is never counted as pending work". *)
Definition flagged_bot (_ : list N) (m : NewMessage) : bool :=
  match is_bot_message m with Some true => true | _ => false end.

Lemma tg_is_no_member k : inherited k = true → startsWith (str "tg:") k = false.
Proof.
  unfold inherited. rewrite bool_decide_eq_true. unfold prototype_members.
  rewrite !elem_of_cons, elem_of_nil. intros H. destruct_or!; by subst.
Qed.

Definition telegram : Channel :=
  {| channel_name := str "telegram";
     ownsJid := startsWith (str "tg:");
     has_setTyping := true;
     owns_no_member := tg_is_no_member |}.

(** The scenario of section 8: group [G] at [tg:100] with two stored
    messages, nothing observed or delivered yet. *)
Definition G : RegisteredGroup :=
  mkRegisteredGroup (str "G") (str "g") (str "@Andy") (str "2026-02-25T10:00:00.000Z").

Definition hi : NewMessage :=
  mkNewMessage (str "m1") (str "tg:100") (str "42") (str "Alice") (str "hi")
    (str "1") (Some false) None.

Definition how_are_you : NewMessage :=
  mkNewMessage (str "m2") (str "tg:100") (str "42") (str "Alice")
    (str "how are you") (str "2") (Some false) None.

Definition fresh : State :=
  {| lastTimestamp := [];
     lastAgentTimestamp := ∅;
     sessions := ∅;
     registeredGroups := {[ str "tg:100" := G ]};
     db := mkDb [hi; how_are_you] None None ∅ [] [];
     clock := 0;
     timers := [];
     trace := [] |}.

(** The same installation after both messages were delivered. *)
Definition caught_up : State :=
  {| lastTimestamp := str "2";
     lastAgentTimestamp := {[ str "tg:100" := str "2" ]};
     sessions := ∅;
     registeredGroups := {[ str "tg:100" := G ]};
     db := mkDb [hi; how_are_you] (Some (str "2"))
             (Some {[ str "tg:100" := str "2" ]}) ∅ [] [];
     clock := 0;
     timers := [];
     trace := [] |}.

(** The same installation after the first message was delivered. *)
Definition after_hi : State :=
  {| lastTimestamp := str "1";
     lastAgentTimestamp := {[ str "tg:100" := str "1" ]};
     sessions := ∅;
     registeredGroups := {[ str "tg:100" := G ]};
     db := mkDb [hi; how_are_you] (Some (str "1"))
             (Some {[ str "tg:100" := str "1" ]}) ∅ [] [];
     clock := 0;
     timers := [];
     trace := [] |}.

(** Four containers: one that answers, one that exits with an error
    before streaming anything, one that errors after streaming a reply,
    and one that only reports a new session id. *)
Definition answers : AgentRun :=
  mkRun (Some (str "nanoclaw-g-1"))
    [Streamed (mkOutput StatusSuccess (PString (str "hello")) (Some (str "s-1")) None)]
    (Some (mkOutput StatusSuccess PNull (Some (str "s-1")) None)).

Definition exits_silently : AgentRun :=
  mkRun (Some (str "nanoclaw-g-1")) []
    (Some (mkOutput StatusError PNull None (Some (str "Container exited with code 1")))).

Definition errors_after_reply : AgentRun :=
  mkRun (Some (str "nanoclaw-g-1"))
    [Streamed (mkOutput StatusSuccess (PString (str "partial")) None None)]
    (Some (mkOutput StatusError PNull None (Some (str "Container exited with code 137")))).


Definition ANDY : list N := str "Andy".
Definition MAIN : list N := str "main".
Definition HALF_HOUR : N := 1800000.

(** [processGroupMessages] of this installation, with the container given. *)
Definition process (run : AgentRun) : list N → State → bool * State :=
  processGroupMessages ANDY MAIN HALF_HOUR formatMessages_spec flagged_bot
    [telegram] (λ _ _, run).

(** One poll of this installation, with the queue's answer given. *)
Definition poll (accepts : bool) : State → State :=
  poll_once ANDY formatMessages_spec flagged_bot [telegram] (λ _ _, accepts).

Lemma rollback_on_silent_error_witness :
  (process exits_silently (str "tg:100") after_hi).1 = false
  ∧ lastAgentTimestamp (process exits_silently (str "tg:100") after_hi).2
    = {[ str "tg:100" := str "1" ]}
  ∧ row_last_agent_timestamp
      (db (process exits_silently (str "tg:100") after_hi).2)
    = Some {[ str "tg:100" := str "1" ]}.
Proof.
  destruct (rollback_on_silent_error ANDY MAIN HALF_HOUR formatMessages_spec
              flagged_bot [telegram] (λ _ _, exits_silently)
              (str "tg:100") after_hi G telegram how_are_you)
    as (H1 & _ & _ & H4 & _ & H6 & _); try reflexivity.
  destruct (H4 (str "1")) as [_ H5]; [reflexivity|].
  split; [exact H1|]. split; [exact H5|].
  unfold process. rewrite H6, H5. reflexivity.
Defined.

(** The value that comes back is the one the map held, not the default:
    from a cursor at [1] the failed run of the batch up to [2] leaves [1],
    and the batch is still pending. *)
Example rollback_restores_previous_cursor :
  lastAgentTimestamp after_hi !! str "tg:100" = Some (str "1")
  ∧ pending ANDY flagged_bot after_hi (str "tg:100") = [how_are_you]
  ∧ lastAgentTimestamp (process exits_silently (str "tg:100") after_hi).2
      !! str "tg:100" = Some (str "1")
  ∧ pending ANDY flagged_bot
      (process exits_silently (str "tg:100") after_hi).2 (str "tg:100")
    = [how_are_you]
  ∧ trace (process exits_silently (str "tg:100") after_hi).2
    = [PersistLastTimestamp (str "1");
       PersistAgentTimestamps {[ str "tg:100" := str "2" ]};
       Log Info "Processing messages";
       ChannelSetTyping (str "telegram") (str "tg:100") true;
       WriteTasksSnapshot (str "g") false [];
       WriteGroupsSnapshot (str "g") false [] [str "tg:100"];
       AgentStart (mkInput (formatMessages_spec [how_are_you])
                     Undefined (str "g") (str "tg:100") false (str "Andy"));
       QueueRegisterProcess (str "tg:100") (str "nanoclaw-g-1") (str "g");
       Log Error "Container agent error";
       ChannelSetTyping (str "telegram") (str "tg:100") false;
       PersistLastTimestamp (str "1");
       PersistAgentTimestamps {[ str "tg:100" := str "1" ]};
       Log Warn "Agent error, rolled back message cursor for retry"].
Proof. vm_compute. done. Qed.

Lemma no_rollback_after_output_witness :
  (process errors_after_reply (str "tg:100") fresh).1 = true
  ∧ cursor (process errors_after_reply (str "tg:100") fresh).2 (str "tg:100")
    = str "2"
  ∧ row_last_agent_timestamp
      (db (process errors_after_reply (str "tg:100") fresh).2)
    = Some {[ str "tg:100" := str "2" ]}.
Proof.
  destruct (no_rollback_after_output ANDY MAIN HALF_HOUR formatMessages_spec
              flagged_bot [telegram] (λ _ _, errors_after_reply)
              (str "tg:100") fresh G telegram how_are_you)
    as (H1 & H2 & H3 & H4 & _); try reflexivity.
  split; [exact H1|]. split; [exact H3|]. exact H4.
Defined.

Lemma cursor_claimed_before_agent_witness :
  ∃ st1 output loc st3 evs rest,
    claim_batch (str "tg:100") telegram how_are_you after_hi = (str "1", st1)
    ∧ lastAgentTimestamp st1 = {[ str "tg:100" := str "2" ]}
    ∧ row_last_agent_timestamp (db st1) = Some {[ str "tg:100" := str "2" ]}
    ∧ runAgent ANDY MAIN (λ _ _, answers) G
        (formatMessages_spec [how_are_you]) (str "tg:100")
        (Some (onOutput HALF_HOUR G (str "tg:100") telegram))
        (mkLocals None false false, st1)
      = (output, (loc, st3))
    ∧ trace st3 = trace st1 ++ evs
    ∧ AgentStart
        (container_input ANDY MAIN G (formatMessages_spec [how_are_you])
           (str "tg:100") after_hi) ∈ evs
    ∧ process answers (str "tg:100") after_hi
      = finish_batch (str "tg:100") telegram (str "1") (output, (loc, st3))
    ∧ trace (process answers (str "tg:100") after_hi).2
      = [PersistLastTimestamp (str "1");
         PersistAgentTimestamps {[ str "tg:100" := str "2" ]}] ++ rest.
Proof.
  destruct (cursor_claimed_before_agent ANDY MAIN HALF_HOUR formatMessages_spec
              flagged_bot [telegram] (λ _ _, answers)
              (str "tg:100") after_hi G telegram how_are_you)
    as (st1 & output & loc & st3 & evs & rest & H1 & H2 & H3 & _ & H5 & _ & _
        & H8 & H9 & _ & H11 & H12 & _); try reflexivity.
  exists st1, output, loc, st3, evs, rest.
  split_and!; [exact H1|exact H2|exact H3|exact H5|exact H8|exact H9|exact H11
              |exact H12].
Defined.

Lemma no_pending_is_noop_witness :
  process answers (str "tg:100") caught_up = (true, caught_up).
Proof.
  assert (Hnone : pending ANDY flagged_bot caught_up (str "tg:100") = [])
    by reflexivity.
  destruct (no_pending_is_noop ANDY MAIN HALF_HOUR formatMessages_spec
              flagged_bot [telegram] (λ _ _, answers) (str "tg:100") caught_up
              Hnone)
    as (H1 & _ & _ & _ & [H5|H5]).
  - unfold process. rewrite <- H5 at 2. rewrite <- H1 at 1.
    apply surjective_pairing.
  - apply (f_equal trace) in H5. vm_compute in H5. discriminate.
Defined.

(** The trace of the happy path of section 8: the cursor is saved, the
    agent runs, its reply goes to the channel, the idle timer is armed and,
    at the end, cleared. *)
Example happy_path :
  (process answers (str "tg:100") fresh).1 = true
  ∧ cursor (process answers (str "tg:100") fresh).2 (str "tg:100") = str "2"
  ∧ sessions (process answers (str "tg:100") fresh).2 !! str "g" = Some (str "s-1")
  ∧ omap (λ e, match e with
               | ChannelSendMessage _ j t => Some (j, t)
               | _ => None
               end) (trace (process answers (str "tg:100") fresh).2)
    = [(str "tg:100", str "hello")]
  ∧ omap (λ e, match e with
               | SetTimeout _ _ | ClearTimeout _ => Some e
               | _ => None
               end) (trace (process answers (str "tg:100") fresh).2)
    = [SetTimeout 0 HALF_HOUR; ClearTimeout 0].
Proof. vm_compute. done. Qed.

(** An agent that stays silent for [IDLE_TIMEOUT] after its reply gets its
    stdin closed by the expiring timer. *)
Example idle_agent_is_closed :
  omap (λ e, match e with
             | TimerFired _ | QueueCloseStdin _ => Some e
             | _ => None
             end)
       (trace (process
                 (mkRun None
                    [Streamed (mkOutput StatusSuccess (PString (str "hello")) None None);
                     Quiet HALF_HOUR]
                    (Some (mkOutput StatusSuccess PNull None None)))
                 (str "tg:100") fresh).2)
  = [TimerFired 0; QueueCloseStdin (str "tg:100")].
Proof. vm_compute. reflexivity. Qed.

(** Internal reasoning is stripped from what the user sees. *)
Example strip_internal_example :
  trim (strip_internal (str "<internal>plan</internal> done <internal>x"))
  = str "done <internal>x".
Proof. vm_compute. reflexivity. Qed.

Lemma dispatch_group_pipes_witness :
  let st' := (dispatch_group ANDY formatMessages_spec flagged_bot [telegram]
                (λ _ _, true) fresh (str "tg:100", [hi])).2 in
  lastAgentTimestamp st' = {[ str "tg:100" := str "2" ]}
  ∧ trace st'
    = [QueueSendMessage (str "tg:100")
         (formatMessages_spec [hi; how_are_you]) true;
       Log Debug "Piped messages to active container";
       PersistLastTimestamp [];
       PersistAgentTimestamps {[ str "tg:100" := str "2" ]};
       ChannelSetTyping (str "telegram") (str "tg:100") true].
Proof.
  destruct (dispatch_group_pipes ANDY formatMessages_spec flagged_bot [telegram]
              (λ _ _, true) (str "tg:100") [hi] fresh G telegram how_are_you)
    as (_ & _ & _ & _ & H1 & _ & H3); try reflexivity.
  cbv zeta. split; [exact H1|]. rewrite H3, H1. reflexivity.
Defined.

(** With no live agent the loop only enqueues a check. *)
Example poll_without_agent :
  trace (poll false fresh)
  = [Log Info "New messages";
     PersistLastTimestamp (str "2");
     PersistAgentTimestamps ∅;
     QueueSendMessage (str "tg:100") (formatMessages_spec [hi; how_are_you]) false;
     QueueEnqueueMessageCheck (str "tg:100")]
  ∧ lastTimestamp (poll false fresh) = str "2"
  ∧ lastAgentTimestamp (poll false fresh) = ∅.
Proof. vm_compute. done. Qed.


Lemma observation_cursor_witness :
  lastTimestamp (poll false fresh) = str "2"
  ∧ str_leb (lastTimestamp fresh)
      (lastTimestamp
         (poll false (process answers (str "tg:100") (poll false fresh)).2))
    = true.
Proof.
  destruct (observation_cursor ANDY MAIN HALF_HOUR formatMessages_spec
              flagged_bot [telegram] (λ _ _, answers) (λ _ _, false) fresh)
    as [Hfirst Hmono].
  split.
  - destruct (Hfirst [hi; how_are_you] (str "2")) as (E & _);
      [reflexivity|discriminate|exact E].
  - apply Hmono. unfold poll, process.
    apply reach_poll, reach_process, reach_poll, reach_start.
Defined.



(** A container that thinks aloud, answers twice and reports two sessions. *)
Definition thinks_aloud : AgentRun :=
  mkRun (Some (str "nanoclaw-g-1"))
    [Streamed (mkOutput StatusSuccess (PString (str "<internal>plan</internal>"))
                 (Some (str "s-1")) None);
     Streamed (mkOutput StatusSuccess (PString (str " one ")) None None);
     Quiet 5;
     Streamed (mkOutput StatusSuccess (PString (str "<internal>x</internal>two"))
                 (Some (str "s-2")) None)]
    (Some (mkOutput StatusSuccess (PString (str "unsent")) (Some []) None)).

Lemma replies_are_streamed_results_witness :
  sends (trace (process thinks_aloud (str "tg:100") fresh).2)
  = [(str "telegram", str "tg:100", str "one");
     (str "telegram", str "tg:100", str "two")].
Proof.
  unfold process.
  rewrite (replies_are_streamed_results ANDY MAIN HALF_HOUR formatMessages_spec
             flagged_bot [telegram] (λ _ _, thinks_aloud) (str "tg:100") fresh).
  reflexivity.
Defined.

(** The installation with a session stored for the group's folder. *)
Definition with_session : State :=
  {| lastTimestamp := str "1";
     lastAgentTimestamp := {[ str "tg:100" := str "1" ]};
     sessions := {[ str "g" := str "s-0" ]};
     registeredGroups := {[ str "tg:100" := G ]};
     db := mkDb [hi; how_are_you] (Some (str "1"))
             (Some {[ str "tg:100" := str "1" ]}) {[ str "g" := str "s-0" ]} [] [];
     clock := 0;
     timers := [];
     trace := [] |}.

Lemma session_follows_agent_witness :
  (∃ pre post input,
     trace (process thinks_aloud (str "tg:100") with_session).2
     = pre ++ AgentStart input :: post
     ∧ sessionId input = Own (str "s-0"))
  ∧ get (sessions (process thinks_aloud (str "tg:100") with_session).2) (str "g")
    = Own (str "s-2")
  ∧ row_sessions (db (process thinks_aloud (str "tg:100") with_session).2)
    = sessions (process thinks_aloud (str "tg:100") with_session).2.
Proof.
  destruct (session_follows_agent ANDY MAIN HALF_HOUR formatMessages_spec
              flagged_bot [telegram] (λ _ _, thinks_aloud) (str "tg:100")
              with_session G telegram how_are_you)
    as ((pre & post & input & H1 & _ & _ & _ & Hs) & H2 & _ & H4);
    try reflexivity.
  split_and!.
  - exists pre, post, input. split; [exact H1|exact Hs].
  - exact H2.
  - apply H4. reflexivity.
Defined.

(** A group whose folder is called [constructor], with no session stored:
    [sessions['constructor']] is the function [Object], and that is what
    the container input carries. *)
Example session_of_an_inherited_name :
  sessionId
    (container_input ANDY MAIN
       (mkRegisteredGroup (str "C") (str "constructor") (str "@Andy")
          (str "2026-02-25T10:00:00.000Z"))
       (str "hello") (str "tg:100") fresh)
  = Member (str "constructor").
Proof. reflexivity. Qed.

Lemma store_mirrors_memory_witness :
  synced (process thinks_aloud (str "tg:100") fresh).2
  ∧ synced (poll true fresh).
Proof.
  apply (store_mirrors_memory ANDY MAIN HALF_HOUR formatMessages_spec flagged_bot
           [telegram] (λ _ _, thinks_aloud) (λ _ _, true) (str "tg:100") fresh).
  split_and!; reflexivity.
Defined.

(** The installation after a crash between observing the two messages
    and processing them: [lastTimestamp] is past both, the agent cursor is
    not. *)
Definition crashed : State :=
  {| lastTimestamp := str "2";
     lastAgentTimestamp := ∅;
     sessions := ∅;
     registeredGroups := {[ str "tg:100" := G ]};
     db := mkDb [hi; how_are_you] (Some (str "2")) (Some ∅) ∅ [] [];
     clock := 0;
     timers := [];
     trace := [] |}.

Lemma recovery_finds_unprocessed_witness :
  ∃ evs,
    recoverPendingMessages ANDY flagged_bot [(str "tg:100", G)] crashed
    = emit evs crashed
    ∧ QueueEnqueueMessageCheck (str "tg:100") ∈ evs
    ∧ how_are_you ∉ (getNewMessages flagged_bot (db crashed)
                       (map fst (map_to_list (registeredGroups crashed)))
                       (lastTimestamp crashed) ANDY).1.
Proof.
  destruct (recovery_finds_unprocessed ANDY flagged_bot [(str "tg:100", G)] crashed)
    as (evs & Hevs & _ & Hm).
  - intros j g. rewrite list_elem_of_singleton. unfold crashed.
    cbn [registeredGroups]. rewrite lookup_singleton_Some. split.
    + by intros [= -> ->].
    + by intros [-> ->].
  - exists evs. split; [exact Hevs|].
    destruct (Hm how_are_you) as [H1 H2].
    + apply list_elem_of_further, list_elem_of_here.
    + by eexists.
    + reflexivity.
    + reflexivity.
    + split; [exact H1|]. apply H2. reflexivity.
Defined.

(** After that crash a poll finds nothing new, and recovery enqueues the
    chat. *)
Example recovery_after_crash :
  poll false crashed = crashed
  ∧ recoverPendingMessages ANDY flagged_bot [(str "tg:100", G)] crashed
    = emit [Log Info "Recovery: found unprocessed messages";
            QueueEnqueueMessageCheck (str "tg:100")] crashed.
Proof. split; reflexivity. Qed.

End Router.


(* ===================================================================== *)
(** * src/commands.ts: slash commands *)
(* ===================================================================== *)

Module Commands.
Import JS Types Env.

Definition SPACE : N := 32.
Definition SLASH : N := 47.
Definition AT : N := 64.
Definition BULLET : N := 8226.  (* U+2022 *)
Definition ARROW : N := 8594.   (* U+2192 *)

(** [s.split(/\s+/)]: the pieces between the maximal runs of white space,
    empty pieces at the ends included; [skipping] is set inside a run. *)
Fixpoint split_ws_from (skipping : bool) (s : jsstring) : list jsstring :=
  match s with
  | [] => [[]]
  | c :: s' =>
      if is_ws c then
        if skipping then split_ws_from true s' else [] :: split_ws_from true s'
      else
        match split_ws_from false s' with
        | piece :: rest => (c :: piece) :: rest
        | [] => [[c]]
        end
  end.

Definition split_ws (s : jsstring) : list jsstring := split_ws_from false s.

(** [s.split(/\s+/).filter(Boolean)] *)
Definition words (s : jsstring) : list jsstring :=
  List.filter truthy (split_ws s).

(** [args.join(' ')] *)
Fixpoint join_sp (l : list jsstring) : jsstring :=
  match l with
  | [] => []
  | [x] => x
  | x :: rest => x ++ SPACE :: join_sp rest
  end.

(** [array.indexOf(x)], [None] for [-1]. *)
Fixpoint array_indexOf (x : jsstring) (l : list jsstring) : option nat :=
  match l with
  | [] => None
  | y :: l' => if bool_decide (y = x) then Some 0 else S <$> array_indexOf x l'
  end.

(** [SessionState] of types.ts, by the fields commands.ts reads and
    writes. *)
Record SessionState := mkSession {
  model : list N;
  thinkLevel : list N;
  verbose : bool;
  updatedAt : list N
}.

(** [Partial<SessionState>] as the handlers build it. *)
Record SessionUpdate := mkUpdate {
  set_thinkLevel : option (list N);
  set_verbose : option bool
}.

(** What a handler leaves behind: its reply, or the error it throws. *)
Inductive HandlerResult :=
| Replies (text : list N)
| Fails (err : list N).

Record CommandResult := mkResult {
  response : list N;
  handled : bool
}.

Definition MODEL_KEYS : list (list N) :=
  [str "ANTHROPIC_MODEL"; str "ANTHROPIC_SMALL_FAST_MODEL";
   str "ANTHROPIC_DEFAULT_OPUS_MODEL"; str "ANTHROPIC_DEFAULT_SONNET_MODEL";
   str "ANTHROPIC_DEFAULT_HAIKU_MODEL"].

Definition validTypes : list (list N) :=
  [str "default"; str "fast"; str "opus"; str "sonnet"; str "haiku"].

(** [typeToEnvVar[type]]; a computed key that is [undefined] reads
    ["undefined"]. *)
Definition typeToEnvVar (type : jsstring) : jsstring :=
  if bool_decide (type = str "default") then str "ANTHROPIC_MODEL"
  else if bool_decide (type = str "fast") then str "ANTHROPIC_SMALL_FAST_MODEL"
  else if bool_decide (type = str "opus") then str "ANTHROPIC_DEFAULT_OPUS_MODEL"
  else if bool_decide (type = str "sonnet") then str "ANTHROPIC_DEFAULT_SONNET_MODEL"
  else if bool_decide (type = str "haiku") then str "ANTHROPIC_DEFAULT_HAIKU_MODEL"
  else str "undefined".

Definition validLevels : list (list N) :=
  [str "off"; str "minimal"; str "low"; str "medium"; str "high"].

Section Handlers.
(** config.ts *)
Variable ANTHROPIC_MODELS : list (list N).
Variable DEFAULT_MODEL : list N.
(** [String.prototype.toLowerCase] *)
Variable toLowerCase : list N → list N.

(** ** /models and /model *)

(** [`${i + 1}. ${ANTHROPIC_MODELS[i]}`] for the models from index [i]. *)
Fixpoint model_lines (i : nat) (models : list (list N)) : list (list N) :=
  match models with
  | [] => []
  | m :: models' =>
      (toString (N.of_nat (i + 1)) ++ str ". " ++ m) :: model_lines (S i) models'
  end.

(** [modelsHandler()] *)
Definition modelsHandler : jsstring :=
  join_nl ([str "*Available Models:*"] ++ model_lines 0 ANTHROPIC_MODELS
           ++ [[LF] ++ str "_Use /model <type> <index> to switch_"]).

(** [findIndex] of [modelHandler]. *)
Definition findIndex (m : jsstring) : jsstring :=
  match array_indexOf m ANTHROPIC_MODELS with
  | Some idx => str " (" ++ toString (N.of_nat (idx + 1)) ++ str ")"
  | None => []
  end.

(** [`label${findIndex(v || '')} ${v || '(not set)'}`] *)
Definition show_line (label : jsstring) (v : option jsstring) : jsstring :=
  label ++ findIndex (match v with Some s => if truthy s then s else [] | None => [] end)
  ++ SPACE :: match v with
              | Some s => if truthy s then s else str "(not set)"
              | None => str "(not set)"
              end.

Definition show_models (currentModels : gmap (list N) (list N)) : jsstring :=
  join_nl
    [str "*Current Models:*";
     show_line (str "default:") (currentModels !! str "ANTHROPIC_MODEL");
     show_line (str "fast:") (currentModels !! str "ANTHROPIC_SMALL_FAST_MODEL");
     show_line (str "opus:") (currentModels !! str "ANTHROPIC_DEFAULT_OPUS_MODEL");
     show_line (str "sonnet:") (currentModels !! str "ANTHROPIC_DEFAULT_SONNET_MODEL");
     show_line (str "haiku:") (currentModels !! str "ANTHROPIC_DEFAULT_HAIKU_MODEL");
     [LF] ++ str "_Use /models to see available models with indices_";
     str "Usage: /model <type> <model or index>";
     str "Examples:";
     str "  /model default 1     " ++ [ARROW] ++ str " set default to model #1";
     str "  /model fast grok    " ++ [ARROW] ++ str " set fast to grok model"].

Definition invalid_type (type : jsstring) : jsstring :=
  str "*Error:* Invalid type " ++ [DQUOTE] ++ type ++ [DQUOTE] ++ [LF; LF]
  ++ str "Valid types: default, fast, opus, sonnet, haiku" ++ [LF; LF]
  ++ str "Usage:" ++ [LF]
  ++ [BULLET] ++ str " /model - show current models" ++ [LF]
  ++ [BULLET] ++ str " /model default 1 - set default to model #1" ++ [LF]
  ++ [BULLET] ++ str " /model fast grok - set fast to grok model" ++ [LF; LF]
  ++ str "Use /models to see available models with indices.".

Definition no_model (type : jsstring) : jsstring :=
  str "*Error:* Please specify a model" ++ [LF; LF]
  ++ str "Usage: /model " ++ type ++ str " <model or index>" ++ [LF; LF]
  ++ str "Use /models to see available models.".

Definition invalid_model (modelValue : jsstring) : jsstring :=
  str "*Error:* Invalid model " ++ [DQUOTE] ++ modelValue ++ [DQUOTE] ++ [LF; LF]
  ++ str "Use /models to see available models with indices." ++ [LF]
  ++ str "You can use either the model name or its index number.".

Definition model_updated (type resolvedModel : jsstring) (idx : nat) : jsstring :=
  str "*Model updated:* " ++ type ++ [SPACE; ARROW; SPACE] ++ resolvedModel
  ++ str " (" ++ toString (N.of_nat idx) ++ str ")" ++ [LF; LF]
  ++ str "_Restart NanoClaw for changes to take effect_".

(** The model an argument of [/model] stands for: an index into
    [ANTHROPIC_MODELS] if [parseInt] finds one in range, else a model
    name. *)
Definition resolve (modelValue : jsstring) : option jsstring :=
  let by_name :=
    if bool_decide (modelValue ∈ ANTHROPIC_MODELS) then Some modelValue else None in
  match parseInt10 modelValue with
  | Some modelIndex =>
      if ((1 <=? modelIndex) && (modelIndex <=? Z.of_nat (length ANTHROPIC_MODELS)))%Z
      then Some (nth (Z.to_nat (modelIndex - 1)) ANTHROPIC_MODELS [])
      else by_name
  | None => by_name
  end.

(** [modelHandler(args, msg)]: the reply and the [.env] file afterwards. *)
Definition modelHandler (args : list (list N)) (file : option (list N))
  : list N * option (list N) :=
  let currentModels := readEnvFile MODEL_KEYS file in
  match args with
  | [] => (show_models currentModels, file)
  | arg0 :: rest =>
      let type := toLowerCase arg0 in
      if negb (bool_decide (type ∈ validTypes)) then (invalid_type type, file) else
      let modelValue := trim (join_sp rest) in
      if negb (truthy modelValue) then (no_model type, file) else
      match resolve modelValue with
      | None => (invalid_model modelValue, file)
      | Some resolvedModel =>
          let envVar := typeToEnvVar type in
          let file := updateEnvFile [(envVar, resolvedModel)] file in
          let idx := match array_indexOf resolvedModel ANTHROPIC_MODELS with
                     | Some i => i + 1
                     | None => 0
                     end in
          (model_updated type resolvedModel idx, Some file)
      end
  end.

(** ** Session state: /think and /verbose *)

(** [getSessionState(chatJid)] at time [now]: the state, and the map with
    the state it may have created. *)
Definition getSessionState (now chatJid : jsstring)
    (states : gmap (list N) SessionState)
  : SessionState * gmap (list N) SessionState :=
  match states !! chatJid with
  | Some state => (state, states)
  | None =>
      let state := mkSession DEFAULT_MODEL (str "medium") false now in
      (state, <[chatJid := state]> states)
  end.

(** [updateSessionState(chatJid, updates)] at time [now]. *)
Definition updateSessionState (now chatJid : jsstring) (updates : SessionUpdate)
    (states : gmap (list N) SessionState)
  : SessionState * gmap (list N) SessionState :=
  let '(state, states) := getSessionState now chatJid states in
  let state :=
    mkSession (model state)
      (default (thinkLevel state) (set_thinkLevel updates))
      (default (verbose state) (set_verbose updates))
      now in
  (state, <[chatJid := state]> states).

(** [thinkHandler(args, msg)] *)
Definition thinkHandler (now : jsstring) (args : list (list N)) (msg : NewMessage)
    (states : gmap (list N) SessionState)
  : list N * gmap (list N) SessionState :=
  let chatJid := chat_jid msg in
  match args with
  | [] =>
      let '(state, states) := getSessionState now chatJid states in
      (str "*Current thinking level:* "
       ++ (if truthy (thinkLevel state) then thinkLevel state else str "medium"),
       states)
  | arg0 :: _ =>
      let level := toLowerCase arg0 in
      if negb (bool_decide (level ∈ validLevels))
      then (str "*Error:* Invalid level. Use: off, minimal, low, medium, high", states)
      else
        let '(_, states) :=
          updateSessionState now chatJid (mkUpdate (Some level) None) states in
        (str "*Thinking level:* " ++ level, states)
  end.

(** [verboseHandler(args, msg)] *)
Definition verboseHandler (now : jsstring) (args : list (list N)) (msg : NewMessage)
    (states : gmap (list N) SessionState)
  : list N * gmap (list N) SessionState :=
  let chatJid := chat_jid msg in
  let '(state, states) := getSessionState now chatJid states in
  match args with
  | [] => (str "*Verbose:* " ++ (if verbose state then str "on" else str "off"), states)
  | arg0 :: _ =>
      let value := toLowerCase arg0 in
      if bool_decide (value = str "on") || bool_decide (value = str "true") then
        let '(_, states) :=
          updateSessionState now chatJid (mkUpdate None (Some true)) states in
        (str "*Verbose:* on", states)
      else if bool_decide (value = str "off") || bool_decide (value = str "false") then
        let '(_, states) :=
          updateSessionState now chatJid (mkUpdate None (Some false)) states in
        (str "*Verbose:* off", states)
      else (str "*Error:* Use /verbose on or /verbose off", states)
  end.

(** ** handleCommand *)

(** The command name and the arguments of a trimmed command line. *)
Definition parse_command (trimmed : jsstring) : list N * list (list N) :=
  let '(cmdName, args) :=
    match indexOf SPACE trimmed with
    | None => (toLowerCase (slice_from 1 trimmed), [])
    | Some spaceIdx =>
        (toLowerCase (slice 1 spaceIdx trimmed),
         words (slice_from (spaceIdx + 1) trimmed))
    end in
  let cmdName :=
    match indexOf AT cmdName with
    | Some atIdx => if 0 <? atIdx then slice 0 atIdx cmdName else cmdName
    | None => cmdName
    end in
  (cmdName, args).

Section HandleCommand.
(** The state the handlers work on. *)
Context {St : Type}.
(** The registry [commands], and [getHelpText()]. *)
Variable commands :
  list N → option (list (list N) → NewMessage → RegisteredGroup → St
                   → HandlerResult * St).
Variable helpText : list N.

(** [handleCommand(content, msg, group)] *)
Definition handleCommand (content : jsstring) (msg : NewMessage)
    (group : RegisteredGroup) (st : St) : CommandResult * St :=
  let trimmed := trim content in
  if negb (startsWith [SLASH] trimmed) then (mkResult [] false, st) else
  let '(cmdName, args) := parse_command trimmed in
  match commands cmdName with
  | None =>
      (mkResult (str "*Unknown command:* /" ++ cmdName ++ [LF; LF] ++ helpText) true,
       st)
  | Some handler =>
      match handler args msg group st with
      | (Replies response, st) => (mkResult response true, st)
      | (Fails err, st) =>
          (mkResult (str "*Error:* Command failed: " ++ err) true, st)
      end
  end.
End HandleCommand.
End Handlers.

(** ** Splitting a command line into words *)

Lemma split_ws_from_nonempty b s : split_ws_from b s ≠ [].
Proof.
  revert b. induction s as [|c s IH]; intros b; [done|]. cbn.
  destruct (is_ws c).
  - destruct b; [apply IH|done].
  - by destruct (split_ws_from false s).
Qed.

Lemma split_ws_from_pieces b s :
  Forall (Forall (λ c, is_ws c = false)) (split_ws_from b s)
  ∧ concat (split_ws_from b s) = List.filter (λ c, negb (is_ws c)) s.
Proof.
  revert b. induction s as [|c s IH]; intros b.
  { cbn. split; [by repeat constructor|done]. }
  cbn [split_ws_from List.filter]. destruct (is_ws c) eqn:Hc; cbn [negb].
  - destruct b; [apply IH|]. destruct (IH true) as [H1 H2].
    split; [by constructor|exact H2].
  - destruct (IH false) as [H1 H2].
    destruct (split_ws_from false s) as [|piece rest] eqn:E.
    { by apply split_ws_from_nonempty in E. }
    apply Forall_cons in H1 as [Hp Hr]. split.
    + constructor; [by constructor|done].
    + cbn in *. by rewrite H2.
Qed.

Lemma filter_truthy_concat (l : list (list N)) :
  concat (List.filter truthy l) = concat l.
Proof.
  induction l as [|x l IH]; [done|]. cbn.
  destruct x; cbn; [done|]. by rewrite IH.
Qed.

Lemma words_skipping s :
  List.filter truthy (split_ws_from true s) = words s.
Proof.
  unfold words, split_ws. destruct s as [|c s]; [done|]. cbn.
  by destruct (is_ws c).
Qed.

Lemma split_ws_word w s :
  Forall (λ c, is_ws c = false) w →
  split_ws_from false (w ++ s)
  = match split_ws_from false s with
    | piece :: rest => (w ++ piece) :: rest
    | [] => [w]
    end.
Proof.
  induction 1 as [|c w Hc _ IH]; cbn [app].
  - destruct (split_ws_from false s) eqn:E; [|done].
    by apply split_ws_from_nonempty in E.
  - cbn [split_ws_from]. rewrite Hc, IH.
    by destruct (split_ws_from false s).
Qed.

(** X23.  The arguments of a command are the words of the text after the
    command name: each is non-empty and free of white space, together they
    hold every character of the text that is not white space, in order,
    and it does not matter how much white space stands between two words
    or around them. *)
Theorem words_of_a_command_line :
  (∀ s, Forall (λ a, a ≠ [] ∧ Forall (λ c, is_ws c = false) a) (words s))
  ∧ (∀ s, concat (words s) = List.filter (λ c, negb (is_ws c)) s)
  ∧ words [] = []
  ∧ (∀ c s, is_ws c = true → words (c :: s) = words s)
  ∧ (∀ w, w ≠ [] → Forall (λ c, is_ws c = false) w → words w = [w])
  ∧ (∀ w c s, w ≠ [] → Forall (λ c, is_ws c = false) w → is_ws c = true →
       words (w ++ c :: s) = w :: words s).
Proof.
  split_and!.
  - intros s. unfold words, split_ws.
    destruct (split_ws_from_pieces false s) as [H _].
    induction H as [|a l Ha _ IH]; [constructor|].
    cbn. destruct a; cbn; [done|]. by constructor.
  - intros s. unfold words, split_ws. rewrite filter_truthy_concat.
    apply split_ws_from_pieces.
  - done.
  - intros c s Hc. rewrite <- (words_skipping s). unfold words, split_ws. cbn.
    by rewrite Hc.
  - intros w Hw Hall. unfold words, split_ws.
    rewrite <- (app_nil_r w) at 1. rewrite split_ws_word by done.
    cbn. rewrite app_nil_r. by destruct w.
  - intros w c s Hw Hall Hc. unfold words at 1. unfold split_ws.
    rewrite split_ws_word by done. cbn [split_ws_from]. rewrite Hc.
    rewrite app_nil_r. cbn [List.filter]. rewrite words_skipping.
    by destruct w.
Qed.

(** ** What a command line is taken for *)

(** [/command@bot_username]: the name up to the first [@] that is not its
    first character. *)
Definition cut_at (cmdName : jsstring) : jsstring :=
  match indexOf AT cmdName with
  | Some atIdx => if 0 <? atIdx then slice 0 atIdx cmdName else cmdName
  | None => cmdName
  end.

Section Facts.
Variable ANTHROPIC_MODELS : list (list N).
Variable DEFAULT_MODEL : list N.
Variable toLowerCase : list N → list N.

Lemma parse_command_space name rest :
  SPACE ∉ name →
  parse_command toLowerCase (SLASH :: name ++ SPACE :: rest)
  = (cut_at (toLowerCase name), words rest).
Proof.
  intros Hname. unfold parse_command.
  change (SLASH :: name ++ SPACE :: rest) with ((SLASH :: name) ++ SPACE :: rest).
  rewrite indexOf_app_fresh.
  2:{ intros [E|?]%elem_of_cons; [discriminate E|done]. }
  cbn [length app]. unfold slice, slice_from.
  replace (S (length name) - 1) with (length name) by lia.
  replace (S (length name) + 1) with (S (S (length name))) by lia.
  change (drop 1 (SLASH :: name ++ SPACE :: rest)) with (name ++ SPACE :: rest).
  change (drop (S (S (length name))) (SLASH :: name ++ SPACE :: rest))
    with (drop (S (length name)) (name ++ [SPACE] ++ rest)).
  rewrite take_app_length.
  rewrite app_assoc, drop_app_length' by (rewrite length_app; cbn; lia).
  done.
Qed.

Lemma parse_command_bare name :
  SPACE ∉ name →
  parse_command toLowerCase (SLASH :: name) = (cut_at (toLowerCase name), []).
Proof.
  intros Hname. unfold parse_command. rewrite indexOf_absent; [done|].
  intros [E|?]%elem_of_cons; [discriminate E|done].
Qed.

Lemma cut_at_bot a b : a ≠ [] → AT ∉ a → cut_at (a ++ AT :: b) = a.
Proof.
  intros Ha Hat. unfold cut_at. rewrite indexOf_app_fresh by done.
  assert (Hlen : (0 <? length a) = true).
  { destruct a; [done|]. apply Nat.ltb_lt. cbn. lia. }
  rewrite Hlen. unfold slice. by rewrite Nat.sub_0_r, drop_0, take_app_length.
Qed.

(** X24.  [handleCommand] takes a message for a command exactly when its
    trimmed text starts with [/]; any other message is left alone, with
    an empty response and the state untouched.  The command name is the
    lower-cased text between the [/] and the first space (not any other
    white space), cut at a bot suffix [@...]; the handler registered
    under that name gets the words after that space, and its reply or
    its error becomes the response.  A name that is not registered gets
    the help text, and is still taken as handled. *)
Theorem handleCommand_dispatch {St : Type}
    (commands : list N → option (list (list N) → NewMessage → RegisteredGroup
                                 → St → HandlerResult * St))
    (helpText content : list N) (msg : NewMessage) (group : RegisteredGroup)
    (st : St) :
  let r := handleCommand toLowerCase commands helpText content msg group st in
  handled r.1 = startsWith [SLASH] (trim content)
  ∧ (startsWith [SLASH] (trim content) = false → r = (mkResult [] false, st))
  ∧ (∀ name args,
       (trim content = SLASH :: name ∧ args = []
        ∨ ∃ rest, trim content = SLASH :: name ++ SPACE :: rest ∧ args = words rest) →
       SPACE ∉ name →
       r = match commands (cut_at (toLowerCase name)) with
           | None =>
               (mkResult (str "*Unknown command:* /" ++ cut_at (toLowerCase name)
                          ++ [LF; LF] ++ helpText) true, st)
           | Some handler =>
               match handler args msg group st with
               | (Replies response, st') => (mkResult response true, st')
               | (Fails err, st') =>
                   (mkResult (str "*Error:* Command failed: " ++ err) true, st')
               end
           end)
  ∧ (∀ a b, a ≠ [] → AT ∉ a → cut_at (a ++ AT :: b) = a)
  ∧ (∀ a, AT ∉ a → cut_at a = a).
Proof.
  cbv zeta. unfold handleCommand.
  destruct (startsWith [SLASH] (trim content)) eqn:Hslash; cbn [negb].
  - split_and!.
    + destruct (parse_command toLowerCase (trim content)) as [cmdName args].
      destruct (commands cmdName) as [handler|]; [|done].
      by destruct (handler args msg group st) as [[response|err] st'].
    + done.
    + intros name args Hshape Hname.
      assert (Hparse : parse_command toLowerCase (trim content)
                       = (cut_at (toLowerCase name), args)).
      { destruct Hshape as [[-> ->]|(rest & -> & ->)].
        - by apply parse_command_bare.
        - by apply parse_command_space. }
      rewrite Hparse.
      destruct (commands (cut_at (toLowerCase name))) as [handler|]; [|done].
      by destruct (handler args msg group st) as [[response|err] st'].
    + apply cut_at_bot.
    + intros a Ha. unfold cut_at. by rewrite indexOf_absent.
  - split_and!; try done.
    + intros name args Hshape _. exfalso.
      destruct Hshape as [[E _]|(rest & E & _)]; rewrite E in Hslash; done.
    + apply cut_at_bot.
    + intros a Ha. unfold cut_at. by rewrite indexOf_absent.
Qed.

(** ** /model *)

Lemma resolve_listed v m : resolve ANTHROPIC_MODELS v = Some m → m ∈ ANTHROPIC_MODELS.
Proof.
  unfold resolve. cbv zeta.
  assert (Hname : (if bool_decide (v ∈ ANTHROPIC_MODELS) then Some v else None)
                  = Some m → m ∈ ANTHROPIC_MODELS).
  { case_bool_decide; [|done]. by intros [= <-]. }
  destruct (parseInt10 v) as [i|]; [|done].
  destruct (Z.leb_spec 1 i) as [H1|_]; cbn [andb]; [|done].
  destruct (Z.leb_spec i (Z.of_nat (length ANTHROPIC_MODELS))) as [H2|_]; [|done].
  intros [= <-].
  destruct (nth_lookup_or_length ANTHROPIC_MODELS (Z.to_nat (i - 1)) []) as [H|H].
  - by eapply list_elem_of_lookup_2.
  - lia.
Qed.

Lemma env_var_of_type type :
  type ∈ validTypes →
  typeToEnvVar type ∈ MODEL_KEYS ∧ key_ok (typeToEnvVar type) = true.
Proof.
  unfold validTypes. rewrite !elem_of_cons, elem_of_nil.
  intros [->|[->|[->|[->|[->|[]]]]]]; (split; [|reflexivity]).
  - apply list_elem_of_here.
  - apply list_elem_of_further, list_elem_of_here.
  - do 2 apply list_elem_of_further. apply list_elem_of_here.
  - do 3 apply list_elem_of_further. apply list_elem_of_here.
  - do 4 apply list_elem_of_further. apply list_elem_of_here.
Qed.

Lemma value_ok_no_lf v : value_ok v = true → LF ∉ v.
Proof.
  unfold value_ok. intros H.
  repeat (apply andb_prop in H as [H ?]).
  match goal with
  | H' : negb (bool_decide (LF ∈ v)) = true |- _ =>
      apply negb_true_iff, bool_decide_eq_false in H'; exact H'
  end.
Qed.

(** X25.  [/model] only ever writes a model of [ANTHROPIC_MODELS], and
    only under the environment variable of one of the five model types:
    whatever the arguments, either the [.env] file is left as it was, or
    it is updated in exactly that way.  If the listed models are values
    the parser reads back as written, then after such an update the five
    variables read as before, except the one updated, which reads as the
    model chosen. *)
Theorem model_update_is_validated (args : list (list N)) (file : option (list N)) :
  Forall (λ m, value_ok m = true) ANTHROPIC_MODELS →
  let file' := (modelHandler ANTHROPIC_MODELS toLowerCase args file).2 in
  file' = file
  ∨ ∃ type m,
      type ∈ validTypes ∧ m ∈ ANTHROPIC_MODELS
      ∧ typeToEnvVar type ∈ MODEL_KEYS
      ∧ file' = Some (updateEnvFile [(typeToEnvVar type, m)] file)
      ∧ readEnvFile MODEL_KEYS file' !! typeToEnvVar type = Some m
      ∧ ∀ k, k ∈ MODEL_KEYS → k ≠ typeToEnvVar type →
          readEnvFile MODEL_KEYS file' !! k = readEnvFile MODEL_KEYS file !! k.
Proof.
  intros Hmodels. cbv zeta. unfold modelHandler. cbv zeta.
  destruct args as [|arg0 rest]; [by left|].
  case_bool_decide as Htype; cbn [negb]; [|by left].
  destruct (truthy (trim (join_sp rest))); cbn [negb]; [|by left].
  destruct (resolve ANTHROPIC_MODELS (trim (join_sp rest))) as [m|] eqn:Hres;
    [|by left].
  right. cbn [snd]. exists (toLowerCase arg0), m.
  apply resolve_listed in Hres.
  destruct (env_var_of_type _ Htype) as [Hkey Hok].
  assert (Hm : value_ok m = true).
  { rewrite Forall_forall in Hmodels. by apply Hmodels. }
  split_and!; try done.
  - rewrite read_one_of by done. rewrite read_single_update by done.
    apply lookup_singleton_eq.
  - intros k Hk Hne.
    rewrite (read_one_of MODEL_KEYS (Some _) k Hk), (read_one_of MODEL_KEYS file k Hk).
    f_equal. apply read_other_key.
    + by repeat constructor.
    + repeat constructor. by apply value_ok_no_lf.
    + cbn. by intros ?%list_elem_of_singleton.
Qed.

Lemma model_lines_lookup j models i :
  model_lines j models !! i
  = (λ m, toString (N.of_nat (j + i + 1)) ++ str ". " ++ m) <$> models !! i.
Proof.
  revert j i. induction models as [|m models IH]; intros j i; [done|].
  destruct i as [|i]; cbn [model_lines lookup list_lookup].
  - cbn. by rewrite Nat.add_0_r.
  - change ((_ :: model_lines (S j) models) !! S i)
      with (model_lines (S j) models !! i).
    change ((m :: models) !! S i) with (models !! i).
    rewrite IH. by replace (S j + i + 1) with (j + S i + 1) by lia.
Qed.

(** X26.  The number that [/models] prints in front of a model is the
    number that selects it in [/model]: for every listed model, the line
    of [/models] for it starts with its position counted from 1, and
    [/model <type> <that number>] writes this model under the variable of
    the type. *)
Theorem model_index_selects_listed_model (i : nat) (m arg0 : list N)
    (file : option (list N)) :
  ANTHROPIC_MODELS !! i = Some m →
  toLowerCase arg0 ∈ validTypes →
  model_lines 0 ANTHROPIC_MODELS !! i
  = Some (toString (N.of_nat (i + 1)) ++ str ". " ++ m)
  ∧ (modelHandler ANTHROPIC_MODELS toLowerCase
       [arg0; toString (N.of_nat (i + 1))] file).2
    = Some (updateEnvFile [(typeToEnvVar (toLowerCase arg0), m)] file).
Proof.
  intros Hi Htype. split.
  { by rewrite model_lines_lookup, Hi. }
  unfold modelHandler. cbv zeta.
  rewrite (bool_decide_eq_true_2 _ Htype). cbn [negb join_sp].
  assert (Htrim : trim (toString (N.of_nat (i + 1))) = toString (N.of_nat (i + 1))).
  { apply trim_no_ws. eapply Forall_impl; [apply toString_digits|].
    intros c. apply is_digit_not_ws. }
  rewrite Htrim.
  assert (Htruthy : truthy (toString (N.of_nat (i + 1))) = true).
  { pose proof (toString_nonempty (N.of_nat (i + 1))). by destruct (toString _). }
  rewrite Htruthy. cbn [negb].
  assert (Hres : resolve ANTHROPIC_MODELS (toString (N.of_nat (i + 1))) = Some m).
  { unfold resolve. cbv zeta. rewrite parseInt10_toString.
    apply lookup_lt_Some in Hi as Hlt.
    rewrite (proj2 (Z.leb_le 1 _)) by lia.
    rewrite (proj2 (Z.leb_le _ (Z.of_nat (length ANTHROPIC_MODELS)))) by lia.
    cbn [andb]. f_equal.
    replace (Z.to_nat (Z.of_N (N.of_nat (i + 1)) - 1)) with i by lia.
    by apply nth_lookup_Some. }
  by rewrite Hres.
Qed.

(** ** /think and /verbose *)

Lemma getSessionState_twice now now' j states :
  let '(state, states') := getSessionState DEFAULT_MODEL now j states in
  states' !! j = Some state
  ∧ getSessionState DEFAULT_MODEL now' j states' = (state, states')
  ∧ (∀ j', j' ≠ j → states' !! j' = states !! j')
  ∧ ∀ v, <[j := v]> states' = <[j := v]> states.
Proof.
  unfold getSessionState. destruct (states !! j) as [state|] eqn:E.
  - rewrite E. done.
  - rewrite lookup_insert_eq. split_and!; try done.
    + intros j' Hj'. by rewrite lookup_insert_ne.
    + intros v. apply insert_insert_eq.
Qed.

Lemma updateSessionState_spec now j u states :
  let before := (getSessionState DEFAULT_MODEL now j states).1 in
  let after := mkSession (model before)
                 (default (thinkLevel before) (set_thinkLevel u))
                 (default (verbose before) (set_verbose u)) now in
  updateSessionState DEFAULT_MODEL now j u states = (after, <[j := after]> states).
Proof.
  cbv zeta. unfold updateSessionState.
  pose proof (getSessionState_twice now now j states) as H.
  destruct (getSessionState DEFAULT_MODEL now j states) as [state states'].
  destruct H as (_ & _ & _ & H). cbn [fst]. by rewrite H.
Qed.

Lemma level_truthy level : level ∈ validLevels → truthy level = true.
Proof.
  unfold validLevels. rewrite !elem_of_cons, elem_of_nil.
  by intros [->|[->|[->|[->|[->|[]]]]]].
Qed.

(** X27.  The session commands keep what they say.  [/think <level>] with
    a valid level stores the lower-cased level for the chat, keeps the
    chat's model and verbose flag (the defaults, if the chat had no state
    yet) and touches no other chat; an invalid level changes nothing at
    all; and a [/think] without argument after it reports the level just
    stored and changes nothing.  [/verbose on] and [/verbose off] store
    the flag and keep the chat's thinking level. *)
Theorem session_commands_keep_state (now now' : list N) (arg : list N)
    (msg : NewMessage) (states : gmap (list N) SessionState) :
  let j := chat_jid msg in
  let before := (getSessionState DEFAULT_MODEL now j states).1 in
  let think := thinkHandler DEFAULT_MODEL toLowerCase now [arg] msg states in
  let verb := verboseHandler DEFAULT_MODEL toLowerCase now [arg] msg states in
  (toLowerCase arg ∉ validLevels → think.2 = states)
  ∧ (toLowerCase arg ∈ validLevels →
     think.1 = str "*Thinking level:* " ++ toLowerCase arg
     ∧ think.2 !! j
       = Some (mkSession (model before) (toLowerCase arg) (verbose before) now)
     ∧ (∀ j', j' ≠ j → think.2 !! j' = states !! j')
     ∧ thinkHandler DEFAULT_MODEL toLowerCase now' [] msg think.2
       = (str "*Current thinking level:* " ++ toLowerCase arg, think.2))
  ∧ (∀ flag,
       (flag = true ∧ (toLowerCase arg = str "on" ∨ toLowerCase arg = str "true")
        ∨ flag = false ∧ (toLowerCase arg = str "off" ∨ toLowerCase arg = str "false")) →
       verb.2 !! j = Some (mkSession (model before) (thinkLevel before) flag now)
       ∧ (∀ j', j' ≠ j → verb.2 !! j' = states !! j')
       ∧ verboseHandler DEFAULT_MODEL toLowerCase now' [] msg verb.2
         = (str "*Verbose:* " ++ (if flag then str "on" else str "off"), verb.2)).
Proof.
  cbv zeta. unfold thinkHandler, verboseHandler. cbv zeta. split_and!.
  - intros Hbad. by rewrite (bool_decide_eq_false_2 _ Hbad).
  - intros Hok. rewrite (bool_decide_eq_true_2 _ Hok). cbn [negb].
    pose proof (level_truthy _ Hok) as Ht.
    rewrite updateSessionState_spec. cbn [fst snd set_thinkLevel set_verbose].
    change (default ?x None) with x. change (default ?x (Some ?y)) with y.
    split_and!.
    + done.
    + apply lookup_insert_eq.
    + intros j' Hj'. by rewrite lookup_insert_ne.
    + unfold getSessionState at 1. rewrite lookup_insert_eq. cbn [thinkLevel].
      by rewrite Ht.
  - intros flag Hflag.
    pose proof (getSessionState_twice now now (chat_jid msg) states) as Hget.
    destruct (getSessionState DEFAULT_MODEL now (chat_jid msg) states)
      as [state states'] eqn:Eget.
    destruct Hget as (Hin & Hagain & Hother & Hins). cbn [fst].
    assert (Hupd : ∀ u,
              updateSessionState DEFAULT_MODEL now (chat_jid msg) u states'
              = (mkSession (model state) (default (thinkLevel state) (set_thinkLevel u))
                   (default (verbose state) (set_verbose u)) now,
                 <[chat_jid msg :=
                     mkSession (model state)
                       (default (thinkLevel state) (set_thinkLevel u))
                       (default (verbose state) (set_verbose u)) now]> states)).
    { intros u. rewrite updateSessionState_spec, Hagain. cbn [fst]. by rewrite Hins. }
    assert (Hres :
      (if bool_decide (toLowerCase arg = str "on")
          || bool_decide (toLowerCase arg = str "true")
       then
         let '(_, states0) :=
           updateSessionState DEFAULT_MODEL now (chat_jid msg)
             (mkUpdate None (Some true)) states' in
         (str "*Verbose:* on", states0)
       else if bool_decide (toLowerCase arg = str "off")
               || bool_decide (toLowerCase arg = str "false")
       then
         let '(_, states0) :=
           updateSessionState DEFAULT_MODEL now (chat_jid msg)
             (mkUpdate None (Some false)) states' in
         (str "*Verbose:* off", states0)
       else (str "*Error:* Use /verbose on or /verbose off", states')).2
      = <[chat_jid msg := mkSession (model state) (thinkLevel state) flag now]> states).
    { rewrite !Hupd. cbn [set_thinkLevel set_verbose].
      change (default ?x None) with x. change (default ?x (Some ?y)) with y.
      destruct Hflag as [[-> [-> | ->]]|[-> [-> | ->]]]; reflexivity. }
    rewrite Hres. split_and!.
    + apply lookup_insert_eq.
    + intros j' Hj'. by rewrite lookup_insert_ne.
    + unfold getSessionState. rewrite lookup_insert_eq. cbn [verbose].
      by destruct flag.
Qed.
End Facts.

(** [toLowerCase] on text that has no upper-case letters outside ASCII. *)
Definition lower_ascii (s : jsstring) : jsstring :=
  map (λ c, if ((65 <=? c) && (c <=? 90))%N then (c + 32)%N else c) s.

Definition two_models : list (list N) := [str "claude-opus"; str "claude-sonnet"].

(** [/model Fast claude-sonnet] on a file that sets the default model. *)
Example model_update_example :
  modelHandler two_models lower_ascii [str "Fast"; str "claude-sonnet"]
    (Some (str "ANTHROPIC_MODEL=claude-opus"))
  = (model_updated (str "fast") (str "claude-sonnet") 2,
     Some (str "ANTHROPIC_MODEL=claude-opus
ANTHROPIC_SMALL_FAST_MODEL=claude-sonnet
")).
Proof. reflexivity. Qed.

Lemma model_update_is_validated_witness :
  let file := Some (str "ANTHROPIC_MODEL=claude-opus") in
  let file' := (modelHandler two_models lower_ascii
                  [str "Fast"; str "claude-sonnet"] file).2 in
  file' = file
  ∨ ∃ type m,
      type ∈ validTypes ∧ m ∈ two_models
      ∧ typeToEnvVar type ∈ MODEL_KEYS
      ∧ file' = Some (updateEnvFile [(typeToEnvVar type, m)] file)
      ∧ readEnvFile MODEL_KEYS file' !! typeToEnvVar type = Some m
      ∧ ∀ k, k ∈ MODEL_KEYS → k ≠ typeToEnvVar type →
          readEnvFile MODEL_KEYS file' !! k = readEnvFile MODEL_KEYS file !! k.
Proof.
  apply (model_update_is_validated two_models lower_ascii
           [str "Fast"; str "claude-sonnet"]
           (Some (str "ANTHROPIC_MODEL=claude-opus"))).
  repeat constructor.
Defined.

Lemma model_index_selects_listed_model_witness :
  (modelHandler two_models lower_ascii [str "OPUS"; str "2"] None).2
  = Some (str "
ANTHROPIC_DEFAULT_OPUS_MODEL=claude-sonnet
").
Proof.
  destruct (model_index_selects_listed_model two_models lower_ascii 1
              (str "claude-sonnet") (str "OPUS") None) as [_ H].
  - reflexivity.
  - apply (bool_decide_eq_true_1 (lower_ascii (str "OPUS") ∈ validTypes)).
    reflexivity.
  - exact H.
Defined.

End Commands.
